(** * Couckoo: the LSH bucketing and labeling engine of [src/couckoo.py]

    A shallow embedding of class [LSHProcessor] and of the helper functions
    around it, followed by the properties of the engine.

    Conventions of the embedding.
    - Python [int] is [Z]; a [str] is a [string]; [None] is [option].
    - A NumPy signature is a one-dimensional array of bits, [list bool];
      the [uint8] array made by [np.packbits] is a [list Z] of bytes.
    - A Python [dict] that is iterated ([signatures], every bucket map) is
      an insertion-ordered association list ([PyDict]); [labels], which is
      only looked up and assigned, is a [gmap].
    - [self] is passed explicitly; a method returns the updated object.
    - Exceptions are the [Raise] results of [M]; [logging.error] calls are
      collected in the writer part of [M].
    - The [float] of a similarity is kept as the exact quotient in [Q] of
      the two integers that Python divides; thresholds are [Q] too. *)

From Stdlib Require Import QArith Ascii String.
From stdpp Require Import base option list gmap strings numbers relations.

Local Open Scope Z_scope.

(** ** Insertion-ordered dictionaries *)

Module PyDict.
Section dict.
Context {K V : Type} `{EqDecision K}.

Definition t : Type := list (K * V).

Definition empty : t := [].

(** [d.get(k)] / [d[k]] *)
Fixpoint get (k : K) (d : t) : option V :=
  match d with
  | [] => None
  | (k', v) :: d' => if decide (k = k') then Some v else get k d'
  end.

(** [k in d] *)
Definition mem (k : K) (d : t) : bool := bool_decide (is_Some (get k d)).

(** [d[k] = v]: an existing key keeps its position, a new key goes last. *)
Fixpoint set (k : K) (v : V) (d : t) : t :=
  match d with
  | [] => [(k, v)]
  | (k', v') :: d' =>
      if decide (k = k') then (k, v) :: d' else (k', v') :: set k v d'
  end.

(** [d.keys()] and [d.values()], in insertion order *)
Definition keys (d : t) : list K := d.*1.
Definition values (d : t) : list V := d.*2.
End dict.
Global Arguments t : clear implicits.
End PyDict.

(** ** The NumPy operations the engine uses *)

Module np.

(** One byte from at most eight bits, first bit most significant
    ([bitorder='big']). *)
Definition byte_of_bits (bs : list bool) : Z :=
  fold_left (fun acc b => Z.lor (Z.shiftl acc 1) (Z.b2z b)) bs 0.

(** Zero padding of the last, incomplete group of bits. *)
Definition pad8 (bs : list bool) : list bool :=
  bs ++ replicate (8 - length bs)%nat false.

(** [np.packbits(a)] on a one-dimensional array of bits. *)
Fixpoint packbits (a : list bool) : list Z :=
  match a with
  | [] => []
  | b0 :: b1 :: b2 :: b3 :: b4 :: b5 :: b6 :: b7 :: rest =>
      byte_of_bits [b0; b1; b2; b3; b4; b5; b6; b7] :: packbits rest
  | _ => [byte_of_bits (pad8 a)]
  end.

(** The eight bits of a byte, most significant first. *)
Definition bits_of_byte (w : Z) : list bool :=
  (fun i => Z.testbit w (7 - i)) <$> seqZ 0 8.

(** [np.unpackbits(p)] *)
Definition unpackbits (p : list Z) : list bool :=
  p ≫= bits_of_byte.

(** [x != y] on two one-dimensional arrays: elementwise when the shapes
    agree, no result (NumPy raises [ValueError]) when they do not. The
    arrays compared here come out of [unpackbits], their lengths are
    multiples of 8, so broadcasting a length-1 operand never applies. *)
Definition not_equal (x y : list bool) : option (list bool) :=
  if decide (length x = length y) then Some (zip_with xorb x y) else None.

(** [np.count_nonzero(a)] *)
Definition count_nonzero (a : list bool) : Z :=
  Z.of_nat (length (filter (fun b => b = true) a)).

(** [a.tobytes()] on an array of bits: one byte, 0 or 1, per element. *)
Definition tobytes (a : list bool) : list Z := Z.b2z <$> a.

(** The number of zero bits [packbits] appends to [n] bits. *)
Definition padding (n : nat) : nat := ((8 - n mod 8) mod 8)%nat.

End np.

(** ** Python slicing *)

(** A slice bound, normalised against the length as Python does. *)
Definition slice_bound (len i : Z) : Z :=
  if i <? 0 then Z.max (i + len) 0 else Z.min i len.

(** [l[lo:hi]] *)
Definition py_slice {A} (l : list A) (lo hi : Z) : list A :=
  let len := Z.of_nat (length l) in
  let lo' := slice_bound len lo in
  let hi' := slice_bound len hi in
  take (Z.to_nat (hi' - lo')) (drop (Z.to_nat lo') l).

(** ** Exceptions and logging *)

(** The [ValueError]s of the program, by origin. *)
Inductive value_error : Type :=
  | DirectoryDoesNotExist (input_dir : string)
  | NoValidImages (input_dir : string)
  | ShapeMismatch.

Inductive exn : Type :=
  | KeyError
  | IndexError
  | ZeroDivisionError
  | ValueError (v : value_error).

(** What [logging.error] was called with. *)
Inductive log_record : Type :=
  | SignaturesNotFound (pair : string * string)
  | DirectoryNotFound (input_dir : string)
  | ErrorMessage (v : value_error).

Inductive result (A : Type) : Type :=
  | Ok (a : A)
  | Raise (e : exn).
Global Arguments Ok {A} a.
Global Arguments Raise {A} e.

(** A computation: the records it logged, and its outcome. *)
Definition M (A : Type) : Type := (list log_record * result A)%type.

Definition ret {A} (a : A) : M A := ([], Ok a).
Definition raise {A} (e : exn) : M A := ([], Raise e).
Definition logging_error (r : log_record) : M unit := ([r], Ok tt).

Definition bind {A B} (m : M A) (k : A -> M B) : M B :=
  match m with
  | (l, Ok a) => let '(l', r) := k a in (l ++ l', r)
  | (l, Raise e) => (l, Raise e)
  end.

Notation "x <- m ;; k" := (bind m (fun x => k))
  (at level 100, m at next level, right associativity).

(** A [for] loop whose body may raise: the state after the last iteration. *)
Fixpoint foldM {S A} (body : S -> A -> M S) (l : list A) (s : S) : M S :=
  match l with
  | [] => ret s
  | x :: l' => s' <- body s x ;; foldM body l' s'
  end.

(** [try: m  except ValueError as ve: handler ve] *)
Definition except_ValueError {A} (m : M A) (handler : value_error -> M A) : M A :=
  match m with
  | (l, Raise (ValueError ve)) => let '(l', r) := handler ve in (l ++ l', r)
  | _ => m
  end.

(** ** class LSHProcessor *)

Record LSHProcessor : Type := {
  hash_size : Z;
  bands : Z;
  rows : Z;
  hash_buckets_list : list (PyDict.t (list Z) (list string));
  signatures : PyDict.t string (list Z);
  labels : gmap string Z;
  label_counter : Z;
  similarity_scores : list (string * string * Q)
}.

Definition with_hash_buckets_list (self : LSHProcessor) x : LSHProcessor :=
  {| hash_size := hash_size self; bands := bands self; rows := rows self;
     hash_buckets_list := x; signatures := signatures self;
     labels := labels self; label_counter := label_counter self;
     similarity_scores := similarity_scores self |}.

Definition with_signatures (self : LSHProcessor) x : LSHProcessor :=
  {| hash_size := hash_size self; bands := bands self; rows := rows self;
     hash_buckets_list := hash_buckets_list self; signatures := x;
     labels := labels self; label_counter := label_counter self;
     similarity_scores := similarity_scores self |}.

Definition with_labels (self : LSHProcessor) x : LSHProcessor :=
  {| hash_size := hash_size self; bands := bands self; rows := rows self;
     hash_buckets_list := hash_buckets_list self; signatures := signatures self;
     labels := x; label_counter := label_counter self;
     similarity_scores := similarity_scores self |}.

Definition with_label_counter (self : LSHProcessor) x : LSHProcessor :=
  {| hash_size := hash_size self; bands := bands self; rows := rows self;
     hash_buckets_list := hash_buckets_list self; signatures := signatures self;
     labels := labels self; label_counter := x;
     similarity_scores := similarity_scores self |}.

Definition with_similarity_scores (self : LSHProcessor) x : LSHProcessor :=
  {| hash_size := hash_size self; bands := bands self; rows := rows self;
     hash_buckets_list := hash_buckets_list self; signatures := signatures self;
     labels := labels self; label_counter := label_counter self;
     similarity_scores := x |}.

(** [LSHProcessor(hash_size, bands)]: [//] by zero raises. *)
Definition __init__ (hash_size bands : Z) : M LSHProcessor :=
  if decide (bands = 0) then raise ZeroDivisionError
  else ret {| hash_size := hash_size;
              bands := bands;
              rows := hash_size ^ 2 `div` bands;
              hash_buckets_list := (fun _ => PyDict.empty) <$> seqZ 0 bands;
              signatures := PyDict.empty;
              labels := ∅;
              label_counter := 0;
              similarity_scores := [] |}.

(** The three statements on the bucket map of one band:
    [if key not in d: d[key] = []] and [d[key].append(file_path)]. *)
Definition bucket_append (key : list Z) (file_path : string)
    (d : PyDict.t (list Z) (list string)) : M (PyDict.t (list Z) (list string)) :=
  let d1 := if PyDict.mem key d then d else PyDict.set key [] d in
  match PyDict.get key d1 with
  | Some matched => ret (PyDict.set key (matched ++ [file_path]) d1)
  | None => raise KeyError
  end.

(** The body of the loop over [range(self.bands)]. *)
Definition add_band (file_path : string) (signature : list bool)
    (self : LSHProcessor) (i : Z) : M LSHProcessor :=
  let signature_band := py_slice signature (i * rows self) ((i + 1) * rows self) in
  let signature_band_bytes := np.tobytes signature_band in
  match hash_buckets_list self !! Z.to_nat i with
  | None => raise IndexError
  | Some d =>
      d' <- bucket_append signature_band_bytes file_path d ;;
      ret (with_hash_buckets_list self
             (<[Z.to_nat i := d']> (hash_buckets_list self)))
  end.

Definition add_signature (self : LSHProcessor) (file_path : string)
    (signature : option (list bool)) : M LSHProcessor :=
  match signature with
  | None => ret self
  | Some signature =>
      let self :=
        with_signatures self
          (PyDict.set file_path (np.packbits signature) (signatures self)) in
      foldM (add_band file_path signature) (seqZ 0 (bands self)) self
  end.

(** [calculate_similarity]: a missing key is caught, logged and scored
    0.0; a shape mismatch and a division by zero are not caught. *)
Definition calculate_similarity (self : LSHProcessor) (pair : string * string)
    : M (string * string * Q) :=
  let '(img_a, img_b) := pair in
  match PyDict.get img_a (signatures self), PyDict.get img_b (signatures self) with
  | Some sig_a, Some sig_b =>
      match np.not_equal (np.unpackbits sig_a) (np.unpackbits sig_b) with
      | None => raise (ValueError ShapeMismatch)
      | Some differing =>
          let hd := np.count_nonzero differing in
          if decide (hash_size self ^ 2 = 0) then raise ZeroDivisionError
          else ret (img_a, img_b,
                    (inject_Z (hash_size self ^ 2 - hd)
                     / inject_Z (hash_size self ^ 2))%Q)
      end
  | _, _ =>
      _ <- logging_error (SignaturesNotFound pair) ;;
      ret (img_a, img_b, 0%Q)
  end.

(** The body of the innermost loop of [process_similarities], for one
    consecutive pair of a bucket. *)
Definition link_pair (threshold : Q) (collect_scores : bool)
    (self : LSHProcessor) (pair : string * string) : M LSHProcessor :=
  scored <- calculate_similarity self pair ;;
  let '(img_a, img_b, similarity) := scored in
  if Qle_bool threshold similarity then
    let self :=
      match labels self !! img_a with
      | None =>
          with_label_counter
            (with_labels self (<[img_a := label_counter self]> (labels self)))
            (label_counter self + 1)
      | Some _ => self
      end in
    self <- match labels self !! img_b with
            | None =>
                match labels self !! img_a with
                | Some label_a =>
                    ret (with_labels self (<[img_b := label_a]> (labels self)))
                | None => raise KeyError
                end
            | Some _ => ret self
            end ;;
    ret (if collect_scores
         then with_similarity_scores self
                (similarity_scores self ++ [(img_a, img_b, similarity)])
         else self)
  else ret self.

(** One bucket: the consecutive pairs of [matched_imgs]. *)
Definition walk_bucket (threshold : Q) (collect_scores : bool)
    (self : LSHProcessor) (matched_imgs : list string) : M LSHProcessor :=
  if decide (1 < length matched_imgs)%nat
  then foldM (link_pair threshold collect_scores)
             (zip matched_imgs (drop 1 matched_imgs)) self
  else ret self.

(** One band: its buckets in insertion order. *)
Definition walk_band (threshold : Q) (collect_scores : bool)
    (self : LSHProcessor) (hash_buckets : PyDict.t (list Z) (list string))
    : M LSHProcessor :=
  foldM (walk_bucket threshold collect_scores) (PyDict.values hash_buckets) self.

Definition process_similarities (threshold : Q) (collect_scores : bool)
    (self : LSHProcessor) : M LSHProcessor :=
  foldM (walk_band threshold collect_scores) (hash_buckets_list self) self.

(** The body of the loop of [_assign_labels_remaining_images]. *)
Definition label_remaining (self : LSHProcessor) (file_path : string) : LSHProcessor :=
  match labels self !! file_path with
  | None =>
      with_label_counter
        (with_labels self (<[file_path := label_counter self]> (labels self)))
        (label_counter self + 1)
  | Some _ => self
  end.

Definition _assign_labels_remaining_images (self : LSHProcessor) : LSHProcessor :=
  fold_left label_remaining (PyDict.keys (signatures self)) self.

(** [assign_labels] returns [self.labels]; the updated object comes with it. *)
Definition assign_labels (threshold : Q) (self : LSHProcessor)
    : M (LSHProcessor * gmap string Z) :=
  self <- process_similarities threshold false self ;;
  let self := _assign_labels_remaining_images self in
  ret (self, labels self).

Definition get_similarity_scores (threshold : Q) (self : LSHProcessor)
    : M (LSHProcessor * list (string * string * Q)) :=
  self <- process_similarities threshold true self ;;
  ret (self, similarity_scores self).

(** ** Helper functions *)

(** [str.lower] on the ASCII letters. The extensions tested below are
    ASCII and no other character lower-cases to one of their letters. *)
Definition lower_ascii (c : ascii) : ascii :=
  let n := nat_of_ascii c in
  if decide (65 <= n <= 90)%nat then ascii_of_nat (n + 32) else c.

Fixpoint lower (s : string) : string :=
  match s with
  | EmptyString => EmptyString
  | String c s' => String (lower_ascii c) (lower s')
  end.

Definition endswith (s suffix : string) : bool :=
  bool_decide (list_ascii_of_string suffix `suffix_of` list_ascii_of_string s).

Definition image_extensions : list string := [".png"; ".jpg"; ".jpeg"]%string.

(** [os.path.join(a, p)] on a POSIX system. *)
Definition os_path_join (a p : string) : string :=
  if String.prefix "/" p then p
  else if decide (a = ""%string) then p
  else if endswith a "/" then (a +:+ p)%string
  else (a +:+ "/" +:+ p)%string.

Section pipeline.
(** [os.listdir]: the names in a directory, [None] when it raises
    [FileNotFoundError]. Its other errors ([NotADirectoryError],
    [PermissionError]) are caught by no handler of the program and are
    not part of this type: what is proved of [get_image_files] and
    [find_duplicates] is proved under a hypothesis that says how the
    listing ended. *)
Variable listdir : string -> option (list string).
(** [ImageProcessor(hash_size).calculate_signature(file_path)], of the
    module [ImageProcessor]: a flat array of bits, or [None]. The module
    is not part of the sources: its constructor, which [find_duplicates]
    calls before its [try], and this method are taken to return. *)
Variable calculate_signature : Z -> string -> option (list bool).

Definition get_image_files (input_dir : string) : M (list string) :=
  match listdir input_dir with
  | Some names =>
      ret (os_path_join input_dir <$>
             filter (fun f => existsb (endswith (lower f)) image_extensions = true)
                    names)
  | None =>
      _ <- logging_error (DirectoryNotFound input_dir) ;;
      raise (ValueError (DirectoryDoesNotExist input_dir))
  end.

Definition process_images (hash_size bands : Z) (file_list : list string)
    : M LSHProcessor :=
  lsh_processor <- __init__ hash_size bands ;;
  foldM (fun lsh file_path =>
           add_signature lsh file_path (calculate_signature hash_size file_path))
        file_list lsh_processor.

(** The [labels] returned are the dictionary object of the processor,
    so they are read after [get_similarity_scores] has run. *)
Definition find_duplicates (input_dir : string) (threshold : Q)
    (hash_size bands : Z) (gen_socres : bool)
    : M (gmap string Z * list (string * string * Q)) :=
  except_ValueError
    (file_list <- get_image_files input_dir ;;
     _ <- (if decide (file_list = [])
           then raise (ValueError (NoValidImages input_dir))
           else ret tt) ;;
     lsh_processor <- process_images hash_size bands file_list ;;
     labelled <- assign_labels threshold lsh_processor ;;
     let lsh_processor := labelled.1 in
     if gen_socres then
       scored <- get_similarity_scores threshold lsh_processor ;;
       let '(lsh_processor, similarity_scores) := scored in
       ret (labels lsh_processor, similarity_scores)
     else ret (labels lsh_processor, []))
    (fun ve => _ <- logging_error (ErrorMessage ve) ;; ret (∅, [])).
End pipeline.

(** ** Notions used to state the properties *)

(** The hamming distance of two bit vectors: the number of positions at
    which they differ. *)
Definition hamming (x y : list bool) : Z :=
  np.count_nonzero (zip_with xorb x y).

(** A sequence of [add_signature] calls on one processor. *)
Definition add_all (adds : list (string * option (list bool)))
    (self : LSHProcessor) : M LSHProcessor :=
  foldM (fun lsh add => add_signature lsh add.1 add.2) adds self.

(** A fresh processor filled by the calls [adds]. *)
Definition filled (hash_size bands : Z)
    (adds : list (string * option (list bool))) : M LSHProcessor :=
  lsh_processor <- __init__ hash_size bands ;;
  add_all adds lsh_processor.

(** A whole run: construction, the insertions, then [assign_labels]. *)
Definition labeling_run (hash_size bands : Z) (threshold : Q)
    (adds : list (string * option (list bool))) : M (LSHProcessor * gmap string Z) :=
  lsh_processor <- filled hash_size bands adds ;;
  assign_labels threshold lsh_processor.

(** The bucket key [add_signature] computes for band [i]. *)
Definition band_key (rows : Z) (signature : list bool) (i : Z) : list Z :=
  np.tobytes (py_slice signature (i * rows) ((i + 1) * rows)).

(** The net effect of the bucket statements on one bucket map. *)
Definition bucket_put (key : list Z) (file_path : string)
    (d : PyDict.t (list Z) (list string)) : PyDict.t (list Z) (list string) :=
  PyDict.set key (default [] (PyDict.get key d) ++ [file_path]) d.

(** The processor has one bucket map per band, as [__init__] makes it. *)
Definition buckets_ok (self : LSHProcessor) : Prop :=
  length (hash_buckets_list self) = Z.to_nat (bands self).

(** The ids that a sequence of calls inserts: those given a signature. *)
Definition inserted (adds : list (string * option (list bool))) : list string :=
  (filter (fun add => is_Some add.2) adds).*1.

(** Every signature given has the length [hash_size ^ 2]. *)
Definition valid_adds (hash_size : Z)
    (adds : list (string * option (list bool))) : Prop :=
  forall id s, (id, Some s) ∈ adds -> Z.of_nat (length s) = hash_size ^ 2.

(** Every stored entry is the packed form of a signature of length
    [hash_size ^ 2], and [hash_size] is not zero. *)
Definition store_valid (self : LSHProcessor) : Prop :=
  hash_size self ^ 2 <> 0 /\
  forall id p, PyDict.get id (signatures self) = Some p ->
    exists s, p = np.packbits s /\ Z.of_nat (length s) = hash_size self ^ 2.

(** What the labeling never touches. *)
Definition same_store (s s' : LSHProcessor) : Prop :=
  hash_size s' = hash_size s /\ bands s' = bands s /\ rows s' = rows s /\
  hash_buckets_list s' = hash_buckets_list s /\ signatures s' = signatures s.

(** Every label in use was drawn from the counter. *)
Definition labels_below_counter (s : LSHProcessor) : Prop :=
  forall id l, labels s !! id = Some l -> l < label_counter s.

(** [s'] is [s] with more ids labelled. *)
Definition extends (s s' : LSHProcessor) : Prop :=
  same_store s s' /\ labels s ⊆ labels s' /\
  label_counter s <= label_counter s' /\
  (labels_below_counter s -> labels_below_counter s').

(** One atomic step of the labeling: the body of the pair loop of
    [process_similarities], or the body of the loop of
    [_assign_labels_remaining_images]. *)
Inductive label_step (threshold : Q) (collect_scores : bool)
    : relation LSHProcessor :=
  | step_link s pair lg s' :
      link_pair threshold collect_scores s pair = (lg, Ok s') ->
      label_step threshold collect_scores s s'
  | step_remaining s file_path :
      label_step threshold collect_scores s (label_remaining s file_path).

(** The step from [s] to [s'] draws the fresh label [l]: [l] is the value
    of the counter, the counter moves past it, and an id that had no label
    carries it afterwards. *)
Definition draws (s s' : LSHProcessor) (l : Z) : Prop :=
  l = label_counter s /\ label_counter s' = l + 1 /\
  exists id, labels s !! id = None /\ labels s' !! id = Some l.

(** Two label mappings group the same ids together. *)
Definition same_grouping (l1 l2 : gmap string Z) : Prop :=
  (forall id, is_Some (l1 !! id) <-> is_Some (l2 !! id)) /\
  (forall id id', is_Some (l1 !! id) -> is_Some (l1 !! id') ->
     (l1 !! id = l1 !! id' <-> l2 !! id = l2 !! id')).

(** The bucket maps after the bands below [j] have been visited. *)
Definition put_bands (rows : Z) (signature : list bool) (file_path : string)
    (j : nat) (bl : list (PyDict.t (list Z) (list string))) :=
  imap (fun k d =>
          if decide (k < j)%nat
          then bucket_put (band_key rows signature (Z.of_nat k)) file_path d
          else d) bl.

(** The label mapping after a pair [(img_a, img_b)] that reached the
    threshold, from the mapping [L] and the counter [c] before it. *)
Definition link_labels (L : gmap string Z) (c : Z) (img_a img_b : string)
    : gmap string Z :=
  let L1 := match L !! img_a with None => <[img_a := c]> L | Some _ => L end in
  match L1 !! img_b, L1 !! img_a with
  | None, Some label_a => <[img_b := label_a]> L1
  | _, _ => L1
  end.

(** What holds of a fresh processor filled by insertions of the ids
    [ids]: the configuration is the one given, nothing is labelled, the
    store holds exactly [ids], and in every band the buckets together hold
    each inserted id once per insertion. *)
Definition fill_inv (hs b : Z) (ids : list string) (s : LSHProcessor) : Prop :=
  hash_size s = hs /\ bands s = b /\ rows s = hs ^ 2 `div` b /\
  buckets_ok s /\ labels s = ∅ /\ label_counter s = 0 /\
  (forall id, id ∈ PyDict.keys (signatures s) <-> id ∈ ids) /\
  (forall d, d ∈ hash_buckets_list s -> concat (PyDict.values d) ≡ₚ ids).

(** Every stored entry is the packed form of a signature of [n] bits. *)
Definition entries_valid (n : Z) (s : LSHProcessor) : Prop :=
  forall id p, PyDict.get id (signatures s) = Some p ->
    exists x, p = np.packbits x /\ Z.of_nat (length x) = n.

(** The ids labelled are among [ids]. *)
Definition labelled_within (ids : list string) (s : LSHProcessor) : Prop :=
  forall id, is_Some (labels s !! id) -> id ∈ ids.

(** Three images with 4-bit signatures, for [hash_size = 2] and two bands
    of two bits: in band 0 the buckets are [A] and [B; C], in band 1 they
    are [A; B] and [C]. *)
Definition three_images : list (string * option (list bool)) :=
  [("A"%string, Some [false; false; false; false]);
   ("B"%string, Some [false; true; false; false]);
   ("C"%string, Some [false; true; false; true])].

(** A processor holding three images, with [hash_size = 2] and two bands:
    band 0 has the buckets [A; C] and [B], band 1 has [A; B] and [C]. *)
Definition two_band_processor : LSHProcessor :=
  {| hash_size := 2; bands := 2; rows := 2;
     hash_buckets_list :=
       [[([0; 0], ["A"; "C"]); ([0; 1], ["B"])];
        [([0; 0], ["A"; "B"]); ([0; 1], ["C"])]]%string;
     signatures := [("A", [0]); ("B", [64]); ("C", [16])]%string;
     labels := ∅; label_counter := 0; similarity_scores := [] |}.

(** The test [get_image_files] applies to a file name. *)
Definition is_image_file (f : string) : Prop :=
  existsb (endswith (lower f)) image_extensions = true.

(** The bucket map of a band in which every insertion got the empty key. *)
Definition one_bucket (ids : list string) : PyDict.t (list Z) (list string) :=
  match ids with
  | [] => []
  | _ => [([], ids)]
  end.

(** A processor whose only bucket, [A; D], names an id, D, that has no
    stored signature. *)
Definition processor_missing_D : LSHProcessor :=
  {| hash_size := 2; bands := 1; rows := 4;
     hash_buckets_list := [[([0; 0; 0; 0], ["A"; "D"])]]%string;
     signatures := [("A", [0])]%string;
     labels := ∅; label_counter := 0; similarity_scores := [] |}.

(** A file system without any directory, and an image processor that
    decodes nothing. *)
Definition no_directory (input_dir : string) : option (list string) := None.
Definition no_signature (hash_size : Z) (file_path : string)
    : option (list bool) := None.

(** ** Notions for the further properties *)

(** The labels in use are exactly the values the counter has passed. *)
Definition labels_dense (s : LSHProcessor) : Prop :=
  0 <= label_counter s /\
  forall l, (exists id, labels s !! id = Some l) <-> 0 <= l < label_counter s.

(** [(a, b)] is a consecutive pair of some bucket of some band. *)
Definition candidate (self : LSHProcessor) (a b : string) : Prop :=
  exists d m, d ∈ hash_buckets_list self /\ m ∈ PyDict.values d /\
              (a, b) ∈ zip m (drop 1 m).

(** The scorer returns for [(a, b)] and its score reaches the threshold. *)
Definition passes (threshold : Q) (self : LSHProcessor) (a b : string) : Prop :=
  exists lg q, calculate_similarity self (a, b) = (lg, Ok (a, b, q)) /\
               Qle_bool threshold q = true.

(** [a] and [b] are bucket neighbours that score at least the threshold. *)
Definition linked (threshold : Q) (self : LSHProcessor) (a b : string) : Prop :=
  candidate self a b /\ passes threshold self a b.

(** The consecutive pairs of all buckets, in the order
    [process_similarities] visits them. *)
Definition candidate_pairs (self : LSHProcessor) : list (string * string) :=
  hash_buckets_list self ≫= fun d =>
  PyDict.values d ≫= fun m => zip m (drop 1 m).

(** The score triple of a pair, when the scorer returns and the score
    reaches the threshold. *)
Definition passing_score (threshold : Q) (self : LSHProcessor)
    (pair : string * string) : option (string * string * Q) :=
  match calculate_similarity self pair with
  | (_, Ok (a, b, q)) => if Qle_bool threshold q then Some (a, b, q) else None
  | (_, Raise _) => None
  end.

(** The ids inserted with a signature whose key in band [i] is [key], in
    insertion order. *)
Definition band_bucket (rows : Z) (i : nat) (key : list Z)
    (adds : list (string * option (list bool))) : list string :=
  (filter (fun add => (fun s => band_key rows s (Z.of_nat i)) <$> add.2 = Some key)
          adds).*1.

(** The signature given by the last call for [id], if any. *)
Definition last_signature (id : string)
    (adds : list (string * option (list bool))) : option (list bool) :=
  last (omap (fun add => if decide (add.1 = id) then add.2 else None) adds).

(** Any two ids with one label are connected by links. *)
Definition classes_linked (thr : Q) (self s : LSHProcessor) : Prop :=
  forall x y l, labels s !! x = Some l -> labels s !! y = Some l ->
    rtsc (linked thr self) x y.

(** The bucket map of band [i] holds, under each key, the ids inserted
    with that key, in insertion order, and no empty bucket. *)
Definition band_spec (rows : Z) (adds : list (string * option (list bool)))
    (bl : list (PyDict.t (list Z) (list string))) : Prop :=
  forall i d key, bl !! i = Some d ->
    PyDict.get key d
    = if decide (band_bucket rows i key adds = []) then None
      else Some (band_bucket rows i key adds).

(** The paths [get_image_files] returns for the directory listing
    [names]. *)
Definition image_paths (input_dir : string) (names : list string) : list string :=
  os_path_join input_dir <$>
    filter (fun f => existsb (endswith (lower f)) image_extensions = true) names.

(** The insertions [process_images] makes for a list of files. *)
Definition file_adds (calculate_signature : Z -> string -> option (list bool))
    (hash_size : Z) (file_list : list string)
    : list (string * option (list bool)) :=
  (fun f => (f, calculate_signature hash_size f)) <$> file_list.

(** A directory with two image files and a text file, and an image
    processor whose signatures have four bits and which cannot decode
    one file. *)
Definition image_directory (input_dir : string) : option (list string) :=
  Some ["a.PNG"; "notes.txt"; "b.jpg"; "c.jpeg"]%string.
Definition four_bit_signature (hash_size : Z) (file_path : string)
    : option (list bool) :=
  if decide (file_path = "data/a.PNG"%string) then Some [true; false; true; true]
  else if decide (file_path = "data/c.jpeg"%string) then None
  else Some [true; false; true; false].

(** Two computations end alike: they log the same records, and both
    raise the same exception or both return, with results related by [R]. *)
Definition alike {A} (R : A -> A -> Prop) (m m' : M A) : Prop :=
  match m, m' with
  | (lg, Ok a), (lg', Ok a') => lg' = lg /\ R a a'
  | (lg, Raise e), (lg', Raise e') => lg' = lg /\ e' = e
  | _, _ => False
  end.

(** [s'] holds the insertions of [s], and its labels and its counter are
    those of [s] moved up by [k]. *)
Definition relabelled (k : Z) (s s' : LSHProcessor) : Prop :=
  same_store s s' /\
  labels s' = (fun l => l + k) <$> labels s /\
  label_counter s' = label_counter s + k.
(** * Properties *)

(** ** The monad *)

Lemma bind_ret_l {A B} (a : A) (k : A -> M B) : bind (ret a) k = k a.
Proof. unfold bind, ret. by destruct (k a). Qed.

Lemma bind_assoc {A B C} (m : M A) (k : A -> M B) (h : B -> M C) :
  bind (bind m k) h = bind m (fun a => bind (k a) h).
Proof.
  destruct m as [l [a|e]]; simpl; [|done].
  destruct (k a) as [l1 [b|e]]; simpl; [|done].
  destruct (h b) as [l2 r]. by rewrite app_assoc.
Qed.

Lemma bind_Ok {A B} (m : M A) (k : A -> M B) lg b :
  bind m k = (lg, Ok b) ->
  exists l1 a l2, m = (l1, Ok a) /\ k a = (l2, Ok b) /\ lg = l1 ++ l2.
Proof.
  destruct m as [l1 [a|e]]; simpl; [|done].
  destruct (k a) as [l2 r] eqn:Hk. intros [= <- ->]. eauto 6.
Qed.

Lemma bind_intro {A B} (m : M A) (k : A -> M B) l1 a l2 r :
  m = (l1, Ok a) -> k a = (l2, r) -> bind m k = (l1 ++ l2, r).
Proof. intros -> Hk. simpl. by rewrite Hk. Qed.

Lemma foldM_cons {S A} (body : S -> A -> M S) x l s :
  foldM body (x :: l) s = bind (body s x) (foldM body l).
Proof. done. Qed.

Lemma foldM_app {S A} (body : S -> A -> M S) l1 l2 s :
  foldM body (l1 ++ l2) s = bind (foldM body l1 s) (foldM body l2).
Proof.
  revert s. induction l1 as [|x l1 IH]; intros s.
  - symmetry. apply bind_ret_l.
  - change (foldM body ((x :: l1) ++ l2) s)
      with (bind (body s x) (foldM body (l1 ++ l2))).
    change (foldM body (x :: l1) s) with (bind (body s x) (foldM body l1)).
    rewrite bind_assoc. destruct (body s x) as [l [s'|e]]; simpl; [|done].
    by rewrite IH.
Qed.

Lemma foldM_fmap {S A B} (f : A -> B) (body : S -> B -> M S) l s :
  foldM body (f <$> l) s = foldM (fun s x => body s (f x)) l s.
Proof.
  revert s. induction l as [|x l IH]; intros s; [done|].
  rewrite fmap_cons, !foldM_cons.
  destruct (body s (f x)) as [lg [s'|e]]; simpl; [|done]. by rewrite IH.
Qed.

(** ** Packing and unpacking bits *)

Lemma bits_of_byte_of_bits b0 b1 b2 b3 b4 b5 b6 b7 :
  np.bits_of_byte (np.byte_of_bits [b0; b1; b2; b3; b4; b5; b6; b7])
  = [b0; b1; b2; b3; b4; b5; b6; b7].
Proof.
  by destruct b0, b1, b2, b3, b4, b5, b6, b7.
Qed.

(** Induction on a bit vector by groups of eight. *)
Lemma bits_ind8 (P : list bool -> Prop) :
  P [] ->
  (forall a, (0 < length a < 8)%nat -> P a) ->
  (forall b0 b1 b2 b3 b4 b5 b6 b7 rest,
      P rest -> P (b0 :: b1 :: b2 :: b3 :: b4 :: b5 :: b6 :: b7 :: rest)) ->
  forall a, P a.
Proof.
  intros Hnil Hshort Hcons a.
  remember (length a) as n eqn:Hn. revert a Hn.
  induction n as [n IH] using lt_wf_ind. intros a Hn.
  destruct a as [|b0 [|b1 [|b2 [|b3 [|b4 [|b5 [|b6 [|b7 rest]]]]]]]];
    try done; try (apply Hshort; simpl; lia).
  apply Hcons. eapply IH; [|done]. simpl in Hn. lia.
Qed.

Lemma padding_short (n : nat) : (0 < n < 8)%nat -> np.padding n = (8 - n)%nat.
Proof.
  intros Hn. unfold np.padding.
  rewrite (Nat.mod_small n 8) by lia. apply Nat.mod_small. lia.
Qed.

Lemma padding_add8 (n : nat) : np.padding (8 + n) = np.padding n.
Proof.
  unfold np.padding. f_equal. f_equal.
  replace (8 + n)%nat with (n + 1 * 8)%nat by lia. apply Nat.Div0.mod_add.
Qed.

Lemma packbits_short a :
  (0 < length a < 8)%nat -> np.packbits a = [np.byte_of_bits (np.pad8 a)].
Proof.
  intros Ha.
  destruct a as [|b0 [|b1 [|b2 [|b3 [|b4 [|b5 [|b6 [|b7 rest]]]]]]]];
    try done; simpl in Ha; lia.
Qed.

Lemma unpack_pad8 a :
  (0 < length a < 8)%nat ->
  np.bits_of_byte (np.byte_of_bits (np.pad8 a)) = np.pad8 a.
Proof.
  intros Ha.
  destruct a as [|b0 [|b1 [|b2 [|b3 [|b4 [|b5 [|b6 [|b7 rest]]]]]]]];
    try (simpl in Ha; lia); apply bits_of_byte_of_bits.
Qed.

(** Unpacking a packed vector gives it back with its zero padding. *)
Lemma unpackbits_packbits a :
  np.unpackbits (np.packbits a) = a ++ replicate (np.padding (length a)) false.
Proof.
  induction a as [|a Ha|b0 b1 b2 b3 b4 b5 b6 b7 rest IH] using bits_ind8.
  - done.
  - rewrite packbits_short by done. unfold np.unpackbits.
    rewrite bind_cons. change (@nil Z ≫= np.bits_of_byte) with (@nil bool).
    rewrite app_nil_r, unpack_pad8, padding_short by done.
    done.
  - change (np.packbits (b0 :: b1 :: b2 :: b3 :: b4 :: b5 :: b6 :: b7 :: rest))
      with (np.byte_of_bits [b0; b1; b2; b3; b4; b5; b6; b7] :: np.packbits rest).
    unfold np.unpackbits in *. rewrite bind_cons, IH, bits_of_byte_of_bits.
    change (length (b0 :: b1 :: b2 :: b3 :: b4 :: b5 :: b6 :: b7 :: rest))
      with (8 + length rest)%nat.
    by rewrite padding_add8.
Qed.

Lemma padding_0_iff (n : nat) : np.padding n = 0%nat <-> (n mod 8 = 0)%nat.
Proof.
  unfold np.padding. pose proof (Nat.mod_upper_bound n 8 ltac:(lia)) as Hn.
  destruct (decide (n mod 8 = 0)%nat) as [->|Hne]; [done|].
  rewrite Nat.mod_small by lia. lia.
Qed.

(** ** Hamming distance *)

Lemma count_nonzero_app x y :
  np.count_nonzero (x ++ y) = np.count_nonzero x + np.count_nonzero y.
Proof. unfold np.count_nonzero. rewrite filter_app, length_app. lia. Qed.

Lemma count_nonzero_zeros n : np.count_nonzero (replicate n false) = 0.
Proof. induction n as [|n IH]; [done|]. apply IH. Qed.

Lemma count_nonzero_bounds a : 0 <= np.count_nonzero a <= Z.of_nat (length a).
Proof.
  unfold np.count_nonzero. pose proof (length_filter (fun b => b = true) a). lia.
Qed.

Lemma zip_xorb_zeros n :
  zip_with xorb (replicate n false) (replicate n false) = replicate n false.
Proof. induction n as [|n IH]; [done|]. simpl. by rewrite IH. Qed.

Lemma hamming_bounds x y :
  0 <= hamming x y <= Z.of_nat (length x).
Proof.
  unfold hamming. pose proof (count_nonzero_bounds (zip_with xorb x y)) as H.
  rewrite length_zip_with in H. lia.
Qed.

Lemma hamming_refl x : hamming x x = 0.
Proof.
  unfold hamming, np.count_nonzero. induction x as [|b x IH]; [done|].
  simpl. rewrite xorb_nilpotent. rewrite filter_cons_False by done. apply IH.
Qed.

Lemma hamming_0_eq x y :
  length x = length y -> hamming x y = 0 -> x = y.
Proof.
  unfold hamming, np.count_nonzero. revert y.
  induction x as [|b x IH]; intros [|c y] Hlen H0; try done.
  cbn [zip_with] in H0. destruct (decide (xorb b c = true)) as [Hbc|Hbc].
  - rewrite filter_cons_True, length_cons in H0 by done. lia.
  - rewrite filter_cons_False in H0 by done.
    f_equal; [by destruct b, c|]. apply IH; [by injection Hlen|done].
Qed.

(** The distance computed on the stored, packed forms is the hamming
    distance of the signatures. *)
Lemma not_equal_packed x y :
  length x = length y ->
  np.not_equal (np.unpackbits (np.packbits x)) (np.unpackbits (np.packbits y))
  = Some (zip_with xorb x y ++ replicate (np.padding (length x)) false).
Proof.
  intros Hlen. rewrite !unpackbits_packbits. unfold np.not_equal.
  rewrite decide_True by (by rewrite !length_app, !length_replicate, Hlen).
  rewrite <- Hlen, zip_with_app by done. by rewrite zip_xorb_zeros.
Qed.

Lemma packbits_inj x y :
  length x = length y -> np.packbits x = np.packbits y -> x = y.
Proof.
  intros Hlen Hp. apply (f_equal np.unpackbits) in Hp.
  rewrite !unpackbits_packbits, <- Hlen in Hp.
  by apply app_inj_1 in Hp as [? _].
Qed.

(** ** Dictionaries *)

Section dict_facts.
Context {K V : Type} `{EqDecision K}.
Implicit Types (d : PyDict.t K V) (k : K) (v : V).

Lemma get_set_eq k v d : PyDict.get k (PyDict.set k v d) = Some v.
Proof.
  induction d as [|[k' v'] d IH]; simpl.
  - by rewrite decide_True.
  - destruct (decide (k = k')) as [->|Hne]; simpl.
    + by rewrite decide_True.
    + by rewrite decide_False.
Qed.

Lemma get_set_ne k k' v d :
  k <> k' -> PyDict.get k' (PyDict.set k v d) = PyDict.get k' d.
Proof.
  intros Hne. induction d as [|[k0 v0] d IH]; simpl.
  - by rewrite decide_False.
  - destruct (decide (k = k0)) as [->|Hne0]; simpl.
    + by rewrite !decide_False.
    + by rewrite IH.
Qed.

Lemma set_set k v w d : PyDict.set k w (PyDict.set k v d) = PyDict.set k w d.
Proof.
  induction d as [|[k' v'] d IH]; simpl.
  - by rewrite decide_True.
  - destruct (decide (k = k')) as [->|Hne]; simpl.
    + by rewrite decide_True.
    + by rewrite decide_False, IH.
Qed.

Lemma elem_of_keys k d : k ∈ PyDict.keys d <-> is_Some (PyDict.get k d).
Proof.
  unfold PyDict.keys. induction d as [|[k' v'] d IH]; csimpl.
  - split; [by intros ?%elem_of_nil|by intros [? ?]].
  - rewrite elem_of_cons, IH. destruct (decide (k = k')) as [->|Hne].
    + split; eauto.
    + split; [by intros [?|?]|by right].
Qed.

Lemma values_set_new k v d :
  PyDict.get k d = None ->
  PyDict.values (PyDict.set k v d) = PyDict.values d ++ [v].
Proof.
  unfold PyDict.values. induction d as [|[k' v'] d IH]; csimpl; [done|].
  destruct (decide (k = k')) as [->|Hne]; [done|].
  intros Hd. csimpl. by rewrite IH.
Qed.

Lemma values_set_old k v w d :
  PyDict.get k d = Some w ->
  exists vs1 vs2,
    PyDict.values d = vs1 ++ w :: vs2 /\
    PyDict.values (PyDict.set k v d) = vs1 ++ v :: vs2.
Proof.
  unfold PyDict.values. induction d as [|[k' v'] d IH]; csimpl; [done|].
  destruct (decide (k = k')) as [->|Hne].
  - intros [= ->]. by exists [], (d.*2).
  - intros Hd. destruct (IH Hd) as (vs1 & vs2 & H1 & H2).
    exists (v' :: vs1), vs2. csimpl. by rewrite H1, H2.
Qed.
End dict_facts.

(** ** Construction and insertion *)

Lemma init_Ok hs b :
  b <> 0 ->
  exists self, __init__ hs b = ([], Ok self) /\
    hash_size self = hs /\ bands self = b /\ rows self = hs ^ 2 `div` b /\
    hash_buckets_list self = replicate (Z.to_nat b) PyDict.empty /\
    signatures self = PyDict.empty /\ labels self = ∅ /\ label_counter self = 0.
Proof.
  intros Hb. unfold __init__. rewrite decide_False by done.
  eexists. split; [done|]. repeat split; simpl.
  rewrite (const_fmap _ _ PyDict.empty) by done. by rewrite length_seqZ.
Qed.

Lemma bucket_append_ret key file_path d :
  bucket_append key file_path d = ret (bucket_put key file_path d).
Proof.
  unfold bucket_append, bucket_put, PyDict.mem.
  destruct (PyDict.get key d) as [matched|] eqn:Hget.
  - rewrite bool_decide_eq_true_2 by eauto. by rewrite Hget.
  - rewrite bool_decide_eq_false_2 by (by intros [? ?]).
    rewrite get_set_eq. simpl. by rewrite set_set.
Qed.

Lemma add_band_ret file_path signature self i d :
  hash_buckets_list self !! Z.to_nat i = Some d ->
  add_band file_path signature self i
  = ret (with_hash_buckets_list self
           (<[Z.to_nat i := bucket_put (band_key (rows self) signature i) file_path d]>
              (hash_buckets_list self))).
Proof.
  intros Hd. unfold add_band. rewrite Hd, bucket_append_ret. done.
Qed.

Lemma add_bands_ret file_path signature self (j : nat) :
  (j <= length (hash_buckets_list self))%nat ->
  foldM (add_band file_path signature) (seqZ 0 (Z.of_nat j)) self
  = ret (with_hash_buckets_list self
           (put_bands (rows self) signature file_path j (hash_buckets_list self))).
Proof.
  induction j as [|j IH]; intros Hj.
  - simpl. f_equal. destruct self; unfold with_hash_buckets_list; simpl.
    do 2 f_equal. unfold put_bands. symmetry. apply list_eq. intros i.
    rewrite list_lookup_imap. by destruct (_ !! i).
  - rewrite seqZ_S, foldM_app, IH by lia. rewrite bind_ret_l.
    simpl. rewrite Z.add_0_l.
    destruct (lookup_lt_is_Some_2 (hash_buckets_list self) j ltac:(lia)) as [d Hd].
    rewrite (add_band_ret _ _ _ _ d).
    2:{ simpl. rewrite Nat2Z.id. unfold put_bands. rewrite list_lookup_imap, Hd.
        simpl. by rewrite decide_False by lia. }
    rewrite bind_ret_l. unfold with_hash_buckets_list; simpl. do 3 f_equal.
    rewrite Nat2Z.id. unfold put_bands. apply list_eq. intros i.
    destruct (decide (i = j)) as [->|Hij].
    + rewrite list_lookup_insert_eq by (rewrite length_imap; lia).
      rewrite list_lookup_imap, Hd. simpl. by rewrite decide_True by lia.
    + rewrite list_lookup_insert_ne by done. rewrite !list_lookup_imap.
      destruct (_ !! i); simpl; [|done].
      destruct (decide (i < j)%nat), (decide (i < S j)%nat); try done; lia.
Qed.

(** What one insertion does, on a processor with its bucket maps. *)
Lemma add_signature_ret self file_path signature :
  buckets_ok self ->
  add_signature self file_path (Some signature)
  = ret (with_hash_buckets_list
           (with_signatures self
              (PyDict.set file_path (np.packbits signature) (signatures self)))
           (imap (fun k d =>
                    bucket_put (band_key (rows self) signature (Z.of_nat k)) file_path d)
                 (hash_buckets_list self))).
Proof.
  intros Hok. unfold add_signature, buckets_ok in *.
  destruct (decide (0 <= bands self)) as [Hb|Hb].
  - rewrite <- (Z2Nat.id (bands (with_signatures _ _))) by done.
    rewrite add_bands_ret by (simpl; lia). simpl. do 3 f_equal.
    unfold put_bands. apply imap_ext. intros k d Hk%lookup_lt_Some.
    simpl. by rewrite decide_True by lia.
  - simpl. rewrite seqZ_nil by lia. simpl.
    replace (Z.to_nat (bands self)) with 0%nat in Hok by lia.
    apply nil_length_inv in Hok. destruct self; simpl in *. by subst.
Qed.

Lemma add_all_Ok adds self :
  buckets_ok self ->
  exists self', add_all adds self = ([], Ok self') /\ buckets_ok self'.
Proof.
  revert self. induction adds as [|[id sig] adds IH]; intros self Hok.
  - by exists self.
  - unfold add_all. simpl.
    assert (exists s1, add_signature self id sig = ([], Ok s1) /\ buckets_ok s1)
      as (s1 & Hs1 & Hok1).
    { destruct sig as [s|].
      - rewrite add_signature_ret by done. eexists. split; [done|].
        unfold buckets_ok in *. simpl. by rewrite length_imap.
      - by exists self. }
    rewrite Hs1. destruct (IH s1 Hok1) as (s2 & Hs2 & Hok2).
    exists s2. unfold add_all in Hs2. simpl. by rewrite Hs2.
Qed.

(** ** Loops *)

Lemma foldM_preorder {S A} (R : relation S) `{!PreOrder R}
    (body : S -> A -> M S) l s lg s' :
  (forall s x lg s', x ∈ l -> body s x = (lg, Ok s') -> R s s') ->
  foldM body l s = (lg, Ok s') -> R s s'.
Proof.
  revert s lg. induction l as [|x l IH]; intros s lg Hbody; simpl.
  - by intros [= _ <-].
  - intros (l1 & s1 & l2 & H1 & H2 & _)%bind_Ok.
    transitivity s1.
    + eapply Hbody; [apply list_elem_of_here|done].
    + eapply IH; [|done]. intros ? ? ? ? ?. apply Hbody. by apply list_elem_of_further.
Qed.

Lemma foldM_total {S A} (P : S -> Prop) (body : S -> A -> M S) l s :
  (forall s x, P s -> exists lg s', body s x = (lg, Ok s') /\ P s') ->
  P s -> exists lg s', foldM body l s = (lg, Ok s') /\ P s'.
Proof.
  intros Hbody. revert s. induction l as [|x l IH]; intros s Hs; simpl.
  - by exists [], s.
  - destruct (Hbody s x Hs) as (l1 & s1 & H1 & Hs1).
    destruct (IH s1 Hs1) as (l2 & s2 & H2 & Hs2).
    exists (l1 ++ l2), s2. by rewrite H1; simpl; rewrite H2.
Qed.

(** ** The scorer *)

Lemma calculate_similarity_missing self img_a img_b :
  PyDict.get img_a (signatures self) = None \/
  PyDict.get img_b (signatures self) = None ->
  calculate_similarity self (img_a, img_b)
  = ([SignaturesNotFound (img_a, img_b)], Ok (img_a, img_b, 0%Q)).
Proof.
  unfold calculate_similarity.
  intros [-> | ->]; [done|]. by destruct (PyDict.get img_a (signatures self)).
Qed.

Lemma calculate_similarity_stored self img_a img_b x y :
  hash_size self ^ 2 <> 0 ->
  PyDict.get img_a (signatures self) = Some (np.packbits x) ->
  PyDict.get img_b (signatures self) = Some (np.packbits y) ->
  length x = length y ->
  calculate_similarity self (img_a, img_b)
  = ([], Ok (img_a, img_b,
             (inject_Z (hash_size self ^ 2 - hamming x y)
              / inject_Z (hash_size self ^ 2))%Q)).
Proof.
  intros Hhs Ha Hb Hlen. unfold calculate_similarity.
  rewrite Ha, Hb, not_equal_packed by done. rewrite decide_False by done.
  rewrite count_nonzero_app, count_nonzero_zeros, Z.add_0_r. done.
Qed.

Lemma calculate_similarity_Ok_inv self img_a img_b lg r :
  calculate_similarity self (img_a, img_b) = (lg, Ok r) ->
  exists q, r = (img_a, img_b, q).
Proof.
  unfold calculate_similarity.
  destruct (PyDict.get img_a (signatures self)),
    (PyDict.get img_b (signatures self));
    try (intros [= _ <-]; by eexists).
  destruct (np.not_equal _ _); [|done].
  destruct (decide _); [done|]. intros [= _ <-]. by eexists.
Qed.

(** The quotient of the scorer, in [0, 1] when the distance is at most
    the number of bits. *)
Lemma score_bounds (n hd : Z) :
  0 < n -> 0 <= hd <= n ->
  (0 <= inject_Z (n - hd) / inject_Z n)%Q /\
  (inject_Z (n - hd) / inject_Z n <= 1)%Q.
Proof.
  intros Hn Hhd.
  assert (0 < inject_Z n)%Q as Hpos by (rewrite <- (Zlt_Qlt 0); lia).
  split.
  - apply Qle_shift_div_l; [done|]. rewrite Qmult_0_l.
    rewrite <- (Zle_Qle 0). lia.
  - apply Qle_shift_div_r; [done|]. rewrite Qmult_1_l.
    rewrite <- Zle_Qle. lia.
Qed.

Lemma score_1_iff (n hd : Z) :
  n <> 0 -> (inject_Z (n - hd) / inject_Z n == 1)%Q <-> hd = 0.
Proof.
  intros Hn.
  assert (~ inject_Z n == 0)%Q as Hne.
  { change 0%Q with (inject_Z 0). rewrite inject_Z_injective. done. }
  split.
  - intros H. apply (Qmult_inj_r _ _ (inject_Z n)) in H; [|done].
    rewrite Qmult_1_l in H.
    rewrite Qmult_comm, Qmult_div_r in H by done.
    apply -> inject_Z_injective in H. lia.
  - intros ->. rewrite Z.sub_0_r. by apply Qmult_inv_r.
Qed.
(** ** One pair *)

Lemma link_labels_subseteq L c a b : L ⊆ link_labels L c a b.
Proof.
  unfold link_labels. apply map_subseteq_spec. intros k v Hk.
  destruct (L !! a) as [la|] eqn:Ha.
  - rewrite Ha. destruct (L !! b) as [lb|] eqn:Hb; [done|].
    rewrite lookup_insert_ne; [done|congruence].
  - rewrite lookup_insert_eq.
    destruct (<[a:=c]> L !! b) as [lb|] eqn:Hb.
    + rewrite lookup_insert_ne; [done|congruence].
    + apply lookup_insert_None in Hb as [Hb Hab].
      rewrite !lookup_insert_ne; [done|congruence..].
Qed.

Lemma link_labels_a L c a b :
  link_labels L c a b !! a = Some (default c (L !! a)).
Proof.
  unfold link_labels. destruct (L !! a) as [la|] eqn:Ha; simpl.
  - rewrite Ha. destruct (L !! b) as [lb|] eqn:Hb; [done|].
    rewrite lookup_insert_ne; [done|congruence].
  - rewrite lookup_insert_eq.
    destruct (<[a:=c]> L !! b) as [lb|] eqn:Hb.
    + apply lookup_insert_eq.
    + apply lookup_insert_None in Hb as [Hb Hab].
      rewrite lookup_insert_ne by done. apply lookup_insert_eq.
Qed.

Lemma link_labels_b L c a b :
  L !! b = None -> link_labels L c a b !! b = Some (default c (L !! a)).
Proof.
  intros Hb. destruct (decide (a = b)) as [->|Hab]; [apply link_labels_a|].
  unfold link_labels. destruct (L !! a) as [la|] eqn:Ha; simpl.
  - rewrite Ha, Hb. apply lookup_insert_eq.
  - rewrite lookup_insert_eq, lookup_insert_ne, Hb by done.
    apply lookup_insert_eq.
Qed.

Lemma link_labels_lookup L c a b k v :
  link_labels L c a b !! k = Some v ->
  L !! k = Some v \/
  (L !! k = None /\ (k = a \/ k = b) /\ v = default c (L !! a)).
Proof.
  intros Hk. destruct (L !! k) as [w|] eqn:HLk.
  - left. pose proof (link_labels_subseteq L c a b) as Hsub.
    rewrite map_subseteq_spec in Hsub. apply Hsub in HLk. congruence.
  - right. split; [done|].
    destruct (decide (k = a)) as [->|Hka].
    { rewrite link_labels_a in Hk. split; [by left|congruence]. }
    destruct (decide (k = b)) as [->|Hkb].
    { rewrite link_labels_b in Hk by done. split; [by right|congruence]. }
    exfalso. revert Hk. unfold link_labels.
    destruct (L !! a) as [la|] eqn:Ha.
    + rewrite Ha. destruct (L !! b); rewrite ?lookup_insert_ne by done; congruence.
    + rewrite lookup_insert_eq.
      destruct (<[a:=c]> L !! b); rewrite ?lookup_insert_ne by done; congruence.
Qed.

(** What a pair step that returns has done. *)
Lemma link_pair_Ok_inv thr cs s a b lg s' :
  link_pair thr cs s (a, b) = (lg, Ok s') ->
  exists q, calculate_similarity s (a, b) = (lg, Ok (a, b, q)) /\
    same_store s s' /\
    if Qle_bool thr q then
      labels s' = link_labels (labels s) (label_counter s) a b /\
      label_counter s' =
        match labels s !! a with
        | Some _ => label_counter s
        | None => label_counter s + 1
        end
    else s' = s.
Proof.
  unfold link_pair.
  destruct (calculate_similarity s (a, b)) as [l [r|e]] eqn:Hcalc; [|done].
  destruct (calculate_similarity_Ok_inv _ _ _ _ _ Hcalc) as [q ->].
  unfold bind at 1. unfold link_labels. intros H. exists q. revert H.
  destruct (Qle_bool thr q).
  - destruct (labels s !! a) as [la|] eqn:Ha.
    + rewrite Ha. destruct (labels s !! b) as [lb|] eqn:Hb; simpl;
        intros [= <- <-]; rewrite app_nil_r; destruct cs; done.
    + cbn [labels with_label_counter with_labels]. rewrite lookup_insert_eq.
      destruct (<[a:=label_counter s]> (labels s) !! b) as [lb|] eqn:Hb; simpl;
        intros [= <- <-]; rewrite app_nil_r; destruct cs; done.
  - simpl. intros [= <- <-]. by rewrite app_nil_r.
Qed.

(** A pair step returns as soon as the scorer does. *)
Lemma link_pair_Ok thr cs s a b lg r :
  calculate_similarity s (a, b) = (lg, Ok r) ->
  exists s', link_pair thr cs s (a, b) = (lg, Ok s').
Proof.
  intros Hcalc. unfold link_pair. rewrite Hcalc.
  destruct (calculate_similarity_Ok_inv _ _ _ _ _ Hcalc) as [q ->].
  unfold bind at 1.
  destruct (Qle_bool thr q); [|simpl; rewrite app_nil_r; by eexists].
  destruct (labels s !! a) as [la|] eqn:Ha.
  - rewrite Ha. destruct (labels s !! b) as [lb|] eqn:Hb; simpl;
      rewrite app_nil_r; by eexists.
  - cbn [labels with_label_counter with_labels]. rewrite lookup_insert_eq.
    destruct (<[a:=label_counter s]> (labels s) !! b) as [lb|] eqn:Hb; simpl;
      rewrite app_nil_r; by eexists.
Qed.

(** ** Steps only add labels *)

Lemma same_store_refl s : same_store s s.
Proof. by repeat split. Qed.

Lemma same_store_trans s1 s2 s3 :
  same_store s1 s2 -> same_store s2 s3 -> same_store s1 s3.
Proof.
  intros (? & ? & ? & ? & ?) (? & ? & ? & ? & ?).
  repeat split; congruence.
Qed.

#[global] Instance extends_preorder : PreOrder extends.
Proof.
  split.
  - intros s. split; [apply same_store_refl|]. by repeat split.
  - intros s1 s2 s3 (Hs & Hl & Hc & Hb) (Hs' & Hl' & Hc' & Hb').
    split; [by eapply same_store_trans|]. split; [by etrans|].
    split; [lia|auto].
Qed.

Lemma store_valid_same_store s s' :
  same_store s s' -> store_valid s -> store_valid s'.
Proof.
  intros (Hhs & _ & _ & _ & Hsig) [Hne Hst]. unfold store_valid.
  by rewrite Hhs, Hsig.
Qed.

Lemma label_remaining_extends s file_path : extends s (label_remaining s file_path).
Proof.
  unfold label_remaining. destruct (labels s !! file_path) as [l|] eqn:Hl; [done|].
  split; [by repeat split|]. cbn [labels label_counter with_label_counter with_labels].
  split; [by apply insert_subseteq|]. split; [lia|].
  intros Hb k v. unfold labels_below_counter in Hb. simpl.
  rewrite lookup_insert. case_decide as Hk.
  - intros [= <-]. lia.
  - intros Hv%Hb. lia.
Qed.

Lemma link_pair_extends thr cs s pair lg s' :
  link_pair thr cs s pair = (lg, Ok s') -> extends s s'.
Proof.
  destruct pair as [a b].
  intros (q & _ & Hst & Hq)%link_pair_Ok_inv.
  destruct (Qle_bool thr q); [|by subst].
  destruct Hq as [HL Hc]. split; [done|]. rewrite HL, Hc.
  split; [apply link_labels_subseteq|].
  split; [destruct (labels s !! a); lia|].
  intros Hb k v. unfold labels_below_counter in *. rewrite HL, Hc.
  intros [Hv|(_ & _ & ->)]%link_labels_lookup.
  - apply Hb in Hv. destruct (labels s !! a); lia.
  - destruct (labels s !! a) as [la|] eqn:Ha; simpl; [|lia]. by eapply Hb.
Qed.

Lemma label_step_extends thr cs s s' : label_step thr cs s s' -> extends s s'.
Proof.
  intros [? ? ? ? H|? ?]; [by eapply link_pair_extends|apply label_remaining_extends].
Qed.

Lemma label_steps_extends thr cs s s' :
  rtc (label_step thr cs) s s' -> extends s s'.
Proof.
  induction 1 as [|s1 s2 s3 H12 _ IH]; [done|].
  etrans; [by eapply label_step_extends|done].
Qed.

(** ** The loops are sequences of steps *)

Lemma walk_bucket_steps thr cs s matched_imgs lg s' :
  walk_bucket thr cs s matched_imgs = (lg, Ok s') ->
  rtc (label_step thr cs) s s'.
Proof.
  unfold walk_bucket. case_decide; [|by intros [= _ <-]].
  apply (foldM_preorder (rtc (label_step thr cs))).
  intros s1 pair l1 s2 _ Hstep. apply rtc_once. by econstructor.
Qed.

Lemma walk_buckets_steps thr cs buckets s lg s' :
  foldM (walk_bucket thr cs) buckets s = (lg, Ok s') ->
  rtc (label_step thr cs) s s'.
Proof.
  apply (foldM_preorder (rtc (label_step thr cs))).
  intros s1 m l1 s2 _. apply walk_bucket_steps.
Qed.

Lemma walk_band_steps thr cs s hash_buckets lg s' :
  walk_band thr cs s hash_buckets = (lg, Ok s') ->
  rtc (label_step thr cs) s s'.
Proof. apply walk_buckets_steps. Qed.

Lemma walk_bands_steps thr cs bl s lg s' :
  foldM (walk_band thr cs) bl s = (lg, Ok s') ->
  rtc (label_step thr cs) s s'.
Proof.
  apply (foldM_preorder (rtc (label_step thr cs))).
  intros s1 m l1 s2 _. apply walk_band_steps.
Qed.

Lemma remaining_steps thr cs file_paths s :
  rtc (label_step thr cs) s (fold_left label_remaining file_paths s).
Proof.
  revert s. induction file_paths as [|fp l IH]; intros s; simpl; [done|].
  eapply rtc_l; [apply step_remaining|apply IH].
Qed.

Lemma assign_labels_Ok_inv thr s lg s' lbls :
  assign_labels thr s = (lg, Ok (s', lbls)) ->
  exists s1, process_similarities thr false s = (lg, Ok s1) /\
    s' = _assign_labels_remaining_images s1 /\ lbls = labels s'.
Proof.
  unfold assign_labels.
  intros (l1 & s1 & l2 & H1 & [= <- <- <-] & ->)%bind_Ok.
  exists s1. by rewrite app_nil_r.
Qed.

Lemma assign_labels_steps thr s lg s' lbls :
  assign_labels thr s = (lg, Ok (s', lbls)) ->
  rtc (label_step thr false) s s'.
Proof.
  intros (s1 & H1 & -> & _)%assign_labels_Ok_inv.
  etrans; [by eapply walk_bands_steps|apply remaining_steps].
Qed.

(** ** Every stored id ends labelled *)

Lemma remaining_labelled file_paths s id :
  id ∈ file_paths ->
  is_Some (labels (fold_left label_remaining file_paths s) !! id).
Proof.
  revert s. induction file_paths as [|fp l IH]; intros s; [by intros ?%elem_of_nil|].
  intros [->|Hin]%elem_of_cons; simpl; [|by apply IH].
  assert (is_Some (labels (label_remaining s fp) !! fp)) as [v Hv].
  { unfold label_remaining. destruct (labels s !! fp) as [v|] eqn:Hfp; [by eauto|].
    simpl. rewrite lookup_insert_eq. by eauto. }
  destruct (label_steps_extends 0%Q false _ _
              (remaining_steps 0%Q false l (label_remaining s fp)))
    as (_ & Hsub & _).
  rewrite map_subseteq_spec in Hsub. eauto.
Qed.

Lemma assign_labels_labelled thr s lg s' lbls id :
  assign_labels thr s = (lg, Ok (s', lbls)) ->
  id ∈ PyDict.keys (signatures s) ->
  is_Some (lbls !! id).
Proof.
  intros (s1 & H1 & -> & ->)%assign_labels_Ok_inv Hid.
  apply walk_bands_steps, label_steps_extends in H1 as ((_ & _ & _ & _ & Hsig) & _).
  apply remaining_labelled. by rewrite Hsig.
Qed.

(** ** The labeling returns on a valid store *)

Lemma calculate_similarity_total s pair :
  store_valid s ->
  exists lg q, calculate_similarity s pair = (lg, Ok (pair.1, pair.2, q)) /\
    (0 <= q)%Q /\ (q <= 1)%Q.
Proof.
  intros [Hne Hst]. destruct pair as [a b].
  destruct (PyDict.get a (signatures s)) as [pa|] eqn:Ha;
    [destruct (PyDict.get b (signatures s)) as [pb|] eqn:Hb|].
  - destruct (Hst _ _ Ha) as (x & -> & Hx), (Hst _ _ Hb) as (y & -> & Hy).
    eexists _, _. split.
    + apply calculate_similarity_stored; [done..|lia].
    + apply score_bounds; [lia|]. pose proof (hamming_bounds x y). lia.
  - rewrite calculate_similarity_missing by auto. by eexists _, _.
  - rewrite calculate_similarity_missing by auto. by eexists _, _.
Qed.

Lemma link_pair_total thr cs s pair :
  store_valid s ->
  exists lg s', link_pair thr cs s pair = (lg, Ok s') /\ store_valid s'.
Proof.
  intros Hs. destruct (calculate_similarity_total s pair Hs) as (lg & q & Hq & _).
  destruct pair as [a b].
  destruct (link_pair_Ok thr cs _ _ _ _ _ Hq) as [s' Hs']. exists lg, s'.
  split; [done|]. apply link_pair_extends in Hs' as [? _].
  by eapply store_valid_same_store.
Qed.

Lemma walk_bucket_total thr cs s matched_imgs :
  store_valid s ->
  exists lg s', walk_bucket thr cs s matched_imgs = (lg, Ok s') /\ store_valid s'.
Proof.
  intros Hs. unfold walk_bucket. case_decide; [|by exists [], s].
  apply (foldM_total store_valid); [|done]. intros. by apply link_pair_total.
Qed.

Lemma walk_bands_total thr cs bl s :
  store_valid s ->
  exists lg s', foldM (walk_band thr cs) bl s = (lg, Ok s') /\ store_valid s'.
Proof.
  apply (foldM_total store_valid). intros s1 d Hs1.
  apply (foldM_total store_valid); [|done]. intros. by apply walk_bucket_total.
Qed.

Lemma assign_labels_total thr s :
  store_valid s ->
  exists lg s', assign_labels thr s = (lg, Ok (s', labels s')).
Proof.
  intros Hs. unfold assign_labels, process_similarities.
  destruct (walk_bands_total thr false (hash_buckets_list s) s Hs)
    as (lg & s1 & -> & _).
  simpl. rewrite app_nil_r. by eexists _, _.
Qed.

(** ** Filled processors *)

Lemma concat_values_bucket_put key file_path d :
  concat (PyDict.values (bucket_put key file_path d))
  ≡ₚ file_path :: concat (PyDict.values d).
Proof.
  unfold bucket_put. destruct (PyDict.get key d) as [w|] eqn:Hget; simpl.
  - destruct (values_set_old key (w ++ [file_path]) w d Hget)
      as (vs1 & vs2 & -> & ->).
    rewrite !concat_app, !concat_cons.
    rewrite <- app_assoc. simpl. by rewrite <- !Permutation_middle.
  - rewrite values_set_new by done. rewrite concat_app. simpl.
    by rewrite <- Permutation_cons_append.
Qed.

Lemma elem_of_imap {A B} (f : nat -> A -> B) l y :
  y ∈ imap f l -> exists i x, l !! i = Some x /\ y = f i x.
Proof.
  intros [i Hi]%list_elem_of_lookup. rewrite list_lookup_imap in Hi.
  destruct (l !! i) as [x|] eqn:Hx; [|done]. injection Hi as <-. eauto.
Qed.

Lemma fill_inv_init hs b self :
  __init__ hs b = ([], Ok self) -> fill_inv hs b [] self.
Proof.
  unfold __init__. case_decide as Hb; [done|]. intros [= <-].
  repeat split; simpl; try done.
  - unfold buckets_ok. simpl. by rewrite length_fmap, length_seqZ.
  - intros d (? & -> & _)%list_elem_of_fmap. done.
Qed.

Lemma fill_inv_add hs b ids s file_path x :
  fill_inv hs b ids s ->
  exists s', add_signature s file_path (Some x) = ([], Ok s') /\
    fill_inv hs b (ids ++ [file_path]) s' /\
    signatures s' = PyDict.set file_path (np.packbits x) (signatures s).
Proof.
  intros (Hhs & Hb & Hr & Hok & HL & Hc & Hkeys & Hbk).
  rewrite add_signature_ret by done. eexists. split; [done|]. split; [|done].
  repeat split; simpl; try done.
  - unfold buckets_ok in *. simpl. by rewrite length_imap.
  - rewrite elem_of_app, list_elem_of_singleton, <- Hkeys, !elem_of_keys.
    destruct (decide (file_path = id)) as [->|Hne].
    + rewrite get_set_eq. eauto.
    + rewrite get_set_ne by done. tauto.
  - rewrite elem_of_app, list_elem_of_singleton, <- Hkeys, !elem_of_keys.
    intros [?| ->].
    + destruct (decide (file_path = id)) as [->|Hne].
      * rewrite get_set_eq. eauto.
      * by rewrite get_set_ne.
    + rewrite get_set_eq. eauto.
  - intros d (i & d0 & Hd0 & ->)%elem_of_imap.
    rewrite concat_values_bucket_put, <- Permutation_cons_append.
    f_equiv. apply Hbk. by eapply list_elem_of_lookup_2.
Qed.

Lemma fill_inv_add_all hs b adds ids s :
  fill_inv hs b ids s ->
  exists s', add_all adds s = ([], Ok s') /\
    fill_inv hs b (ids ++ inserted adds) s' /\
    (valid_adds hs adds -> entries_valid (hs ^ 2) s -> entries_valid (hs ^ 2) s').
Proof.
  revert ids s. induction adds as [|[id [x|]] adds IH]; intros ids s Hs.
  - exists s. unfold inserted. simpl. by rewrite app_nil_r.
  - destruct (fill_inv_add hs b ids s id x Hs) as (s1 & H1 & Hs1 & Hsig1).
    destruct (IH (ids ++ [id]) s1 Hs1) as (s2 & H2 & Hs2 & Hval).
    exists s2.
    change (add_all ((id, Some x) :: adds) s)
      with (bind (add_signature s id (Some x)) (add_all adds)).
    rewrite H1. simpl. rewrite H2.
    split; [done|]. unfold inserted in *.
    rewrite filter_cons_True by (simpl; eauto).
    simpl. rewrite <- app_assoc in Hs2. split; [done|].
    intros Hv He. apply Hval.
    + intros ? ? ?. eapply Hv. by apply list_elem_of_further.
    + intros id' p. rewrite Hsig1. destruct (decide (id = id')) as [->|Hne].
      * rewrite get_set_eq. intros [= <-]. exists x. split; [done|].
        apply (Hv id'). apply list_elem_of_here.
      * rewrite get_set_ne by done. apply He.
  - destruct (IH ids s Hs) as (s2 & H2 & Hs2 & Hval).
    exists s2.
    change (add_all ((id, None) :: adds) s) with (bind (ret s) (add_all adds)).
    rewrite bind_ret_l, H2.
    split; [done|]. unfold inserted in *.
    rewrite filter_cons_False by (simpl; by intros [? ?]).
    split; [done|]. intros Hv. apply Hval.
    intros ? ? ?. eapply Hv. by apply list_elem_of_further.
Qed.

(** A fresh processor can always be filled. *)
Lemma filled_Ok hs b adds :
  b <> 0 ->
  exists s, filled hs b adds = ([], Ok s) /\
    fill_inv hs b (inserted adds) s /\
    (valid_adds hs adds -> hs <> 0 -> store_valid s).
Proof.
  intros Hb. destruct (init_Ok hs b Hb) as (s0 & H0 & _ & _ & _ & _ & Hsig0 & _).
  destruct (fill_inv_add_all hs b adds [] s0 (fill_inv_init _ _ _ H0))
    as (s & Hs & Hinv & Hval).
  exists s. unfold filled. rewrite H0. simpl. rewrite Hs.
  split; [done|]. split; [done|]. intros Hv Hhs.
  destruct Hinv as (Hhs' & _). unfold store_valid. rewrite Hhs'.
  split; [nia|]. apply Hval; [done|]. intros id p. by rewrite Hsig0.
Qed.

Lemma filled_Ok_inv hs b adds lg s :
  filled hs b adds = (lg, Ok s) -> b <> 0.
Proof.
  unfold filled, __init__. by case_decide.
Qed.

(** [process_images] fills a fresh processor with the signatures that the
    image processor computes for the files, in the order of the list. *)
Lemma process_images_filled calculate_signature hs b file_list :
  process_images calculate_signature hs b file_list
  = filled hs b ((fun f => (f, calculate_signature hs f)) <$> file_list).
Proof.
  unfold process_images, filled, add_all.
  destruct (__init__ hs b) as [lg [s|e]]; simpl; [|done].
  by rewrite foldM_fmap.
Qed.

(** ** Chaining along a bucket when every pair passes *)

Lemma link_labels_other L c a b k :
  k <> a -> k <> b -> link_labels L c a b !! k = L !! k.
Proof.
  intros Ha Hb. destruct (link_labels L c a b !! k) as [v|] eqn:Hk.
  - apply link_labels_lookup in Hk as [Hk|(_ & [?|?] & _)]; done.
  - destruct (L !! k) as [v|] eqn:HLk; [|done].
    pose proof (link_labels_subseteq L c a b) as Hsub.
    rewrite map_subseteq_spec in Hsub. apply Hsub in HLk. congruence.
Qed.

(** With a threshold of at most 0 on a valid store every pair links. *)
Lemma link_pair_pass thr cs s a b :
  store_valid s -> (thr <= 0)%Q ->
  exists lg s', link_pair thr cs s (a, b) = (lg, Ok s') /\
    store_valid s' /\
    labels s' = link_labels (labels s) (label_counter s) a b.
Proof.
  intros Hs Hthr.
  destruct (link_pair_total thr cs s (a, b) Hs) as (lg & s' & Hs' & Hv').
  exists lg, s'. split; [done|]. split; [done|].
  apply link_pair_Ok_inv in Hs' as (q & Hq & _ & Hif).
  destruct (calculate_similarity_total s (a, b) Hs) as (lg' & q' & Hq' & H0 & _).
  rewrite Hq in Hq'. injection Hq' as _ ->.
  assert (Qle_bool thr q' = true) as Hle.
  { apply Qle_bool_iff. by apply (Qle_trans _ 0). }
  rewrite Hle in Hif. by destruct Hif.
Qed.

Lemma walk_pairs_chain thr cs c m :
  (thr <= 0)%Q ->
  forall a s,
    store_valid s ->
    labels s !! a = Some c ->
    (forall x, x ∈ m -> labels s !! x = None \/ labels s !! x = Some c) ->
    exists lg s',
      foldM (link_pair thr cs) (zip (a :: m) m) s = (lg, Ok s') /\
      store_valid s' /\
      (forall x, x ∈ a :: m -> labels s' !! x = Some c) /\
      (forall k, k ∉ m -> labels s' !! k = labels s !! k).
Proof.
  intros Hthr. induction m as [|x m IH]; intros a s Hs Ha Hm.
  - exists [], s. split; [done|]. split; [done|]. split; [|done].
    by intros y ->%list_elem_of_singleton.
  - destruct (link_pair_pass thr cs s a x Hs Hthr) as (l1 & s1 & H1 & Hs1 & HL1).
    assert (labels s1 !! x = Some c) as Hx1.
    { rewrite HL1. destruct (Hm x (list_elem_of_here _ _)) as [Hx|Hx].
      - rewrite link_labels_b by done. by rewrite Ha.
      - pose proof (link_labels_subseteq (labels s) (label_counter s) a x) as Hsub.
        rewrite map_subseteq_spec in Hsub. by apply Hsub. }
    assert (forall k, k <> x -> labels s1 !! k = labels s !! k) as Hother.
    { intros k Hk. rewrite HL1. destruct (decide (k = a)) as [->|Hka].
      - by rewrite link_labels_a, Ha.
      - by apply link_labels_other. }
    destruct (IH x s1 Hs1 Hx1) as (l2 & s2 & H2 & Hs2 & Hall & Hrest).
    { intros y Hy. destruct (decide (y = x)) as [->|Hyx]; [by right|].
      rewrite Hother by done. apply Hm. by apply list_elem_of_further. }
    exists (l1 ++ l2), s2.
    change (zip (a :: x :: m) (x :: m)) with ((a, x) :: zip (x :: m) m).
    rewrite foldM_cons. split; [by eapply bind_intro|].
    split; [done|]. split.
    + intros y [Hy|Hy]%elem_of_cons; [subst y|by apply Hall].
      destruct (decide (a = x)) as [->|Hax];
        [apply Hall, list_elem_of_here|].
      destruct (decide (a ∈ m)) as [Ham|Ham];
        [by apply Hall, list_elem_of_further|].
      by rewrite Hrest, Hother.
    + intros k Hk. apply not_elem_of_cons in Hk as [Hkx Hkm].
      by rewrite Hrest, Hother.
Qed.

(** A bucket of at least two ids whose members after the first have no
    label, or the label of the first: they all end with the label of the
    first, a fresh one when it had none, and no other id is touched. *)
Lemma walk_bucket_chain thr cs s m0 rest :
  (thr <= 0)%Q -> store_valid s -> rest <> [] ->
  (forall x, x ∈ rest ->
     labels s !! x = None \/ labels s !! x = labels s !! m0) ->
  exists lg s',
    walk_bucket thr cs s (m0 :: rest) = (lg, Ok s') /\
    store_valid s' /\
    (forall x, x ∈ m0 :: rest ->
       labels s' !! x = Some (default (label_counter s) (labels s !! m0))) /\
    (forall k, k ∉ m0 :: rest -> labels s' !! k = labels s !! k).
Proof.
  intros Hthr Hs Hne Hrest0. unfold walk_bucket.
  destruct rest as [|m1 rest]; [done|].
  rewrite decide_True by (simpl; lia).
  change (zip (m0 :: m1 :: rest) (drop 1 (m0 :: m1 :: rest)))
    with ((m0, m1) :: zip (m1 :: rest) rest).
  destruct (link_pair_pass thr cs s m0 m1 Hs Hthr) as (l1 & s1 & H1 & Hs1 & HL1).
  set (c := default (label_counter s) (labels s !! m0)).
  pose proof (link_labels_subseteq (labels s) (label_counter s) m0 m1) as Hsub.
  rewrite map_subseteq_spec in Hsub.
  assert (forall x, x ∈ m1 :: rest ->
            labels s1 !! x = None \/ labels s1 !! x = Some c) as Hrest1.
  { intros y Hy. destruct (labels s1 !! y) as [v|] eqn:Hv; [|by left]. right.
    rewrite HL1 in Hv. apply link_labels_lookup in Hv as [Hv|(_ & _ & ->)]; [|done].
    destruct (Hrest0 y Hy) as [Hy0|Hy0]; [congruence|].
    rewrite Hy0 in Hv. unfold c. by rewrite Hv. }
  assert (labels s1 !! m0 = Some c) as Hm0 by (by rewrite HL1, link_labels_a).
  assert (labels s1 !! m1 = Some c) as Hm1.
  { destruct (Hrest0 m1 (list_elem_of_here _ _)) as [Hn|He].
    - by rewrite HL1, link_labels_b.
    - destruct (Hrest1 m1 (list_elem_of_here _ _)) as [Hn1|]; [|done].
      destruct (labels s !! m1) as [v|] eqn:Hv.
      + apply Hsub in Hv. rewrite <- HL1 in Hv. congruence.
      + by rewrite HL1, link_labels_b in Hn1. }
  destruct (walk_pairs_chain thr cs c rest Hthr m1 s1 Hs1 Hm1)
    as (l2 & s2 & H2 & Hs2 & Hall & Hrest).
  { intros y Hy. by apply Hrest1, list_elem_of_further. }
  exists (l1 ++ l2), s2.
  rewrite foldM_cons. split; [by eapply bind_intro|].
  split; [done|]. split.
  - intros y [Hy|Hy]%elem_of_cons; [subst y|by apply Hall].
    destruct (decide (m0 ∈ m1 :: rest)) as [Hyr|Hyr]; [by apply Hall|].
    apply not_elem_of_cons in Hyr as [_ Hyr]. by rewrite Hrest.
  - intros k Hk. apply not_elem_of_cons in Hk as [Hk0 Hk].
    apply not_elem_of_cons in Hk as [Hk1 Hk].
    rewrite Hrest by done. rewrite HL1. by apply link_labels_other.
Qed.

(** A bucket of at least two ids, none labelled yet: they all get the
    label the counter holds, and no other id is touched. *)
Lemma walk_bucket_fresh thr cs s matched_imgs :
  (thr <= 0)%Q -> store_valid s ->
  (1 < length matched_imgs)%nat ->
  (forall x, x ∈ matched_imgs -> labels s !! x = None) ->
  exists lg s',
    walk_bucket thr cs s matched_imgs = (lg, Ok s') /\
    store_valid s' /\
    (forall x, x ∈ matched_imgs -> labels s' !! x = Some (label_counter s)) /\
    (forall k, k ∉ matched_imgs -> labels s' !! k = labels s !! k).
Proof.
  intros Hthr Hs Hlen Hnone.
  destruct matched_imgs as [|m0 rest]; [simpl in Hlen; lia|].
  destruct (walk_bucket_chain thr cs s m0 rest Hthr Hs)
    as (lg & s' & H & Hs' & Hall & Hout).
  { intros ->. simpl in Hlen. lia. }
  { intros x Hx. left. by apply Hnone, list_elem_of_further. }
  exists lg, s'. rewrite (Hnone m0 (list_elem_of_here _ _)) in Hall. done.
Qed.

(** The buckets of one band, pairwise disjoint and not yet labelled:
    each bucket of two ids or more ends with one label. *)
Lemma walk_buckets_fresh thr cs buckets :
  (thr <= 0)%Q ->
  forall s,
    store_valid s ->
    NoDup (concat buckets) ->
    (forall x, x ∈ concat buckets -> labels s !! x = None) ->
    exists lg s',
      foldM (walk_bucket thr cs) buckets s = (lg, Ok s') /\
      store_valid s' /\
      (forall m, m ∈ buckets -> (1 < length m)%nat ->
         exists c, forall x, x ∈ m -> labels s' !! x = Some c).
Proof.
  intros Hthr. induction buckets as [|m buckets IH]; intros s Hs Hnd Hnone.
  - exists [], s. split; [done|]. split; [done|]. by intros m ?%elem_of_nil.
  - simpl in Hnd, Hnone. apply NoDup_app in Hnd as (Hndm & Hdisj & Hnd).
    assert (exists lg s1, walk_bucket thr cs s m = (lg, Ok s1) /\ store_valid s1 /\
              (forall k, k ∉ m -> labels s1 !! k = labels s !! k) /\
              ((1 < length m)%nat ->
                 exists c, forall x, x ∈ m -> labels s1 !! x = Some c))
      as (l1 & s1 & H1 & Hs1 & Hout & Hin).
    { destruct (decide (1 < length m)%nat) as [Hlen|Hlen].
      - destruct (walk_bucket_fresh thr cs s m Hthr Hs Hlen)
          as (l1 & s1 & H1 & Hs1 & Hall & Hout).
        { intros x Hx. apply Hnone, elem_of_app. by left. }
        exists l1, s1. eauto 10.
      - exists [], s. unfold walk_bucket. rewrite decide_False by done.
        split; [done|]. split; [done|]. split; [done|]. intros; lia. }
    destruct (IH s1 Hs1 Hnd) as (l2 & s2 & H2 & Hs2 & Hgroups).
    { intros x Hx. rewrite Hout.
      - apply Hnone, elem_of_app. by right.
      - intros Hxm. by eapply Hdisj. }
    exists (l1 ++ l2), s2.
    rewrite foldM_cons. split; [by eapply bind_intro|]. split; [done|].
    intros m' [->|Hm']%elem_of_cons Hlen; [|by apply Hgroups].
    destruct (Hin Hlen) as [c Hc]. exists c. intros x Hx.
    assert (extends s1 s2) as (_ & Hsub & _).
    { eapply (foldM_preorder extends); [|done].
      intros ? ? ? ? _ ?%walk_bucket_steps. by eapply label_steps_extends. }
    rewrite map_subseteq_spec in Hsub. by apply Hsub, Hc.
Qed.

(** ** Labelled ids come from the buckets and the store *)

Lemma foldM_invariant {S A} (P : S -> Prop) (body : S -> A -> M S) l s lg s' :
  (forall s x lg s', x ∈ l -> P s -> body s x = (lg, Ok s') -> P s') ->
  P s -> foldM body l s = (lg, Ok s') -> P s'.
Proof.
  revert s lg. induction l as [|x l IH]; intros s lg Hbody Hs.
  - by intros [= _ <-].
  - rewrite foldM_cons. intros (l1 & s1 & l2 & H1 & H2 & _)%bind_Ok.
    eapply IH; [| |done].
    + intros ? ? ? ? ?. apply Hbody. by apply list_elem_of_further.
    + eapply Hbody; [apply list_elem_of_here|done..].
Qed.

Lemma elem_of_zip_drop {A} (m : list A) a b :
  (a, b) ∈ zip m (drop 1 m) -> a ∈ m /\ b ∈ m.
Proof.
  intros Hin. split.
  - by eapply elem_of_zip_l.
  - apply elem_of_zip_r in Hin. apply list_elem_of_lookup in Hin as [i Hi].
    rewrite lookup_drop in Hi. by eapply list_elem_of_lookup_2.
Qed.

Lemma elem_of_concat {A} (x : A) (ls : list (list A)) :
  x ∈ concat ls <-> exists l, l ∈ ls /\ x ∈ l.
Proof.
  induction ls as [|l ls IH]; simpl.
  - split; [by intros ?%elem_of_nil|by intros (? & ?%elem_of_nil & _)].
  - rewrite elem_of_app, IH. split.
    + intros [?|(l' & ? & ?)]; [exists l|exists l'];
        split; try done; [apply list_elem_of_here|by apply list_elem_of_further].
    + intros (l' & [->|?]%elem_of_cons & ?); [by left|right; eauto].
Qed.

Lemma link_pair_within ids thr cs s a b lg s' :
  a ∈ ids -> b ∈ ids -> labelled_within ids s ->
  link_pair thr cs s (a, b) = (lg, Ok s') -> labelled_within ids s'.
Proof.
  intros Ha Hb Hs (q & _ & _ & Hq)%link_pair_Ok_inv.
  destruct (Qle_bool thr q); [|by subst]. destruct Hq as [HL _].
  intros id [v Hv]. rewrite HL in Hv.
  apply link_labels_lookup in Hv as [Hv|(_ & [->| ->] & _)]; eauto.
Qed.

Lemma walk_bands_within ids thr cs bl s lg s' :
  (forall d, d ∈ bl -> forall id, id ∈ concat (PyDict.values d) -> id ∈ ids) ->
  labelled_within ids s ->
  foldM (walk_band thr cs) bl s = (lg, Ok s') -> labelled_within ids s'.
Proof.
  intros Hbl. apply foldM_invariant. intros s1 d l1 s2 Hd.
  apply foldM_invariant. intros s3 m l3 s4 Hm Hs3.
  unfold walk_bucket. case_decide; [|by intros [= _ <-]].
  revert Hs3. apply foldM_invariant. intros s5 [a b] l5 s6 Hab.
  apply elem_of_zip_drop in Hab as [Ha Hb].
  apply link_pair_within; apply (Hbl d Hd), elem_of_concat; eauto.
Qed.

Lemma remaining_within ids file_paths s :
  (forall id, id ∈ file_paths -> id ∈ ids) ->
  labelled_within ids s ->
  labelled_within ids (fold_left label_remaining file_paths s).
Proof.
  revert s. induction file_paths as [|fp l IH]; intros s Hl Hs; [done|].
  simpl. apply IH; [intros; by apply Hl, list_elem_of_further|].
  unfold label_remaining. destruct (labels s !! fp) eqn:Hfp; [done|].
  intros id [v Hv]. simpl in Hv. rewrite lookup_insert in Hv.
  case_decide as Hid; [subst; apply Hl, list_elem_of_here|by eauto].
Qed.


(** ** The run, cut at one bucket *)

(** When the bucket [m] is reached in state [s1], the run walks it, and
    whatever is labelled right after it stays so until the end. *)
Lemma assign_labels_at_bucket thr self bands_before d bands_after
    buckets_before m buckets_after lg0 s0 lg1 s1 lg st' lbls :
  hash_buckets_list self = bands_before ++ d :: bands_after ->
  PyDict.values d = buckets_before ++ m :: buckets_after ->
  foldM (walk_band thr false) bands_before self = (lg0, Ok s0) ->
  foldM (walk_bucket thr false) buckets_before s0 = (lg1, Ok s1) ->
  assign_labels thr self = (lg, Ok (st', lbls)) ->
  exists l2 s2,
    walk_bucket thr false s1 m = (l2, Ok s2) /\
    same_store self s1 /\ extends s2 st' /\ lbls = labels st'.
Proof.
  intros Hbands Hbuckets H0 H1 Hrun.
  apply assign_labels_Ok_inv in Hrun as (sp & Hp & -> & ->).
  unfold process_similarities in Hp. rewrite Hbands, foldM_app, H0 in Hp.
  apply bind_Ok in Hp as (? & ? & l2 & [= <- <-] & Hp & _).
  rewrite foldM_cons in Hp.
  apply bind_Ok in Hp as (l3 & s3 & l4 & Hband & Hafter & _).
  unfold walk_band in Hband. rewrite Hbuckets, foldM_app, H1 in Hband.
  apply bind_Ok in Hband as (? & ? & l5 & [= <- <-] & Hband & _).
  rewrite foldM_cons in Hband.
  apply bind_Ok in Hband as (l6 & s2 & l7 & Hm & Hrest & _).
  exists l6, s2. split; [done|]. split; [|split; [|done]].
  - apply (label_steps_extends thr false).
    etrans; [by eapply walk_bands_steps|by eapply walk_buckets_steps].
  - apply (label_steps_extends thr false).
    etrans; [by eapply walk_buckets_steps|].
    etrans; [by eapply walk_bands_steps|apply remaining_steps].
Qed.

(** * The claims *)

(** C2. Whenever a run returns, the mapping it returns is the processor's,
    gives every inserted id a label, gives no id two labels, and labels
    nothing but inserted ids: it is a labeling of exactly the input set.
    And a run over signatures of length [hash_size ^ 2] does return. *)
Theorem assign_labels_labels_every_input hs b thr adds :
  (forall lg st lbls,
     labeling_run hs b thr adds = (lg, Ok (st, lbls)) ->
     lbls = labels st /\
     (forall id, id ∈ inserted adds -> exists l, lbls !! id = Some l) /\
     (forall id l l', lbls !! id = Some l -> lbls !! id = Some l' -> l = l') /\
     (forall id, is_Some (lbls !! id) -> id ∈ inserted adds)) /\
  (0 < hs -> 0 < b -> valid_adds hs adds ->
   exists lg st lbls, labeling_run hs b thr adds = (lg, Ok (st, lbls))).
Proof.
  split.
  - intros lg st lbls Hrun. unfold labeling_run in Hrun.
    apply bind_Ok in Hrun as (l0 & s & l1 & Hs & Hst & _).
    destruct (filled_Ok hs b adds (filled_Ok_inv _ _ _ _ _ Hs))
      as (s' & Hs' & Hinv & _).
    rewrite Hs in Hs'. injection Hs' as _ <-.
    destruct Hinv as (_ & _ & _ & _ & HL & _ & Hkeys & Hbk).
    pose proof Hst as (s1 & H1 & Hst' & Hlbls)%assign_labels_Ok_inv.
    split; [by subst|]. split; [|split].
    + intros id Hid. eapply assign_labels_labelled; [done|]. by apply Hkeys.
    + congruence.
    + rewrite Hlbls, Hst'. apply remaining_within.
      * intros id. apply walk_bands_steps, label_steps_extends in H1
          as ((_ & _ & _ & _ & ->) & _). apply Hkeys.
      * eapply walk_bands_within; [|..|exact H1].
        -- intros d Hd id. by rewrite (Hbk d Hd).
        -- intros id [v Hv']. by rewrite HL in Hv'.
  - intros Hhs Hb Hv.
    destruct (filled_Ok hs b adds ltac:(lia)) as (s & Hs & _ & Hsv).
    destruct (assign_labels_total thr s (Hsv Hv ltac:(lia))) as (lg & st & Hst).
    exists lg, st, (labels st). exact (bind_intro _ _ [] _ lg _ Hs Hst).
Qed.

(** C9. Throughout a run an id, once labelled, keeps its label, and the
    fresh labels drawn from the counter increase strictly: a run of
    [assign_labels] is a sequence of atomic steps; along any sequence of
    steps a label is never replaced; a step moves the counter only by
    drawing its value as a fresh label; of two draws the later one is
    strictly greater; and, when the labels in use were all drawn from the
    counter, as on a processor with no label yet, a fresh label is
    strictly greater than every label in use. *)
Theorem labels_final_and_fresh_labels_increase thr cs :
  (forall s lg s' lbls,
     assign_labels thr s = (lg, Ok (s', lbls)) ->
     rtc (label_step thr false) s s') /\
  (forall s s' id l,
     rtc (label_step thr cs) s s' ->
     labels s !! id = Some l -> labels s' !! id = Some l) /\
  (forall s s',
     label_step thr cs s s' ->
     label_counter s' = label_counter s \/ draws s s' (label_counter s)) /\
  (forall s1 s2 s3 s4 l l',
     label_step thr cs s1 s2 -> draws s1 s2 l ->
     rtc (label_step thr cs) s2 s3 ->
     label_step thr cs s3 s4 -> draws s3 s4 l' ->
     l < l') /\
  (forall s, labels s = ∅ -> labels_below_counter s) /\
  (forall s s' l,
     rtc (label_step thr cs) s s' ->
     labels_below_counter s ->
     labels_below_counter s' /\
     forall s'', draws s' s'' l ->
       forall id l0, labels s' !! id = Some l0 -> l0 < l).
Proof.
  split; [|split; [|split; [|split; [|split]]]].
  - intros s lg s' lbls. apply assign_labels_steps.
  - intros s s' id l (_ & Hsub & _)%label_steps_extends.
    rewrite map_subseteq_spec in Hsub. apply Hsub.
  - intros s s' [s0 [a b] lg s1 Hstep|s0 fp].
    + apply link_pair_Ok_inv in Hstep as (q & _ & _ & Hq).
      destruct (Qle_bool thr q); [|subst; by left]. destruct Hq as [HL Hc].
      destruct (labels s0 !! a) as [la|] eqn:Ha; [by left|right].
      split; [done|]. split; [done|]. exists a. split; [done|].
      by rewrite HL, link_labels_a, Ha.
    + unfold label_remaining.
      destruct (labels s0 !! fp) as [l|] eqn:Hfp; [by left|right].
      split; [done|]. split; [done|]. exists fp. split; [done|].
      simpl. apply lookup_insert_eq.
  - intros s1 s2 s3 s4 l l' _ (-> & Hc2 & _) (_ & _ & Hc & _)%label_steps_extends
      _ (-> & _). lia.
  - intros s Hempty id l. by rewrite Hempty.
  - intros s s' l Hsteps%label_steps_extends Hb.
    destruct Hsteps as (_ & _ & _ & Hb'). specialize (Hb' Hb).
    split; [done|]. intros s'' (-> & _) id l0 Hl0. by eapply Hb'.
Qed.

(** The run over [three_images] with threshold 1/2 returns, with A
    labelled 1 and B and C labelled 0. *)
Example labeling_run_three_images :
  exists lg st lbls,
    labeling_run 2 2 (1 # 2) three_images = (lg, Ok (st, lbls)) /\
    lbls !! "A"%string = Some 1 /\ lbls !! "B"%string = Some 0 /\
    lbls !! "C"%string = Some 0 /\ label_counter st = 2.
Proof.
  eexists _, _, _.
  split; [vm_compute; reflexivity|].
  split; [vm_compute; reflexivity|].
  split; [vm_compute; reflexivity|].
  split; vm_compute; reflexivity.
Qed.

(** C1, as stated, fails. With [hash_size = 2], two bands and threshold
    1/2, band 1 has the bucket [A; B] and the pair scores 3/4, yet the run
    ends with A labelled 1 and B labelled 0: B got its label from the
    bucket [B; C] of band 0, and a labelled second member is left alone. *)
Lemma pair_bucket_left_unlinked :
  exists st d q lg st' lbls,
    filled 2 2 three_images = ([], Ok st) /\
    hash_buckets_list st !! 1%nat = Some d /\
    PyDict.values d = [["A"; "B"]; ["C"]]%string /\
    calculate_similarity st ("A", "B")%string = ([], Ok ("A", "B", q)%string) /\
    Qle_bool (1 # 2) q = true /\
    assign_labels (1 # 2) st = (lg, Ok (st', lbls)) /\
    lbls !! "A"%string = Some 1 /\ lbls !! "B"%string = Some 0.
Proof.
  eexists _, _, _, _, _, _.
  split; [vm_compute; reflexivity|].
  split; [vm_compute; reflexivity|].
  split; [vm_compute; reflexivity|].
  split; [vm_compute; reflexivity|].
  split; [vm_compute; reflexivity|].
  split; [vm_compute; reflexivity|].
  split; vm_compute; reflexivity.
Qed.
(** C1, amended. Take a bucket whose member list is exactly [A; B], and
    let [s1] be the processor when its pair is reached: the bands before
    it and the buckets before it in its band have been walked. If the
    pair scores at least the threshold there and B has no label yet, or
    already carries the label of A, then after [assign_labels] A and B
    have the same label; A may have been labelled by an earlier bucket. *)
Theorem pair_bucket_linked thr self bands_before d bands_after
    buckets_before buckets_after A B lg0 s0 lg1 s1 lgq q lg st' lbls :
  hash_buckets_list self = bands_before ++ d :: bands_after ->
  PyDict.values d = buckets_before ++ [A; B] :: buckets_after ->
  foldM (walk_band thr false) bands_before self = (lg0, Ok s0) ->
  foldM (walk_bucket thr false) buckets_before s0 = (lg1, Ok s1) ->
  calculate_similarity s1 (A, B) = (lgq, Ok (A, B, q)) ->
  Qle_bool thr q = true ->
  labels s1 !! B = None \/ labels s1 !! B = labels s1 !! A ->
  assign_labels thr self = (lg, Ok (st', lbls)) ->
  exists l, lbls !! A = Some l /\ lbls !! B = Some l.
Proof.
  intros Hbands Hbuckets H0 H1 Hq Hpass HB Hrun.
  destruct (assign_labels_at_bucket _ _ _ _ _ _ _ _ _ _ _ _ _ _ _
              Hbands Hbuckets H0 H1 Hrun)
    as (l2 & s2 & Hpair & _ & (_ & Hsub & _) & ->).
  unfold walk_bucket in Hpair. rewrite decide_True in Hpair by (simpl; lia).
  change (zip [A; B] (drop 1 [A; B])) with [(A, B)] in Hpair.
  rewrite foldM_cons in Hpair.
  apply bind_Ok in Hpair as (l8 & s2' & ? & Hlink & [= _ <-] & _).
  apply link_pair_Ok_inv in Hlink as (q' & Hq' & _ & Hif).
  rewrite Hq in Hq'. injection Hq' as _ <-. rewrite Hpass in Hif.
  destruct Hif as [HL _]. rewrite map_subseteq_spec in Hsub.
  exists (default (label_counter s1) (labels s1 !! A)).
  split; apply Hsub; rewrite HL; [apply link_labels_a|].
  destruct HB as [HB|HB]; [by apply link_labels_b|].
  destruct (labels s1 !! B) as [lb|] eqn:HBe; [|by apply link_labels_b].
  rewrite <- HB. simpl.
  pose proof (link_labels_subseteq (labels s1) (label_counter s1) A B) as Hsub1.
  rewrite map_subseteq_spec in Hsub1. by apply Hsub1.
Qed.
Lemma two_band_processor_filled :
  filled 2 2 [("A"%string, Some [false; false; false; false]);
              ("B"%string, Some [false; true; false; false]);
              ("C"%string, Some [false; false; false; true])]
  = ([], Ok two_band_processor).
Proof. vm_compute. reflexivity. Qed.

(** The amended C1 on [two_band_processor] with threshold 1/2: the
    bucket [A; B] of band 1 is reached when A already has a label, from
    the bucket [A; C] of band 0, and B has none. *)
Lemma pair_bucket_linked_witness :
  exists lg st' lbls,
    assign_labels (1 # 2) two_band_processor = (lg, Ok (st', lbls)) /\
    exists l, lbls !! "A"%string = Some l /\ lbls !! "B"%string = Some l.
Proof.
  eexists _, _, _. split; [vm_compute; reflexivity|].
  eapply (pair_bucket_linked (1 # 2) two_band_processor
            [[([0; 0], ["A"; "C"]); ([0; 1], ["B"])]]%string
            [([0; 0], ["A"; "B"]); ([0; 1], ["C"])]%string
            [] [] [["C"%string]] "A"%string "B"%string).
  - reflexivity.
  - reflexivity.
  - vm_compute; reflexivity.
  - vm_compute; reflexivity.
  - vm_compute; reflexivity.
  - vm_compute; reflexivity.
  - left. vm_compute; reflexivity.
  - vm_compute; reflexivity.
Defined.

(** C7, as stated, fails. With threshold 0, [hash_size = 2] and two
    bands, A and B share the bucket [A; B] of band 1 and every pair
    passes, yet the run ends with A labelled 1 and B labelled 0: B was
    labelled in band 0, with C, before the pair (A, B) was reached. *)
Lemma shared_bucket_not_collapsed :
  exists st d lg st' lbls,
    filled 2 2 three_images = ([], Ok st) /\
    hash_buckets_list st !! 1%nat = Some d /\
    PyDict.values d = [["A"; "B"]; ["C"]]%string /\
    assign_labels 0 st = (lg, Ok (st', lbls)) /\
    lbls !! "A"%string = Some 1 /\ lbls !! "B"%string = Some 0.
Proof.
  eexists _, _, _, _, _.
  split; [vm_compute; reflexivity|].
  split; [vm_compute; reflexivity|].
  split; [vm_compute; reflexivity|].
  split; [vm_compute; reflexivity|].
  split; vm_compute; reflexivity.
Qed.

(** C7, amended. With threshold 0 a bucket of two ids or more collapses
    into one label whenever, at the moment it is reached, its members
    after the first have no label or the label of the first. On a fresh
    processor filled by valid insertions of distinct ids the run returns
    and this holds of every bucket of the first band: any two of its
    members end with the same label (with one band, that is every
    bucket). A member labelled differently by an earlier band is left as
    it is. *)
Theorem threshold_zero_buckets_collapse :
  (forall hs b adds,
     0 < hs -> 0 < b -> valid_adds hs adds -> NoDup (inserted adds) ->
     exists st d0 lg st' lbls,
       filled hs b adds = ([], Ok st) /\
       hash_buckets_list st !! 0%nat = Some d0 /\
       assign_labels 0 st = (lg, Ok (st', lbls)) /\
       forall m x y,
         m ∈ PyDict.values d0 -> x ∈ m -> y ∈ m ->
         exists l, lbls !! x = Some l /\ lbls !! y = Some l) /\
  (forall self bands_before d bands_after buckets_before m0 rest buckets_after
          lg0 s0 lg1 s1 lg st' lbls,
     store_valid self ->
     hash_buckets_list self = bands_before ++ d :: bands_after ->
     PyDict.values d = buckets_before ++ (m0 :: rest) :: buckets_after ->
     foldM (walk_band 0 false) bands_before self = (lg0, Ok s0) ->
     foldM (walk_bucket 0 false) buckets_before s0 = (lg1, Ok s1) ->
     rest <> [] ->
     (forall x, x ∈ rest ->
        labels s1 !! x = None \/ labels s1 !! x = labels s1 !! m0) ->
     assign_labels 0 self = (lg, Ok (st', lbls)) ->
     forall x y, x ∈ m0 :: rest -> y ∈ m0 :: rest ->
       exists l, lbls !! x = Some l /\ lbls !! y = Some l).
Proof.
  split.
  - intros hs b adds Hhs Hb Hv Hnd.
    destruct (filled_Ok hs b adds ltac:(lia)) as (s & Hs & Hinv & Hsv).
    specialize (Hsv Hv ltac:(lia)).
    destruct Hinv as (_ & Hbs & _ & Hok & HL & _ & Hkeys & Hbk).
    destruct (hash_buckets_list s) as [|d0 rest] eqn:Hbl.
    { unfold buckets_ok in Hok. rewrite Hbl, Hbs in Hok. simpl in Hok. lia. }
    assert (concat (PyDict.values d0) ≡ₚ inserted adds) as Hperm
      by apply Hbk, list_elem_of_here.
    destruct (walk_buckets_fresh 0 false (PyDict.values d0) ltac:(done) s Hsv)
      as (l1 & s1 & H1 & Hs1 & Hgroups).
    { by rewrite Hperm. }
    { intros x _. by rewrite HL. }
    destruct (walk_bands_total 0 false rest s1 Hs1) as (l2 & s2 & H2 & _).
    set (st' := _assign_labels_remaining_images s2).
    assert (assign_labels 0 s = (l1 ++ l2, Ok (st', labels st'))) as Hrun.
    { assert (process_similarities 0 false s = (l1 ++ l2, Ok s2)) as Hp.
      { unfold process_similarities. rewrite Hbl, foldM_cons.
        exact (bind_intro _ _ _ _ _ _ H1 H2). }
      unfold assign_labels. rewrite Hp. simpl. by rewrite app_nil_r. }
    exists s, d0, (l1 ++ l2), st', (labels st').
    split; [done|]. split; [by rewrite Hbl|]. split; [done|].
    intros m x y Hm Hx Hy.
    destruct (decide (1 < length m)%nat) as [Hlen|Hlen].
    + destruct (Hgroups m Hm Hlen) as [c Hc]. exists c.
      assert (extends s1 st') as (_ & Hsub & _).
      { apply (label_steps_extends 0 false).
        etrans; [by eapply walk_bands_steps|apply remaining_steps]. }
      rewrite map_subseteq_spec in Hsub. split; apply Hsub, Hc; done.
    + assert (x = y) as <-.
      { destruct m as [|z [|z' m]];
          [by apply elem_of_nil in Hx| |simpl in Hlen; lia].
        apply list_elem_of_singleton in Hx, Hy. congruence. }
      destruct (assign_labels_labelled 0 s _ st' _ x Hrun) as [l Hl]; [|by eauto].
      apply Hkeys. rewrite <- Hperm. apply elem_of_concat. eauto.
  - intros self bb d ba kb m0 rest ka lg0 s0 lg1 s1 lg st' lbls
      Hsv Hbands Hbuckets H0 H1 Hne Hrest Hrun x y Hx Hy.
    destruct (assign_labels_at_bucket _ _ _ _ _ _ _ _ _ _ _ _ _ _ _
                Hbands Hbuckets H0 H1 Hrun)
      as (l2 & s2 & Hwalk & Hsame & (_ & Hsub & _) & ->).
    destruct (walk_bucket_chain 0 false s1 m0 rest ltac:(done)
                (store_valid_same_store _ _ Hsame Hsv) Hne Hrest)
      as (l2' & s2' & Hwalk' & _ & Hall & _).
    rewrite Hwalk in Hwalk'. injection Hwalk' as _ <-.
    rewrite map_subseteq_spec in Hsub.
    exists (default (label_counter s1) (labels s1 !! m0)).
    split; apply Hsub, Hall; done.
Qed.

(** The amended C7 on two images with equal first halves: one bucket of
    two in band 0. *)
Lemma threshold_zero_buckets_collapse_witness :
  exists st d0 lg st' lbls,
    filled 2 2 [("A"%string, Some [false; true; false; false]);
                ("B"%string, Some [false; true; true; true])]
    = ([], Ok st) /\
    hash_buckets_list st !! 0%nat = Some d0 /\
    assign_labels 0 st = (lg, Ok (st', lbls)) /\
    forall m x y,
      m ∈ PyDict.values d0 -> x ∈ m -> y ∈ m ->
      exists l, lbls !! x = Some l /\ lbls !! y = Some l.
Proof.
  apply (proj1 threshold_zero_buckets_collapse 2 2).
  - reflexivity.
  - reflexivity.
  - intros id s Hin. rewrite !elem_of_cons, elem_of_nil in Hin.
    destruct Hin as [Hin|[Hin|Hin]]; [injection Hin as _ Hs; by rewrite Hs..|done].
  - apply (bool_decide_unpack _). vm_compute. exact I.
Defined.

(** C4, as stated, fails. With [hash_size = 1] the valid signature [1]
    is stored as the byte 128, which unpacks to eight bits. *)
Lemma stored_signature_unpacks_padded :
  exists st st' p,
    __init__ 1 1 = ([], Ok st) /\
    add_signature st "img" (Some [true]) = ([], Ok st') /\
    PyDict.get "img"%string (signatures st') = Some p /\
    np.unpackbits p = [true; false; false; false; false; false; false; false] /\
    np.unpackbits p <> [true].
Proof.
  eexists _, _, _.
  split; [vm_compute; reflexivity|].
  split; [vm_compute; reflexivity|].
  split; [vm_compute; reflexivity|].
  split; [vm_compute; reflexivity|]. vm_compute. discriminate.
Qed.

(** C4, amended. Storing a signature [s] of length [hash_size ^ 2] in a
    processor with its bucket maps succeeds, and unpacking the stored
    form gives [s] followed by zero bits up to the next multiple of 8:
    its first [hash_size ^ 2] bits are [s], and it equals [s] exactly
    when [hash_size ^ 2] is a multiple of 8. *)
Theorem stored_signature_unpacks self file_path s :
  buckets_ok self ->
  Z.of_nat (length s) = hash_size self ^ 2 ->
  exists self' p,
    add_signature self file_path (Some s) = ([], Ok self') /\
    PyDict.get file_path (signatures self') = Some p /\
    np.unpackbits p = s ++ replicate (np.padding (length s)) false /\
    take (length s) (np.unpackbits p) = s /\
    (np.unpackbits p = s <-> (hash_size self ^ 2) mod 8 = 0).
Proof.
  intros Hok Hlen. rewrite add_signature_ret by done.
  eexists _, (np.packbits s). split; [done|]. simpl.
  split; [apply get_set_eq|]. rewrite unpackbits_packbits.
  split; [done|]. split; [by rewrite take_app_length|].
  rewrite <- Hlen. split.
  - intros Hpad. apply (f_equal length) in Hpad.
    rewrite length_app, length_replicate in Hpad.
    assert (np.padding (length s) = 0%nat) as Hp by lia.
    rewrite padding_0_iff in Hp.
    change 8 with (Z.of_nat 8). rewrite <- Nat2Z.inj_mod. lia.
  - intros Hmod. change 8 with (Z.of_nat 8) in Hmod.
    rewrite <- Nat2Z.inj_mod in Hmod.
    assert (np.padding (length s) = 0%nat) as -> by (apply padding_0_iff; lia).
    apply app_nil_r.
Qed.

(** The amended C4 at [hash_size = 4]: sixteen bits come back as stored. *)
Lemma stored_signature_unpacks_witness :
  exists self' p,
    add_signature
      {| hash_size := 4; bands := 1; rows := 16;
         hash_buckets_list := [PyDict.empty]; signatures := PyDict.empty;
         labels := ∅; label_counter := 0; similarity_scores := [] |}
      "img" (Some (replicate 8 true ++ replicate 8 false))
    = ([], Ok self') /\
    PyDict.get "img"%string (signatures self') = Some p /\
    np.unpackbits p
    = (replicate 8 true ++ replicate 8 false)
      ++ replicate (np.padding (length (replicate 8 true ++ replicate 8 false))) false /\
    take (length (replicate 8 true ++ replicate 8 false)) (np.unpackbits p)
    = replicate 8 true ++ replicate 8 false /\
    (np.unpackbits p = replicate 8 true ++ replicate 8 false <-> 4 ^ 2 mod 8 = 0).
Proof.
  apply (stored_signature_unpacks
           {| hash_size := 4; bands := 1; rows := 16;
              hash_buckets_list := [PyDict.empty]; signatures := PyDict.empty;
              labels := ∅; label_counter := 0; similarity_scores := [] |}).
  - reflexivity.
  - reflexivity.
Defined.

(** C5. For two stored signatures [x] and [y] of length [hash_size ^ 2],
    the scorer returns, without a diagnostic, the quotient
    [(hash_size ^ 2 - hamming x y) / hash_size ^ 2]; it lies in [0, 1]; it
    is 1 exactly when the stored forms are equal, which is when [x] and
    [y] are; and an image scored against itself gets 1. *)
Theorem calculate_similarity_is_normalised_hamming self img_a img_b x y :
  0 < hash_size self ->
  Z.of_nat (length x) = hash_size self ^ 2 ->
  Z.of_nat (length y) = hash_size self ^ 2 ->
  PyDict.get img_a (signatures self) = Some (np.packbits x) ->
  PyDict.get img_b (signatures self) = Some (np.packbits y) ->
  exists q q',
    calculate_similarity self (img_a, img_b) = ([], Ok (img_a, img_b, q)) /\
    q = (inject_Z (hash_size self ^ 2 - hamming x y)
         / inject_Z (hash_size self ^ 2))%Q /\
    (0 <= q)%Q /\ (q <= 1)%Q /\
    ((q == 1)%Q <-> np.packbits x = np.packbits y) /\
    ((q == 1)%Q <-> x = y) /\
    calculate_similarity self (img_a, img_a) = ([], Ok (img_a, img_a, q')) /\
    (q' == 1)%Q.
Proof.
  intros Hhs Hx Hy Ha Hb.
  assert (hash_size self ^ 2 <> 0) as Hne by nia.
  assert (length x = length y) as Hlen by lia.
  eexists _, _. split; [by apply calculate_similarity_stored|].
  split; [done|]. pose proof (hamming_bounds x y) as Hhd.
  split; [apply score_bounds; lia|]. split; [apply score_bounds; lia|].
  assert (hamming x y = 0 <-> x = y) as Hiff.
  { split; [by apply hamming_0_eq|]. intros ->. apply hamming_refl. }
  split; [|split; [|split]].
  - rewrite score_1_iff, Hiff by done. split; [by intros ->|].
    by apply packbits_inj.
  - by rewrite score_1_iff, Hiff.
  - by apply calculate_similarity_stored.
  - by rewrite score_1_iff, hamming_refl.
Qed.

(** C5 on two 4-bit signatures at distance 1: the score is 3/4. *)
Lemma calculate_similarity_is_normalised_hamming_witness :
  exists q q',
    calculate_similarity two_band_processor ("A", "B")%string
    = ([], Ok ("A", "B", q)%string) /\
    q = (inject_Z (2 ^ 2 - hamming [false; false; false; false]
                              [false; true; false; false])
         / inject_Z (2 ^ 2))%Q /\
    (0 <= q)%Q /\ (q <= 1)%Q /\
    ((q == 1)%Q <->
       np.packbits [false; false; false; false]
       = np.packbits [false; true; false; false]) /\
    ((q == 1)%Q <-> [false; false; false; false] = [false; true; false; false]) /\
    calculate_similarity two_band_processor ("A", "A")%string
    = ([], Ok ("A", "A", q')%string) /\
    (q' == 1)%Q.
Proof.
  apply (calculate_similarity_is_normalised_hamming two_band_processor).
  - reflexivity.
  - reflexivity.
  - reflexivity.
  - reflexivity.
  - reflexivity.
Defined.

(** ** Diagnostics of a walk *)

Lemma foldM_logs {S A} (P : S -> Prop) (Q : A -> Prop) (r : log_record)
    (body : S -> A -> M S) l s :
  (forall s x, P s ->
     exists lg s', body s x = (lg, Ok s') /\ P s' /\ (Q x -> r ∈ lg)) ->
  P s ->
  exists lg s', foldM body l s = (lg, Ok s') /\ P s' /\ (Exists Q l -> r ∈ lg).
Proof.
  intros Hbody. revert s. induction l as [|x l IH]; intros s Hs.
  - exists [], s. split; [done|]. split; [done|]. by intros ?%Exists_nil.
  - destruct (Hbody s x Hs) as (l1 & s1 & H1 & Hs1 & Hr1).
    destruct (IH s1 Hs1) as (l2 & s2 & H2 & Hs2 & Hr2).
    exists (l1 ++ l2), s2. rewrite foldM_cons.
    split; [by eapply bind_intro|]. split; [done|].
    intros [?|?]%Exists_cons; apply elem_of_app; auto.
Qed.

Lemma assign_labels_logs_missing thr self img_a img_b d m :
  PyDict.get img_a (signatures self) = None \/
  PyDict.get img_b (signatures self) = None ->
  store_valid self ->
  d ∈ hash_buckets_list self -> m ∈ PyDict.values d ->
  (img_a, img_b) ∈ zip m (drop 1 m) ->
  exists lg st',
    assign_labels thr self = (lg, Ok (st', labels st')) /\
    SignaturesNotFound (img_a, img_b) ∈ lg.
Proof.
  intros Hmiss Hsv Hd Hm Hab.
  set (P := fun s => store_valid s /\ signatures s = signatures self).
  set (r := SignaturesNotFound (img_a, img_b)).
  assert (forall s pair, P s ->
            exists lg s', link_pair thr false s pair = (lg, Ok s') /\ P s' /\
              (pair = (img_a, img_b) -> r ∈ lg)) as Hpair.
  { intros s pair [Hs Hsig].
    destruct (link_pair_total thr false s pair Hs) as (lg & s' & Hs' & Hv').
    exists lg, s'. split; [done|]. destruct pair as [a b].
    pose proof Hs' as (q & Hq & (_ & _ & _ & _ & Hsig') & _)%link_pair_Ok_inv.
    split; [split; [done|congruence]|].
    intros [= -> ->]. rewrite calculate_similarity_missing in Hq
      by (by rewrite Hsig).
    injection Hq as <-. apply list_elem_of_here. }
  assert (forall s m', P s ->
            exists lg s', walk_bucket thr false s m' = (lg, Ok s') /\ P s' /\
              ((img_a, img_b) ∈ zip m' (drop 1 m') -> r ∈ lg)) as Hbucket.
  { intros s m' Hs. unfold walk_bucket. case_decide as Hlen.
    - destruct (foldM_logs P (fun pair => pair = (img_a, img_b)) r
                  (link_pair thr false) (zip m' (drop 1 m')) s Hpair Hs)
        as (lg & s' & H & Hs' & Hr).
      exists lg, s'. split; [done|]. split; [done|].
      intros Hin. apply Hr, Exists_exists. eauto.
    - exists [], s. split; [done|]. split; [done|].
      destruct m' as [|? [|? ?]]; simpl in *; [by intros ?%elem_of_nil..|lia]. }
  assert (forall s d', P s ->
            exists lg s', walk_band thr false s d' = (lg, Ok s') /\ P s' /\
              ((exists m', m' ∈ PyDict.values d' /\
                           (img_a, img_b) ∈ zip m' (drop 1 m')) -> r ∈ lg))
    as Hband.
  { intros s d' Hs.
    destruct (foldM_logs P (fun m' => (img_a, img_b) ∈ zip m' (drop 1 m')) r
                (walk_bucket thr false) (PyDict.values d') s Hbucket Hs)
      as (lg & s' & H & Hs' & Hr).
    exists lg, s'. split; [done|]. split; [done|].
    intros (m' & ? & ?). apply Hr, Exists_exists. eauto. }
  destruct (foldM_logs P _ r (walk_band thr false) (hash_buckets_list self)
              self Hband ltac:(done))
    as (lg & s' & H & _ & Hr).
  exists lg, (_assign_labels_remaining_images s').
  unfold assign_labels, process_similarities. rewrite H. simpl.
  rewrite app_nil_r. split; [done|]. apply Hr, Exists_exists. eauto.
Qed.

(** C6. When either id of a pair is missing from the store, the scorer
    returns 0.0 and logs one diagnostic, without raising; the pair step of
    the walk returns with the same diagnostic and the store untouched; and
    when such a pair occurs in a bucket of a processor whose store is
    valid, [assign_labels] still returns, with the diagnostic in its log. *)
Theorem missing_signature_scores_zero self img_a img_b :
  PyDict.get img_a (signatures self) = None \/
  PyDict.get img_b (signatures self) = None ->
  calculate_similarity self (img_a, img_b)
  = ([SignaturesNotFound (img_a, img_b)], Ok (img_a, img_b, 0%Q)) /\
  (forall thr cs, exists self',
     link_pair thr cs self (img_a, img_b)
     = ([SignaturesNotFound (img_a, img_b)], Ok self') /\
     same_store self self') /\
  (forall thr d m,
     store_valid self ->
     d ∈ hash_buckets_list self -> m ∈ PyDict.values d ->
     (img_a, img_b) ∈ zip m (drop 1 m) ->
     exists lg st',
       assign_labels thr self = (lg, Ok (st', labels st')) /\
       SignaturesNotFound (img_a, img_b) ∈ lg).
Proof.
  intros Hmiss. pose proof (calculate_similarity_missing _ _ _ Hmiss) as Hcalc.
  split; [done|]. split.
  - intros thr cs. destruct (link_pair_Ok thr cs _ _ _ _ _ Hcalc) as [s' Hs'].
    exists s'. split; [done|]. by apply link_pair_extends in Hs' as [? _].
  - intros thr d m. by apply assign_labels_logs_missing.
Qed.

(** C6 on [processor_missing_D]. *)
Lemma missing_signature_scores_zero_witness :
  calculate_similarity processor_missing_D ("A", "D")%string
  = ([SignaturesNotFound ("A", "D")%string], Ok ("A", "D", 0%Q)%string) /\
  (forall thr cs, exists self',
     link_pair thr cs processor_missing_D ("A", "D")%string
     = ([SignaturesNotFound ("A", "D")%string], Ok self') /\
     same_store processor_missing_D self') /\
  (forall thr d m,
     store_valid processor_missing_D ->
     d ∈ hash_buckets_list processor_missing_D -> m ∈ PyDict.values d ->
     ("A", "D")%string ∈ zip m (drop 1 m) ->
     exists lg st',
       assign_labels thr processor_missing_D = (lg, Ok (st', labels st')) /\
       SignaturesNotFound ("A", "D")%string ∈ lg).
Proof.
  apply (missing_signature_scores_zero processor_missing_D).
  right. reflexivity.
Defined.

(** ** The top-level operation *)

(** C8. When the input directory is absent, or holds no file name with an
    image extension, [find_duplicates] returns the empty label mapping and
    the empty score list; nothing is raised, whatever the other arguments
    are, and the failure is logged. *)
Theorem find_duplicates_without_input
    (listdir : string -> option (list string))
    (calculate_signature : Z -> string -> option (list bool))
    input_dir thr hs b gen_socres :
  listdir input_dir = None \/
  (exists names, listdir input_dir = Some names /\
                 Forall (fun f => ~ is_image_file f) names) ->
  exists lg,
    find_duplicates listdir calculate_signature input_dir thr hs b gen_socres
    = (lg, Ok (∅, [])) /\
    (listdir input_dir = None ->
       lg = [DirectoryNotFound input_dir;
             ErrorMessage (DirectoryDoesNotExist input_dir)]) /\
    (is_Some (listdir input_dir) ->
       lg = [ErrorMessage (NoValidImages input_dir)]).
Proof.
  intros [Hdir|(names & Hdir & Hnone)]; unfold find_duplicates, get_image_files;
    rewrite Hdir.
  - eexists. split; [done|]. split; [done|]. by intros [? ?].
  - assert (filter (fun f => existsb (endswith (lower f)) image_extensions = true)
              names = []) as ->.
    { clear Hdir. induction Hnone as [|f names Hf _ IH]; [done|].
      rewrite filter_cons_False by exact Hf. exact IH. }
    eexists. split; [done|]. split; [done|]. done.
Qed.

(** C8 on a directory that is absent. *)
Lemma find_duplicates_without_input_witness :
  exists lg,
    find_duplicates no_directory no_signature "data" (4 # 5) 16 16 true
    = (lg, Ok (∅, [])) /\
    (no_directory "data" = None ->
       lg = [DirectoryNotFound "data";
             ErrorMessage (DirectoryDoesNotExist "data")]) /\
    (is_Some (no_directory "data") ->
       lg = [ErrorMessage (NoValidImages "data")]).
Proof.
  apply (find_duplicates_without_input no_directory no_signature).
  left. reflexivity.
Defined.

(** ** Bands that do not divide the signature *)

Lemma py_slice_nonneg {A} (l : list A) lo hi :
  0 <= lo <= hi ->
  py_slice l lo hi = take (Z.to_nat (hi - lo)) (drop (Z.to_nat lo) l).
Proof.
  intros Hlohi. unfold py_slice, slice_bound.
  rewrite (proj2 (Z.ltb_ge lo 0)), (proj2 (Z.ltb_ge hi 0)) by lia.
  destruct (decide (lo <= Z.of_nat (length l))) as [Hlo|Hlo].
  - rewrite (Z.min_l lo) by done.
    destruct (decide (hi <= Z.of_nat (length l))) as [Hhi|Hhi].
    + by rewrite Z.min_l.
    + rewrite Z.min_r by lia.
      rewrite !take_ge; [done|rewrite length_drop; lia..].
  - rewrite (Z.min_r lo), (Z.min_r hi) by lia. rewrite Nat2Z.id.
    rewrite (drop_ge l (length l)) by lia.
    rewrite (drop_ge l (Z.to_nat lo)) by lia. by rewrite !take_nil.
Qed.

(** A band key only reads the bits below the end of its band. *)
Lemma band_key_prefix rows b s s' i :
  0 <= rows -> 0 <= i < b ->
  take (Z.to_nat (b * rows)) s = take (Z.to_nat (b * rows)) s' ->
  band_key rows s i = band_key rows s' i.
Proof.
  intros Hrows Hi Hpre. unfold band_key. f_equal.
  rewrite !py_slice_nonneg by nia.
  rewrite !take_drop_commute.
  replace (Z.to_nat (i * rows) + Z.to_nat ((i + 1) * rows - i * rows))%nat
    with (Z.to_nat ((i + 1) * rows)) by nia.
  assert (forall t : list bool,
            take (Z.to_nat ((i + 1) * rows)) t
            = take (Z.to_nat ((i + 1) * rows)) (take (Z.to_nat (b * rows)) t))
    as Htake.
  { intros t. rewrite take_take. f_equal. nia. }
  by rewrite (Htake s), (Htake s'), Hpre.
Qed.

Lemma band_key_no_rows s i : band_key 0 s i = [].
Proof.
  unfold band_key. rewrite !Z.mul_0_r, py_slice_nonneg by lia. done.
Qed.

Lemma bucket_put_one_bucket file_path ids :
  bucket_put [] file_path (one_bucket ids) = one_bucket (ids ++ [file_path]).
Proof. by destruct ids. Qed.

(** With no rows, every band keeps a single bucket. *)
Lemma add_all_one_bucket adds ids s lg s' :
  rows s = 0 -> buckets_ok s ->
  (forall d, d ∈ hash_buckets_list s -> d = one_bucket ids) ->
  add_all adds s = (lg, Ok s') ->
  length (hash_buckets_list s') = Z.to_nat (bands s) /\
  forall d, d ∈ hash_buckets_list s' -> d = one_bucket (ids ++ inserted adds).
Proof.
  revert ids s lg. induction adds as [|[id [x|]] adds IH]; intros ids s lg Hr Hok Hone.
  - intros [= _ <-]. unfold inserted. simpl. by rewrite app_nil_r.
  - change (add_all ((id, Some x) :: adds) s)
      with (bind (add_signature s id (Some x)) (add_all adds)).
    rewrite add_signature_ret, bind_ret_l by done. intros Hrest.
    apply IH with (ids := ids ++ [id]) in Hrest as [Hlen Hall].
    + split; [done|]. intros d Hd. rewrite (Hall d Hd).
      unfold inserted. rewrite filter_cons_True by (simpl; eauto).
      simpl. by rewrite <- app_assoc.
    + done.
    + unfold buckets_ok in *. simpl. by rewrite length_imap.
    + simpl. intros d (k & d0 & Hd0 & ->)%elem_of_imap.
      rewrite Hr, band_key_no_rows.
      rewrite (Hone d0) by (by eapply list_elem_of_lookup_2).
      apply bucket_put_one_bucket.
  - change (add_all ((id, None) :: adds) s) with (bind (ret s) (add_all adds)).
    rewrite bind_ret_l. intros Hrest.
    apply IH with (ids := ids) in Hrest as [Hlen Hall]; [|done..].
    split; [done|]. intros d Hd. rewrite (Hall d Hd).
    unfold inserted. by rewrite filter_cons_False by (simpl; by intros [? ?]).
Qed.

Lemma add_all_keeps_config adds s lg s' :
  buckets_ok s -> add_all adds s = (lg, Ok s') ->
  buckets_ok s' /\ bands s' = bands s /\ rows s' = rows s.
Proof.
  revert s lg. induction adds as [|[id [x|]] adds IH]; intros s lg Hok.
  - by intros [= _ <-].
  - change (add_all ((id, Some x) :: adds) s)
      with (bind (add_signature s id (Some x)) (add_all adds)).
    rewrite add_signature_ret, bind_ret_l by done. intros Hrest.
    apply IH in Hrest; [done|]. unfold buckets_ok in *. simpl.
    by rewrite length_imap.
  - change (add_all ((id, None) :: adds) s) with (bind (ret s) (add_all adds)).
    rewrite bind_ret_l. by apply IH.
Qed.

(** C10. When [bands] does not divide [hash_size ^ 2], both positive:
    construction returns, with [rows] the floor of the quotient; every
    sequence of insertions returns; the bucket maps after an insertion
    depend only on the first [bands * rows] bits of the signature, so the
    trailing bits are ignored; and when [bands] exceeds [hash_size ^ 2]
    there are no rows, and each band has a single bucket, under the empty
    key, holding every inserted id in order. *)
Theorem uneven_bands_truncate hs b :
  0 < hs -> 0 < b -> (hs ^ 2) mod b <> 0 ->
  exists self,
    __init__ hs b = ([], Ok self) /\
    rows self = hs ^ 2 `div` b /\
    b * rows self < hs ^ 2 < b * (rows self + 1) /\
    (forall adds, exists self', add_all adds self = ([], Ok self')) /\
    (forall adds self' file_path s s' st1 st2,
       add_all adds self = ([], Ok self') ->
       take (Z.to_nat (b * rows self)) s = take (Z.to_nat (b * rows self)) s' ->
       add_signature self' file_path (Some s) = ([], Ok st1) ->
       add_signature self' file_path (Some s') = ([], Ok st2) ->
       hash_buckets_list st1 = hash_buckets_list st2) /\
    (hs ^ 2 < b ->
       rows self = 0 /\
       forall adds self',
         add_all adds self = ([], Ok self') ->
         length (hash_buckets_list self') = Z.to_nat b /\
         forall d, d ∈ hash_buckets_list self' -> d = one_bucket (inserted adds)).
Proof.
  intros Hhs Hb Hmod.
  destruct (init_Ok hs b ltac:(lia)) as (self & Hinit & _ & Hbs & Hrows & Hbl & _).
  assert (buckets_ok self) as Hok.
  { unfold buckets_ok. by rewrite Hbl, length_replicate, Hbs. }
  exists self. split; [done|]. split; [done|].
  pose proof (Z.div_mod (hs ^ 2) b ltac:(lia)) as Hdm.
  pose proof (Z.mod_pos_bound (hs ^ 2) b Hb) as Hbound.
  split; [rewrite Hrows; lia|]. split; [|split].
  - intros adds. destruct (add_all_Ok adds self Hok) as (s' & Hs' & _). eauto.
  - intros adds self' fp s s' st1 st2 Hadds Hpre.
    destruct (add_all_keeps_config _ _ _ _ Hok Hadds) as (Hok' & Hbs' & Hrows').
    rewrite !add_signature_ret by done. intros [= <-] [= <-]. simpl.
    apply imap_ext. intros k d Hk%lookup_lt_Some. f_equal.
    unfold buckets_ok in Hok'. rewrite Hrows'.
    apply (band_key_prefix _ b); [|lia|done].
    rewrite Hrows. by apply Z.div_pos; lia.
  - intros Hsmall.
    assert (rows self = 0) as Hr0.
    { rewrite Hrows. apply Z.div_small. nia. }
    split; [done|]. intros adds self' Hadds.
    rewrite <- Hbs.
    apply (add_all_one_bucket adds [] self [] self' Hr0 Hok); [|done].
    intros d Hd. rewrite Hbl in Hd. by apply elem_of_replicate in Hd as [-> _].
Qed.

(** C10 at [hash_size = 2] with three bands, which do not divide 4. *)
Lemma uneven_bands_truncate_witness :
  exists self,
    __init__ 2 3 = ([], Ok self) /\
    rows self = 2 ^ 2 `div` 3 /\
    3 * rows self < 2 ^ 2 < 3 * (rows self + 1) /\
    (forall adds, exists self', add_all adds self = ([], Ok self')) /\
    (forall adds self' file_path s s' st1 st2,
       add_all adds self = ([], Ok self') ->
       take (Z.to_nat (3 * rows self)) s = take (Z.to_nat (3 * rows self)) s' ->
       add_signature self' file_path (Some s) = ([], Ok st1) ->
       add_signature self' file_path (Some s') = ([], Ok st2) ->
       hash_buckets_list st1 = hash_buckets_list st2) /\
    (2 ^ 2 < 3 ->
       rows self = 0 /\
       forall adds self',
         add_all adds self = ([], Ok self') ->
         length (hash_buckets_list self') = Z.to_nat 3 /\
         forall d, d ∈ hash_buckets_list self' -> d = one_bucket (inserted adds)).
Proof.
  apply (uneven_bands_truncate 2 3).
  - reflexivity.
  - reflexivity.
  - vm_compute. discriminate.
Defined.

(** * Further properties *)

(** ** The scorer is symmetric *)

Lemma zip_xorb_comm x y : zip_with xorb x y = zip_with xorb y x.
Proof.
  revert y. induction x as [|b x IH]; intros [|c y]; simpl; try done.
  by rewrite xorb_comm, IH.
Qed.

Lemma not_equal_comm x y : np.not_equal x y = np.not_equal y x.
Proof.
  unfold np.not_equal.
  destruct (decide (length x = length y)) as [Hxy|Hxy].
  - rewrite decide_True by done. by rewrite zip_xorb_comm.
  - by rewrite decide_False by congruence.
Qed.

(** X1. Scoring [(a, b)] and scoring [(b, a)] end alike: both return the
    same score, or both raise the same exception. *)
Theorem calculate_similarity_symmetric self a b :
  match (calculate_similarity self (a, b)).2,
        (calculate_similarity self (b, a)).2 with
  | Ok (_, _, q), Ok (_, _, q') => q = q'
  | Raise e, Raise e' => e = e'
  | _, _ => False
  end.
Proof.
  unfold calculate_similarity.
  destruct (PyDict.get a (signatures self)) as [pa|],
    (PyDict.get b (signatures self)) as [pb|]; simpl; try done.
  rewrite (not_equal_comm (np.unpackbits pb)).
  destruct (np.not_equal (np.unpackbits pa) (np.unpackbits pb)); simpl; [|done].
  by destruct (decide (hash_size self ^ 2 = 0)).
Qed.

(** ** The labels in use are 0, 1, ..., counter - 1 *)

Lemma label_step_dense thr cs s s' :
  label_step thr cs s s' -> labels_dense s -> labels_dense s'.
Proof.
  intros Hstep [Hc Hd].
  assert (forall id l, labels s !! id = Some l -> 0 <= l < label_counter s) as Hin
    by (intros; apply Hd; eauto).
  destruct Hstep as [s0 [a b] lg s1 Hstep|s0 fp].
  - apply link_pair_Ok_inv in Hstep as (q & _ & _ & Hq).
    destruct (Qle_bool thr q); [|by subst]. destruct Hq as [HL Hc'].
    pose proof (link_labels_subseteq (labels s0) (label_counter s0) a b) as Hsub.
    rewrite map_subseteq_spec in Hsub.
    split; [rewrite Hc'; destruct (labels s0 !! a); lia|].
    intros l. rewrite HL, Hc'. split.
    + intros [id [Hid|(_ & _ & ->)]%link_labels_lookup].
      * apply Hin in Hid. destruct (labels s0 !! a); lia.
      * destruct (labels s0 !! a) as [la|] eqn:Ha; simpl; [by eapply Hin|lia].
    + intros Hl. destruct (decide (l < label_counter s0)) as [Hlt|Hge].
      * destruct (proj2 (Hd l) ltac:(lia)) as [id Hid]. exists id. by apply Hsub.
      * exists a. rewrite link_labels_a.
        destruct (labels s0 !! a) as [la|] eqn:Ha; simpl; [lia|f_equal; lia].
  - unfold label_remaining.
    destruct (labels s0 !! fp) as [l0|] eqn:Hfp; [done|].
    split; simpl; [lia|]. intros l. split.
    + intros [id Hid]. rewrite lookup_insert in Hid. case_decide.
      * injection Hid as <-. lia.
      * apply Hin in Hid. lia.
    + intros Hl. destruct (decide (l < label_counter s0)) as [Hlt|Hge].
      * destruct (proj2 (Hd l) ltac:(lia)) as [id Hid]. exists id.
        rewrite lookup_insert_ne; [done|congruence].
      * exists fp. rewrite lookup_insert_eq. f_equal. lia.
Qed.

Lemma label_steps_dense thr cs s s' :
  rtc (label_step thr cs) s s' -> labels_dense s -> labels_dense s'.
Proof.
  induction 1 as [|s1 s2 s3 H12 _ IH]; [done|].
  intros Hd. by eapply IH, label_step_dense.
Qed.

(** X2. On a processor that starts with no label and the counter at 0,
    the labels [assign_labels] returns are exactly 0, 1, ..., k - 1, where
    k is the final value of the counter: each of them is the label of
    some id, and no id has another label. *)
Theorem assign_labels_labels_are_dense thr self lg st' lbls :
  labels self = ∅ -> label_counter self = 0 ->
  assign_labels thr self = (lg, Ok (st', lbls)) ->
  forall l, (exists id, lbls !! id = Some l) <-> 0 <= l < label_counter st'.
Proof.
  intros HL Hc Hrun.
  pose proof Hrun as (_ & _ & _ & ->)%assign_labels_Ok_inv.
  apply assign_labels_steps in Hrun.
  apply (label_steps_dense _ _ _ _ Hrun).
  split; [lia|]. intros l. rewrite HL, Hc. split; [|lia].
  intros [id Hid]. by rewrite lookup_empty in Hid.
Qed.

(** X2 on [two_band_processor] with threshold 1/2. *)
Lemma assign_labels_labels_are_dense_witness :
  exists lg st' lbls,
    assign_labels (1 # 2) two_band_processor = (lg, Ok (st', lbls)) /\
    forall l, (exists id, lbls !! id = Some l) <-> 0 <= l < label_counter st'.
Proof.
  eexists _, _, _. split; [vm_compute; reflexivity|].
  eapply (assign_labels_labels_are_dense (1 # 2) two_band_processor).
  - reflexivity.
  - reflexivity.
  - vm_compute; reflexivity.
Defined.
(** ** Equal labels come from links *)

Lemma calculate_similarity_same_store s s' pair :
  same_store s s' -> calculate_similarity s' pair = calculate_similarity s pair.
Proof.
  intros (Hhs & _ & _ & _ & Hsig). unfold calculate_similarity.
  by rewrite Hhs, Hsig.
Qed.

Lemma link_pair_classes thr cs self s a b lg s' :
  candidate self a b -> same_store self s ->
  labels_below_counter s -> classes_linked thr self s ->
  link_pair thr cs s (a, b) = (lg, Ok s') ->
  classes_linked thr self s'.
Proof.
  intros Hcand Hsame Hbelow Hcl (q & Hq & _ & Hif)%link_pair_Ok_inv.
  destruct (Qle_bool thr q) eqn:Hpass; [|by subst]. destruct Hif as [HL _].
  assert (linked thr self a b) as Hab.
  { split; [done|]. exists lg, q.
    by rewrite <- (calculate_similarity_same_store self s). }
  set (la := default (label_counter s) (labels s !! a)).
  (* whoever carries the label of [a] afterwards is connected to [a] *)
  assert (forall z, labels s' !! z = Some la -> rtsc (linked thr self) a z) as Hla.
  { intros z Hz. rewrite HL in Hz.
    apply link_labels_lookup in Hz as [Hz|(_ & [->| ->] & _)].
    - destruct (labels s !! a) as [l0|] eqn:Ha.
      + by apply (Hcl a z l0).
      + apply Hbelow in Hz. unfold la in Hz. simpl in Hz. lia.
    - done.
    - by apply rtsc_lr. }
  intros x y l Hx Hy. destruct (decide (l = la)) as [->|Hne].
  - etrans; [|by apply Hla]. symmetry. by apply Hla.
  - rewrite HL in Hx, Hy.
    apply link_labels_lookup in Hx as [Hx|(_ & _ & ?)]; [|done].
    apply link_labels_lookup in Hy as [Hy|(_ & _ & ?)]; [|done].
    by apply (Hcl x y l).
Qed.

Lemma label_remaining_classes thr self s fp :
  labels_below_counter s -> classes_linked thr self s ->
  classes_linked thr self (label_remaining s fp).
Proof.
  intros Hbelow Hcl. unfold label_remaining.
  destruct (labels s !! fp) as [l0|] eqn:Hfp; [done|].
  intros x y l. simpl. rewrite !lookup_insert.
  repeat case_decide; subst.
  - done.
  - intros [= <-] Hy%Hbelow. lia.
  - intros Hx%Hbelow [= <-]. lia.
  - apply Hcl.
Qed.

Lemma walk_bands_classes thr cs self bl s lg s' :
  (forall d, d ∈ bl -> d ∈ hash_buckets_list self) ->
  same_store self s -> labels_below_counter s -> classes_linked thr self s ->
  foldM (walk_band thr cs) bl s = (lg, Ok s') ->
  same_store self s' /\ labels_below_counter s' /\ classes_linked thr self s'.
Proof.
  intros Hbl Hsame Hbelow Hcl.
  set (P := fun s => same_store self s /\ labels_below_counter s /\
                     classes_linked thr self s).
  apply (foldM_invariant P); [|done]. intros s1 d l1 s2 Hd.
  apply (foldM_invariant P). intros s3 m l3 s4 Hm.
  unfold walk_bucket. case_decide; [|by intros ? [= _ <-]].
  apply (foldM_invariant P). intros s5 [a b] l5 s6 Hab (Hs5 & Hb5 & Hc5) Hstep.
  pose proof (link_pair_extends _ _ _ _ _ _ Hstep) as (Hst & _ & _ & Hb6).
  split; [by eapply same_store_trans|]. split; [by apply Hb6|].
  eapply link_pair_classes; [|done..]. exists d, m. auto.
Qed.

Lemma remaining_classes thr self file_paths s :
  labels_below_counter s -> classes_linked thr self s ->
  classes_linked thr self (fold_left label_remaining file_paths s).
Proof.
  revert s. induction file_paths as [|fp l IH]; intros s Hb Hcl; [done|].
  simpl. apply IH.
  - by apply (label_remaining_extends s fp).
  - by apply label_remaining_classes.
Qed.

(** X3. On a processor that starts with no label, two ids end with the
    same label only if they are connected by a chain of links: pairs of
    neighbours in some bucket whose score reaches the threshold. *)
Theorem equal_labels_are_linked thr self lg st' lbls x y l :
  labels self = ∅ ->
  assign_labels thr self = (lg, Ok (st', lbls)) ->
  lbls !! x = Some l -> lbls !! y = Some l ->
  rtsc (linked thr self) x y.
Proof.
  intros HL (s1 & H1 & -> & ->)%assign_labels_Ok_inv.
  assert (labels_below_counter self) as Hb0
    by (intros id l0; by rewrite HL, lookup_empty).
  assert (classes_linked thr self self) as Hc0
    by (intros ? ? ?; by rewrite HL, lookup_empty).
  destruct (walk_bands_classes thr false self _ self _ _ ltac:(done)
              (same_store_refl self) Hb0 Hc0 H1) as (_ & Hb1 & Hc1).
  by apply (remaining_classes thr self _ s1 Hb1 Hc1).
Qed.

(** X3 on [two_band_processor] with threshold 1/2: A and C end with the
    label 0. *)
Lemma equal_labels_are_linked_witness :
  exists lg st' lbls,
    assign_labels (1 # 2) two_band_processor = (lg, Ok (st', lbls)) /\
    rtsc (linked (1 # 2) two_band_processor) "A"%string "C"%string.
Proof.
  eexists _, _, _. split; [vm_compute; reflexivity|].
  eapply (equal_labels_are_linked (1 # 2) two_band_processor _ _ _ _ _ 0).
  - reflexivity.
  - vm_compute; reflexivity.
  - vm_compute; reflexivity.
  - vm_compute; reflexivity.
Defined.
(** ** A threshold no score reaches *)

Lemma keys_set_new {K V} `{EqDecision K} (k : K) (v : V) (d : PyDict.t K V) :
  PyDict.get k d = None -> PyDict.keys (PyDict.set k v d) = PyDict.keys d ++ [k].
Proof.
  unfold PyDict.keys. induction d as [|[k' v'] d IH]; csimpl; [done|].
  destruct (decide (k = k')) as [->|Hne]; [done|].
  intros Hd. csimpl. by rewrite IH.
Qed.

(** The store lists distinct ids in the order of their insertion. *)
Lemma add_all_keys adds s lg s' :
  buckets_ok s ->
  NoDup (PyDict.keys (signatures s) ++ inserted adds) ->
  add_all adds s = (lg, Ok s') ->
  PyDict.keys (signatures s') = PyDict.keys (signatures s) ++ inserted adds.
Proof.
  revert s lg. induction adds as [|[id [x|]] adds IH]; intros s lg Hok Hnd.
  - intros [= _ <-]. unfold inserted. simpl. by rewrite app_nil_r.
  - change (add_all ((id, Some x) :: adds) s)
      with (bind (add_signature s id (Some x)) (add_all adds)).
    rewrite add_signature_ret, bind_ret_l by done.
    unfold inserted in *. rewrite filter_cons_True in * by (simpl; eauto).
    simpl in Hnd. intros Hrest. apply IH in Hrest.
    + rewrite Hrest. simpl. rewrite keys_set_new, <- app_assoc; [done|].
      apply eq_None_not_Some. rewrite <- elem_of_keys.
      apply NoDup_app in Hnd as (_ & Hdisj & _).
      intros Hin. apply (Hdisj _ Hin), list_elem_of_here.
    + unfold buckets_ok in *. simpl. by rewrite length_imap.
    + simpl. rewrite keys_set_new, <- app_assoc; [done|].
      apply eq_None_not_Some. rewrite <- elem_of_keys.
      apply NoDup_app in Hnd as (_ & Hdisj & _).
      intros Hin. apply (Hdisj _ Hin), list_elem_of_here.
  - change (add_all ((id, None) :: adds) s) with (bind (ret s) (add_all adds)).
    rewrite bind_ret_l. unfold inserted in *.
    rewrite filter_cons_False in * by (simpl; by intros [? ?]). by apply IH.
Qed.

Lemma filled_keys hs b adds lg s :
  NoDup (inserted adds) ->
  filled hs b adds = (lg, Ok s) ->
  PyDict.keys (signatures s) = inserted adds.
Proof.
  intros Hnd Hs. pose proof (filled_Ok_inv _ _ _ _ _ Hs) as Hb.
  destruct (init_Ok hs b Hb) as (s0 & H0 & _ & Hbs & _ & Hbl & Hsig & _).
  unfold filled in Hs.
  apply bind_Ok in Hs as (? & ? & l1 & Hinit & Hs & _).
  rewrite H0 in Hinit. injection Hinit as <- <-.
  apply add_all_keys in Hs; rewrite ?Hsig in *; try done.
  unfold buckets_ok. by rewrite Hbl, length_replicate, Hbs.
Qed.

Lemma foldM_unchanged {S A} (P : S -> Prop) (body : S -> A -> M S) l s :
  (forall s x, P s -> exists lg, body s x = (lg, Ok s)) ->
  P s -> exists lg, foldM body l s = (lg, Ok s).
Proof.
  intros Hbody Hs. induction l as [|x l [l2 IH]]; [by exists []|].
  destruct (Hbody s x Hs) as [l1 H1]. exists (l1 ++ l2).
  rewrite foldM_cons. by eapply bind_intro.
Qed.

Lemma link_pair_below thr cs s pair :
  store_valid s -> (1 < thr)%Q ->
  exists lg, link_pair thr cs s pair = (lg, Ok s).
Proof.
  intros Hs Hthr.
  destruct (calculate_similarity_total s pair Hs) as (lg & q & Hq & _ & Hq1).
  exists lg. unfold link_pair. rewrite Hq. simpl.
  assert (Qle_bool thr q = false) as ->.
  { apply not_true_is_false. intros Hle%Qle_bool_iff.
    apply (Qlt_not_le _ _ Hthr). by apply (Qle_trans _ q). }
  simpl. by rewrite app_nil_r.
Qed.

Lemma process_similarities_below thr cs s :
  store_valid s -> (1 < thr)%Q ->
  exists lg, process_similarities thr cs s = (lg, Ok s).
Proof.
  intros Hs Hthr. unfold process_similarities.
  apply (foldM_unchanged store_valid); [|done]. intros s1 d Hs1.
  apply (foldM_unchanged store_valid); [|done]. intros s2 m Hs2.
  unfold walk_bucket. case_decide; [|by exists []].
  apply (foldM_unchanged store_valid); [|done]. intros s3 pair Hs3.
  by apply link_pair_below.
Qed.

(** Distinct unlabelled ids get the next values of the counter, in order. *)
Lemma remaining_positions ids s :
  NoDup ids -> (forall id, id ∈ ids -> labels s !! id = None) ->
  label_counter (fold_left label_remaining ids s)
  = label_counter s + Z.of_nat (length ids) /\
  (forall i id, ids !! i = Some id ->
     labels (fold_left label_remaining ids s) !! id
     = Some (label_counter s + Z.of_nat i)) /\
  (forall k, k ∉ ids ->
     labels (fold_left label_remaining ids s) !! k = labels s !! k).
Proof.
  revert s. induction ids as [|id ids IH]; intros s Hnd Hnone.
  - simpl. split; [lia|]. split; [|done]. by intros [|?] ?.
  - apply NoDup_cons in Hnd as [Hid Hnd]. simpl.
    assert (label_remaining s id
            = with_label_counter
                (with_labels s (<[id := label_counter s]> (labels s)))
                (label_counter s + 1)) as ->.
    { unfold label_remaining. by rewrite (Hnone id (list_elem_of_here _ _)). }
    set (s1 := with_label_counter _ _).
    destruct (IH s1 Hnd) as (Hc & Hpos & Hout).
    { intros k Hk. simpl. rewrite lookup_insert_ne by (by intros ->).
      by apply Hnone, list_elem_of_further. }
    split; [rewrite Hc; simpl; lia|]. split.
    + intros [|i] k Hk.
      * injection Hk as ->. rewrite Hout by done. simpl.
        rewrite lookup_insert_eq. f_equal. lia.
      * rewrite (Hpos i k Hk). simpl. f_equal. lia.
    + intros k Hk. apply not_elem_of_cons in Hk as [Hne Hk].
      rewrite Hout by done. simpl. by rewrite lookup_insert_ne.
Qed.

(** X4. With a threshold above 1, a run over distinct ids with signatures
    of length [hash_size ^ 2] links nothing: it returns, and the i-th
    inserted id gets the label i, so every image is alone in its class. *)
Theorem threshold_above_one_labels_by_position hs b thr adds :
  0 < hs -> b <> 0 -> valid_adds hs adds -> NoDup (inserted adds) ->
  (1 < thr)%Q ->
  exists lg st lbls,
    labeling_run hs b thr adds = (lg, Ok (st, lbls)) /\
    label_counter st = Z.of_nat (length (inserted adds)) /\
    forall i id, inserted adds !! i = Some id -> lbls !! id = Some (Z.of_nat i).
Proof.
  intros Hhs Hb Hv Hnd Hthr.
  destruct (filled_Ok hs b adds Hb) as (s & Hs & Hinv & Hsv).
  specialize (Hsv Hv ltac:(lia)).
  destruct Hinv as (_ & _ & _ & _ & HL & Hc & _).
  destruct (process_similarities_below thr false s Hsv Hthr) as [lg Hp].
  pose proof (filled_keys _ _ _ _ _ Hnd Hs) as Hkeys.
  destruct (remaining_positions (inserted adds) s Hnd) as (Hc' & Hpos & _).
  { intros id _. by rewrite HL. }
  exists lg, (_assign_labels_remaining_images s),
    (labels (_assign_labels_remaining_images s)).
  unfold _assign_labels_remaining_images. rewrite Hkeys.
  split; [|split].
  - unfold labeling_run. eapply (bind_intro _ _ [] _ lg); [done|].
    unfold assign_labels. rewrite Hp. simpl.
    unfold _assign_labels_remaining_images. by rewrite Hkeys, app_nil_r.
  - rewrite Hc', Hc. lia.
  - intros i id Hi. by rewrite (Hpos i id Hi), Hc.
Qed.

(** X4 on [three_images] with threshold 2. *)
Lemma threshold_above_one_labels_by_position_witness :
  exists lg st lbls,
    labeling_run 2 2 2 three_images = (lg, Ok (st, lbls)) /\
    label_counter st = Z.of_nat (length (inserted three_images)) /\
    forall i id, inserted three_images !! i = Some id ->
                 lbls !! id = Some (Z.of_nat i).
Proof.
  apply (threshold_above_one_labels_by_position 2 2 2 three_images).
  - reflexivity.
  - discriminate.
  - intros id s Hin. unfold three_images in Hin.
    rewrite !elem_of_cons, elem_of_nil in Hin.
    destruct Hin as [Hin|[Hin|[Hin|Hin]]];
      [injection Hin as _ Hs; by rewrite Hs..|done].
  - apply (bool_decide_unpack _). vm_compute. exact I.
  - reflexivity.
Defined.
(** ** The collected scores *)

Lemma link_pair_scores thr cs s a b lg s' :
  link_pair thr cs s (a, b) = (lg, Ok s') ->
  exists q, calculate_similarity s (a, b) = (lg, Ok (a, b, q)) /\
    similarity_scores s'
    = if Qle_bool thr q && cs
      then similarity_scores s ++ [(a, b, q)]
      else similarity_scores s.
Proof.
  unfold link_pair.
  destruct (calculate_similarity s (a, b)) as [l [r|e]] eqn:Hcalc; [|done].
  destruct (calculate_similarity_Ok_inv _ _ _ _ _ Hcalc) as [q ->].
  unfold bind at 1. intros H. exists q. revert H.
  destruct (Qle_bool thr q).
  - destruct (labels s !! a) as [la|] eqn:Ha.
    + rewrite Ha. destruct (labels s !! b) as [lb|] eqn:Hb; simpl;
        intros [= <- <-]; rewrite app_nil_r; destruct cs; done.
    + cbn [labels with_label_counter with_labels]. rewrite lookup_insert_eq.
      destruct (<[a:=label_counter s]> (labels s) !! b) as [lb|] eqn:Hb; simpl;
        intros [= <- <-]; rewrite app_nil_r; destruct cs; done.
  - simpl. intros [= <- <-]. by rewrite app_nil_r.
Qed.

Lemma omap_cons_option {A B} (f : A -> option B) x l :
  omap f (x :: l) = option_list (f x) ++ omap f l.
Proof. simpl. by destruct (f x). Qed.

(** A loop whose every iteration appends [g x] to the scores. *)
Lemma foldM_appends {A} (self : LSHProcessor)
    (g : A -> list (string * string * Q))
    (body : LSHProcessor -> A -> M LSHProcessor) l s lg s' :
  (forall s x lg s', same_store self s -> body s x = (lg, Ok s') ->
     same_store self s' /\ similarity_scores s' = similarity_scores s ++ g x) ->
  same_store self s ->
  foldM body l s = (lg, Ok s') ->
  same_store self s' /\ similarity_scores s' = similarity_scores s ++ (l ≫= g).
Proof.
  intros Hbody. revert s lg. induction l as [|x l IH]; intros s lg Hs.
  - intros [= _ <-]. by rewrite app_nil_r.
  - rewrite foldM_cons. intros (l1 & s1 & l2 & H1 & H2 & _)%bind_Ok.
    destruct (Hbody _ _ _ _ Hs H1) as [Hs1 Hsc1].
    destruct (IH _ _ Hs1 H2) as [Hs2 Hsc2].
    split; [done|]. by rewrite Hsc2, Hsc1, bind_cons, app_assoc.
Qed.

Lemma list_bind_bind {A B C} (f : A -> list B) (g : B -> list C) (l : list A) :
  (l ≫= f) ≫= g = l ≫= fun x => f x ≫= g.
Proof.
  induction l as [|x l IH]; [done|]. by rewrite !bind_cons, bind_app, IH.
Qed.

Lemma process_similarities_scores thr cs self lg s' :
  process_similarities thr cs self = (lg, Ok s') ->
  similarity_scores s'
  = similarity_scores self
    ++ (if cs then omap (passing_score thr self) (candidate_pairs self) else []).
Proof.
  set (g1 := fun pair : string * string =>
               if cs then option_list (passing_score thr self pair) else []).
  set (g2 := fun m : list string => zip m (drop 1 m) ≫= g1).
  set (g3 := fun d : PyDict.t (list Z) (list string) => PyDict.values d ≫= g2).
  intros Hp.
  assert (similarity_scores s'
          = similarity_scores self ++ (hash_buckets_list self ≫= g3)) as ->.
  { unfold process_similarities in Hp.
    eapply (foldM_appends self g3); [|apply same_store_refl|exact Hp].
    intros s1 d l1 s2 Hs1. unfold walk_band.
    apply (foldM_appends self g2); [|done].
    intros s3 m l3 s4 Hs3. unfold walk_bucket. case_decide as Hlen.
    - apply (foldM_appends self g1); [|done].
      intros s5 [a b] l5 s6 Hs5 Hstep.
      pose proof (link_pair_extends _ _ _ _ _ _ Hstep) as (Hst & _).
      split; [by eapply same_store_trans|].
      apply link_pair_scores in Hstep as (q & Hq & ->).
      rewrite (calculate_similarity_same_store self s5) in Hq by done.
      unfold g1, passing_score. rewrite Hq.
      destruct (Qle_bool thr q), cs; simpl; by rewrite ?app_nil_r.
    - intros [= _ <-]. split; [done|]. unfold g2.
      destruct m as [|? [|? ?]]; simpl in *; [by rewrite app_nil_r..|lia]. }
  f_equal.
  assert (hash_buckets_list self ≫= g3 = candidate_pairs self ≫= g1) as ->.
  { unfold candidate_pairs. rewrite list_bind_bind.
    apply list_bind_ext; [|done]. intros d. by rewrite list_bind_bind. }
  unfold g1. destruct cs.
  - induction (candidate_pairs self) as [|p l IH]; [done|].
    by rewrite bind_cons, omap_cons_option, IH.
  - induction (candidate_pairs self) as [|p l IH]; [done|].
    by rewrite bind_cons, IH.
Qed.

(** X5. [get_similarity_scores] returns the scores the processor already
    held followed by one triple for each consecutive pair of each
    bucket, in the order of the walk, whose score reaches the threshold;
    a walk that does not collect leaves the list as it is. So every
    collected score is at least the threshold, and a second call appends
    the same triples again. *)
Theorem get_similarity_scores_collects thr self :
  (forall lg s' scores,
     get_similarity_scores thr self = (lg, Ok (s', scores)) ->
     scores = similarity_scores s' /\
     scores = similarity_scores self
              ++ omap (passing_score thr self) (candidate_pairs self)) /\
  (forall lg s',
     process_similarities thr false self = (lg, Ok s') ->
     similarity_scores s' = similarity_scores self) /\
  (forall a b q,
     (a, b, q) ∈ omap (passing_score thr self) (candidate_pairs self) ->
     Qle_bool thr q = true /\ (a, b) ∈ candidate_pairs self).
Proof.
  split; [|split].
  - intros lg s' scores. unfold get_similarity_scores.
    intros (l1 & s1 & l2 & H1 & [= <- <- <-] & _)%bind_Ok.
    split; [done|]. by apply process_similarities_scores in H1.
  - intros lg s' Hp%process_similarities_scores. by rewrite app_nil_r in Hp.
  - intros a b q ([a' b'] & Hin & Hsc)%list_elem_of_omap.
    unfold passing_score in Hsc.
    destruct (calculate_similarity self (a', b')) as [l [r|e]] eqn:Hcalc; [|done].
    destruct (calculate_similarity_Ok_inv _ _ _ _ _ Hcalc) as [q' ->].
    destruct (Qle_bool thr q') eqn:Hq; [|done]. by injection Hsc as <- <- <-.
Qed.
(** The scores collected on [two_band_processor] with threshold 1/2. *)
Example get_similarity_scores_two_bands :
  exists lg s',
    get_similarity_scores (1 # 2) two_band_processor
    = (lg, Ok (s', [("A", "C", 3 # 4); ("A", "B", 3 # 4)]%string)).
Proof. eexists _, _. vm_compute. reflexivity. Qed.

(** ** A second pass over a labelled processor *)

Lemma link_labels_labelled L c a b :
  is_Some (L !! a) -> is_Some (L !! b) -> link_labels L c a b = L.
Proof.
  intros [la Ha] [lb Hb]. unfold link_labels. by rewrite Ha, Hb.
Qed.

Lemma remaining_labelled_noop file_paths s :
  (forall id, id ∈ file_paths -> is_Some (labels s !! id)) ->
  fold_left label_remaining file_paths s = s.
Proof.
  induction file_paths as [|fp l IH]; intros Hl; [done|]. simpl.
  assert (label_remaining s fp = s) as ->.
  { unfold label_remaining.
    by destruct (Hl fp (list_elem_of_here _ _)) as [v ->]. }
  apply IH. intros id Hid. by apply Hl, list_elem_of_further.
Qed.

(** When every id of every bucket is labelled, a walk changes neither the
    labels nor the counter. *)
Lemma process_similarities_labelled thr cs s lg s' :
  (forall d m id, d ∈ hash_buckets_list s -> m ∈ PyDict.values d -> id ∈ m ->
     is_Some (labels s !! id)) ->
  process_similarities thr cs s = (lg, Ok s') ->
  same_store s s' /\ labels s' = labels s /\ label_counter s' = label_counter s.
Proof.
  intros Hall.
  set (P := fun t => same_store s t /\ labels t = labels s /\
                     label_counter t = label_counter s).
  unfold process_similarities.
  apply (foldM_invariant P); [|by split; [apply same_store_refl|]].
  intros s1 d l1 s2 Hd. apply (foldM_invariant P). intros s3 m l3 s4 Hm.
  unfold walk_bucket. case_decide; [|by intros ? [= _ <-]].
  apply (foldM_invariant P). intros s5 [a b] l5 s6 Hab (Hs5 & HL5 & Hc5) Hstep.
  apply elem_of_zip_drop in Hab as [Ha Hb].
  pose proof (Hall d m a Hd Hm Ha) as Hla. pose proof (Hall d m b Hd Hm Hb) as Hlb.
  rewrite <- HL5 in Hla, Hlb.
  apply link_pair_Ok_inv in Hstep as (q & _ & Hst & Hif).
  split; [by eapply same_store_trans|].
  destruct (Qle_bool thr q); [|by subst]. destruct Hif as [-> ->].
  rewrite link_labels_labelled by done. destruct Hla as [la ->]. done.
Qed.

(** X6. Once [assign_labels] has run on a filled processor, walking the
    buckets again, with any threshold and whether scores are collected or
    not, changes no label and does not move the counter; and a second
    [assign_labels] returns the mapping of the first. *)
Theorem second_pass_keeps_labels hs b adds thr thr' lg0 st lg st1 lbls :
  filled hs b adds = (lg0, Ok st) ->
  assign_labels thr st = (lg, Ok (st1, lbls)) ->
  (forall cs lg' st2,
     process_similarities thr' cs st1 = (lg', Ok st2) ->
     labels st2 = lbls /\ label_counter st2 = label_counter st1) /\
  (forall lg' st2 lbls2,
     assign_labels thr' st1 = (lg', Ok (st2, lbls2)) ->
     lbls2 = lbls /\ label_counter st2 = label_counter st1).
Proof.
  intros Hfill Hrun.
  destruct (filled_Ok hs b adds (filled_Ok_inv _ _ _ _ _ Hfill))
    as (st' & Hfill' & Hinv & _).
  rewrite Hfill in Hfill'. injection Hfill' as _ <-.
  destruct Hinv as (_ & _ & _ & _ & _ & _ & Hkeys & Hbk).
  pose proof (assign_labels_steps _ _ _ _ _ Hrun) as Hsteps.
  apply label_steps_extends in Hsteps as ((_ & _ & _ & Hbl & Hsig) & _).
  pose proof Hrun as (_ & _ & _ & Hlbls)%assign_labels_Ok_inv.
  assert (forall d m id, d ∈ hash_buckets_list st1 -> m ∈ PyDict.values d ->
            id ∈ m -> is_Some (labels st1 !! id)) as Hall.
  { intros d m id Hd Hm Hid. rewrite <- Hlbls.
    eapply assign_labels_labelled; [done|]. rewrite Hbl in Hd.
    apply Hkeys. rewrite <- (Hbk d Hd). apply elem_of_concat. eauto. }
  split.
  - intros cs lg' st2 Hp.
    apply process_similarities_labelled in Hp as (_ & -> & ->); by subst.
  - intros lg' st2 lbls2 (s1 & H1 & -> & ->)%assign_labels_Ok_inv.
    apply process_similarities_labelled in H1 as ((_ & _ & _ & _ & Hsig1) & HL1 & Hc1);
      [|done].
    unfold _assign_labels_remaining_images.
    rewrite remaining_labelled_noop; [by subst|].
    intros id Hid. rewrite HL1, <- Hlbls.
    eapply assign_labels_labelled; [done|]. by rewrite <- Hsig, <- Hsig1.
Qed.

(** X6 on [three_images], first labelled with threshold 1/2 and then
    walked again with threshold 0. *)
Lemma second_pass_keeps_labels_witness :
  exists lg0 st lg st1 lbls,
    filled 2 2 three_images = (lg0, Ok st) /\
    assign_labels (1 # 2) st = (lg, Ok (st1, lbls)) /\
    (forall cs lg' st2,
       process_similarities 0 cs st1 = (lg', Ok st2) ->
       labels st2 = lbls /\ label_counter st2 = label_counter st1) /\
    (forall lg' st2 lbls2,
       assign_labels 0 st1 = (lg', Ok (st2, lbls2)) ->
       lbls2 = lbls /\ label_counter st2 = label_counter st1).
Proof.
  eexists _, _, _, _, _.
  split; [vm_compute; reflexivity|]. split; [vm_compute; reflexivity|].
  eapply (second_pass_keeps_labels 2 2 three_images (1 # 2) 0).
  - vm_compute; reflexivity.
  - vm_compute; reflexivity.
Defined.
(** ** The band index *)

(** Induction over the calls of [add_all], with the calls already made. *)
Lemma add_all_prefix_ind
    (P : list (string * option (list bool)) -> LSHProcessor -> Prop) :
  (forall done s id sig lg s',
     buckets_ok s -> P done s ->
     add_signature s id sig = (lg, Ok s') -> P (done ++ [(id, sig)]) s') ->
  forall adds done s lg s',
    buckets_ok s -> P done s ->
    add_all adds s = (lg, Ok s') -> P (done ++ adds) s'.
Proof.
  intros Hstep adds.
  induction adds as [|[id sig] adds IH]; intros done s lg s' Hok HP.
  - intros [= _ <-]. by rewrite app_nil_r.
  - change (add_all ((id, sig) :: adds) s)
      with (bind (add_signature s id sig) (add_all adds)).
    intros (l1 & s1 & l2 & H1 & H2 & _)%bind_Ok.
    rewrite (cons_middle _ done adds), app_assoc.
    eapply IH; [| |exact H2].
    + destruct sig as [x|]; [|by injection H1 as _ <-].
      rewrite add_signature_ret in H1 by done. injection H1 as _ <-.
      unfold buckets_ok in *. simpl. by rewrite length_imap.
    + by eapply Hstep.
Qed.

Lemma filled_prefix_ind
    (P : list (string * option (list bool)) -> LSHProcessor -> Prop)
    hs b adds lg s :
  (forall s0, __init__ hs b = ([], Ok s0) -> P [] s0) ->
  (forall done s id sig lg s',
     buckets_ok s -> P done s ->
     add_signature s id sig = (lg, Ok s') -> P (done ++ [(id, sig)]) s') ->
  filled hs b adds = (lg, Ok s) -> P adds s.
Proof.
  intros H0 Hstep Hs. pose proof (filled_Ok_inv _ _ _ _ _ Hs) as Hb.
  destruct (init_Ok hs b Hb) as (s0 & Hinit & _ & Hbs & _ & Hbl & _).
  unfold filled in Hs. apply bind_Ok in Hs as (? & ? & l1 & Hinit' & Hs & _).
  rewrite Hinit in Hinit'. injection Hinit' as <- <-.
  apply (add_all_prefix_ind P Hstep adds [] s0 l1 s); [|by apply H0|done].
  unfold buckets_ok. by rewrite Hbl, length_replicate, Hbs.
Qed.

Lemma get_bucket_put key0 file_path d key :
  PyDict.get key (bucket_put key0 file_path d)
  = if decide (key0 = key)
    then Some (default [] (PyDict.get key d) ++ [file_path])
    else PyDict.get key d.
Proof.
  unfold bucket_put. case_decide as Hk.
  - subst. apply get_set_eq.
  - by apply get_set_ne.
Qed.

Lemma band_bucket_snoc_Some rows i key done id x :
  band_bucket rows i key (done ++ [(id, Some x)])
  = band_bucket rows i key done
    ++ (if decide (band_key rows x (Z.of_nat i) = key) then [id] else []).
Proof.
  unfold band_bucket. rewrite filter_app, fmap_app. f_equal.
  rewrite filter_cons. simpl. repeat case_decide; try done; congruence.
Qed.

Lemma band_bucket_snoc_None rows i key done id :
  band_bucket rows i key (done ++ [(id, None)]) = band_bucket rows i key done.
Proof.
  unfold band_bucket. rewrite filter_app, fmap_app.
  rewrite filter_cons. simpl. apply app_nil_r.
Qed.

Lemma add_signature_keeps_config s id sig lg s' :
  buckets_ok s -> add_signature s id sig = (lg, Ok s') ->
  hash_size s' = hash_size s /\ bands s' = bands s /\ rows s' = rows s.
Proof.
  intros Hok. destruct sig as [x|]; [|by intros [= _ <-]].
  rewrite add_signature_ret by done. by intros [= _ <-].
Qed.

Lemma add_signature_band_spec done s id sig lg s' :
  buckets_ok s ->
  band_spec (rows s) done (hash_buckets_list s) ->
  add_signature s id sig = (lg, Ok s') ->
  band_spec (rows s') (done ++ [(id, sig)]) (hash_buckets_list s').
Proof.
  intros Hok Hspec Hadd.
  destruct (add_signature_keeps_config _ _ _ _ _ Hok Hadd) as (_ & _ & ->).
  destruct sig as [x|].
  - rewrite add_signature_ret in Hadd by done. injection Hadd as _ <-.
    intros i d key. simpl. rewrite list_lookup_imap.
    destruct (hash_buckets_list s !! i) as [d0|] eqn:Hd0; [|done].
    intros [= <-].
    rewrite get_bucket_put, band_bucket_snoc_Some, (Hspec i d0 key Hd0).
    destruct (decide (band_key (rows s) x (Z.of_nat i) = key)) as [Hk|Hk].
    + rewrite (decide_False (P := _ ++ [id] = []))
        by (by intros [_ ?]%app_eq_nil).
      by case_decide as Hnil; [rewrite Hnil|].
    + by rewrite app_nil_r.
  - injection Hadd as _ <-. intros i d key Hd.
    rewrite band_bucket_snoc_None. by apply Hspec.
Qed.

(** The bucket maps of a filled processor, and its row count. *)
Lemma filled_band_spec hs b adds lg s :
  filled hs b adds = (lg, Ok s) ->
  rows s = hs ^ 2 `div` b /\ band_spec (rows s) adds (hash_buckets_list s).
Proof.
  apply (filled_prefix_ind
           (fun done s => rows s = hs ^ 2 `div` b /\
                          band_spec (rows s) done (hash_buckets_list s))).
  - intros s0 H0. pose proof (fill_inv_init _ _ _ H0) as (_ & _ & Hr & _).
    split; [done|]. intros i d key Hd.
    unfold __init__ in H0. case_decide; [done|]. injection H0 as <-.
    simpl in Hd. rewrite list_lookup_fmap in Hd.
    destruct (seqZ 0 b !! i); [|done]. by injection Hd as <-.
  - intros done s1 id sig l1 s2 Hok [Hr Hspec] Hadd.
    split; [|by eapply add_signature_band_spec].
    by destruct (add_signature_keeps_config _ _ _ _ _ Hok Hadd) as (_ & _ & ->).
Qed.

(** X7. In a filled processor the bucket map of every band [i] is the
    grouping of the insertions by their band key: under a key it holds the
    ids inserted with a signature whose slice [i] has that key, in the
    order of insertion, and it has no entry for a key nobody has. *)
Theorem band_index_groups_by_band_key hs b adds lg s i d key :
  filled hs b adds = (lg, Ok s) ->
  hash_buckets_list s !! i = Some d ->
  PyDict.get key d
  = if decide (band_bucket (hs ^ 2 `div` b) i key adds = []) then None
    else Some (band_bucket (hs ^ 2 `div` b) i key adds).
Proof.
  intros [<- Hspec]%filled_band_spec Hd. by apply Hspec.
Qed.

(** X7 on [three_images]: in band 0 the key of the bits 01 holds B and C. *)
Lemma band_index_groups_by_band_key_witness :
  exists lg s d,
    filled 2 2 three_images = (lg, Ok s) /\
    hash_buckets_list s !! 0%nat = Some d /\
    PyDict.get [0; 1] d
    = if decide (band_bucket (2 ^ 2 `div` 2) 0 [0; 1] three_images = []) then None
      else Some (band_bucket (2 ^ 2 `div` 2) 0 [0; 1] three_images).
Proof.
  eexists _, _, _.
  split; [vm_compute; reflexivity|]. split; [vm_compute; reflexivity|].
  eapply (band_index_groups_by_band_key 2 2 three_images).
  - vm_compute; reflexivity.
  - vm_compute; reflexivity.
Defined.
(** ** Buckets and band slices *)

Lemma get_Some_elem_of {K V} `{EqDecision K} (k : K) (v : V) (d : PyDict.t K V) :
  PyDict.get k d = Some v -> (k, v) ∈ d.
Proof.
  induction d as [|[k' v'] d IH]; simpl; [done|].
  destruct (decide (k = k')) as [->|Hne].
  - intros [= ->]. apply list_elem_of_here.
  - intros Hd. by apply list_elem_of_further, IH.
Qed.

Lemma elem_of_get_Some {K V} `{EqDecision K} (k : K) (v : V) (d : PyDict.t K V) :
  NoDup (PyDict.keys d) -> (k, v) ∈ d -> PyDict.get k d = Some v.
Proof.
  unfold PyDict.keys. induction d as [|[k' v'] d IH]; csimpl.
  - by intros _ ?%elem_of_nil.
  - intros [Hk Hnd]%NoDup_cons [[= -> ->]|Hin]%elem_of_cons.
    + by rewrite decide_True.
    + rewrite decide_False; [by apply IH|].
      intros ->. apply Hk. apply list_elem_of_fmap. by exists (k', v).
Qed.

Lemma keys_set_old {K V} `{EqDecision K} (k : K) (v : V) (d : PyDict.t K V) :
  is_Some (PyDict.get k d) -> PyDict.keys (PyDict.set k v d) = PyDict.keys d.
Proof.
  unfold PyDict.keys. induction d as [|[k' v'] d IH]; csimpl.
  - by intros [? ?].
  - destruct (decide (k = k')) as [->|Hne]; [done|].
    intros Hd. csimpl. by rewrite IH.
Qed.

Lemma NoDup_keys_set {K V} `{EqDecision K} (k : K) (v : V) (d : PyDict.t K V) :
  NoDup (PyDict.keys d) -> NoDup (PyDict.keys (PyDict.set k v d)).
Proof.
  intros Hnd. destruct (PyDict.get k d) as [w|] eqn:Hget.
  - by rewrite keys_set_old by eauto.
  - rewrite keys_set_new by done. apply NoDup_app. split; [done|].
    split; [|apply NoDup_singleton].
    intros x Hx ->%list_elem_of_singleton.
    apply elem_of_keys in Hx as [? ?]. congruence.
Qed.

(** Every bucket map of a filled processor has each key once. *)
Lemma filled_keys_NoDup hs b adds lg s d :
  filled hs b adds = (lg, Ok s) ->
  d ∈ hash_buckets_list s -> NoDup (PyDict.keys d).
Proof.
  intros Hs. revert d.
  apply (filled_prefix_ind
           (fun _ s => forall d, d ∈ hash_buckets_list s -> NoDup (PyDict.keys d))
           hs b adds lg s); [| |done].
  - intros s0 H0 d. unfold __init__ in H0. case_decide; [done|].
    injection H0 as <-. simpl. intros (? & -> & _)%list_elem_of_fmap.
    apply NoDup_nil_2.
  - intros done s1 id [x|] l1 s2 Hok Hinv Hadd; [|by injection Hadd as _ <-].
    rewrite add_signature_ret in Hadd by done. injection Hadd as _ <-.
    simpl. intros d (k & d0 & Hd0 & ->)%elem_of_imap.
    apply NoDup_keys_set, Hinv. by eapply list_elem_of_lookup_2.
Qed.

(** The buckets of a band are the entries of its map. *)
Lemma filled_bucket_iff hs b adds lg s i d m :
  filled hs b adds = (lg, Ok s) ->
  hash_buckets_list s !! i = Some d ->
  m ∈ PyDict.values d <->
  m <> [] /\ exists key, m = band_bucket (hs ^ 2 `div` b) i key adds.
Proof.
  intros Hs Hd. pose proof (filled_band_spec _ _ _ _ _ Hs) as [Hr Hspec].
  rewrite Hr in Hspec. split.
  - unfold PyDict.values. intros ([key m'] & -> & Hin)%list_elem_of_fmap.
    apply elem_of_get_Some in Hin;
      [|eapply filled_keys_NoDup; [done|by eapply list_elem_of_lookup_2]].
    rewrite (Hspec i d key Hd) in Hin. case_decide; [done|].
    injection Hin as <-. simpl. eauto.
  - intros (Hne & key & ->). unfold PyDict.values.
    apply list_elem_of_fmap. exists (key, band_bucket (hs ^ 2 `div` b) i key adds).
    split; [done|]. apply get_Some_elem_of.
    rewrite (Hspec i d key Hd). by rewrite decide_False.
Qed.

Lemma elem_of_band_bucket rows i key adds id :
  id ∈ band_bucket rows i key adds <->
  exists x, (id, Some x) ∈ adds /\ band_key rows x (Z.of_nat i) = key.
Proof.
  unfold band_bucket. rewrite list_elem_of_fmap. split.
  - intros ([id' [x|]] & -> & [Hk Hin]%list_elem_of_filter); simpl in *; [|done].
    exists x. split; [done|congruence].
  - intros (x & Hin & Hk). exists (id, Some x). split; [done|].
    apply list_elem_of_filter. split; [|done]. simpl. by rewrite Hk.
Qed.

Lemma NoDup_fst_functional {A B} (l : list (A * B)) x y1 y2 :
  NoDup (l.*1) -> (x, y1) ∈ l -> (x, y2) ∈ l -> y1 = y2.
Proof.
  induction l as [|[a c] l IH]; csimpl; [by intros _ ?%elem_of_nil|].
  intros [Ha Hnd]%NoDup_cons [[= -> ->]|H1]%elem_of_cons [[= ->]|H2]%elem_of_cons.
  - done.
  - destruct Ha. apply list_elem_of_fmap. by exists (a, y2).
  - subst. destruct Ha. apply list_elem_of_fmap. by exists (a, y1).
  - by apply IH.
Qed.

Lemma inserted_signature_unique adds id x y :
  NoDup (inserted adds) -> (id, Some x) ∈ adds -> (id, Some y) ∈ adds -> x = y.
Proof.
  unfold inserted. intros Hnd Hx Hy.
  assert (Some x = Some y) as [= ->]; [|done].
  apply (NoDup_fst_functional _ id _ _ Hnd);
    apply list_elem_of_filter; simpl; eauto.
Qed.

Lemma tobytes_inj x y : np.tobytes x = np.tobytes y -> x = y.
Proof.
  unfold np.tobytes. revert y.
  induction x as [|b x IH]; intros [|c y]; csimpl; try done.
  intros [= Hb Hxy]. f_equal; [by destruct b, c|by apply IH].
Qed.

(** X8. In a filled processor with distinct ids, two inserted ids lie in
    a common bucket of band [i] exactly when their signatures have the
    same slice [i * rows, (i + 1) * rows). *)
Theorem same_bucket_iff_same_band hs b adds lg s i d id1 x1 id2 x2 :
  filled hs b adds = (lg, Ok s) ->
  NoDup (inserted adds) ->
  (id1, Some x1) ∈ adds -> (id2, Some x2) ∈ adds ->
  hash_buckets_list s !! i = Some d ->
  (exists m, m ∈ PyDict.values d /\ id1 ∈ m /\ id2 ∈ m) <->
  py_slice x1 (Z.of_nat i * rows s) ((Z.of_nat i + 1) * rows s)
  = py_slice x2 (Z.of_nat i * rows s) ((Z.of_nat i + 1) * rows s).
Proof.
  intros Hs Hnd H1 H2 Hd.
  pose proof (filled_band_spec _ _ _ _ _ Hs) as [Hr _]. rewrite Hr. split.
  - intros (m & Hm & Hm1 & Hm2).
    apply (filled_bucket_iff _ _ _ _ _ _ _ _ Hs Hd) in Hm as (_ & key & ->).
    apply elem_of_band_bucket in Hm1 as (y1 & Hy1 & Hk1).
    apply elem_of_band_bucket in Hm2 as (y2 & Hy2 & Hk2).
    rewrite (inserted_signature_unique _ _ _ _ Hnd H1 Hy1).
    rewrite (inserted_signature_unique _ _ _ _ Hnd H2 Hy2).
    apply tobytes_inj. unfold band_key in *. congruence.
  - intros Hslice.
    set (key := band_key (hs ^ 2 `div` b) x1 (Z.of_nat i)).
    exists (band_bucket (hs ^ 2 `div` b) i key adds).
    assert (id1 ∈ band_bucket (hs ^ 2 `div` b) i key adds) as Hin1.
    { apply elem_of_band_bucket. by exists x1. }
    split; [|split; [done|]].
    + apply (filled_bucket_iff _ _ _ _ _ _ _ _ Hs Hd). split; [|by eauto].
      intros Hnil. rewrite Hnil in Hin1. by apply elem_of_nil in Hin1.
    + apply elem_of_band_bucket. exists x2. split; [done|].
      unfold key, band_key. by rewrite Hslice.
Qed.

(** X8 on [three_images]: B and C agree on their first two bits. *)
Lemma same_bucket_iff_same_band_witness :
  exists lg s d,
    filled 2 2 three_images = (lg, Ok s) /\
    hash_buckets_list s !! 0%nat = Some d /\
    ((exists m, m ∈ PyDict.values d /\ "B"%string ∈ m /\ "C"%string ∈ m) <->
     py_slice [false; true; false; false]
       (Z.of_nat 0 * rows s) ((Z.of_nat 0 + 1) * rows s)
     = py_slice [false; true; false; true]
         (Z.of_nat 0 * rows s) ((Z.of_nat 0 + 1) * rows s)).
Proof.
  eexists _, _, _.
  split; [vm_compute; reflexivity|]. split; [vm_compute; reflexivity|].
  eapply (same_bucket_iff_same_band 2 2 three_images).
  - vm_compute; reflexivity.
  - apply (bool_decide_unpack _). vm_compute. exact I.
  - apply (bool_decide_unpack _). vm_compute. exact I.
  - apply (bool_decide_unpack _). vm_compute. exact I.
  - vm_compute; reflexivity.
Defined.

(** X9. In a filled processor there is one bucket map per band, and in
    each band the buckets share out the insertions: together they hold
    each inserted id once per insertion, no bucket is empty, and every
    bucket lists its ids in the order of insertion. *)
Theorem buckets_partition_the_insertions hs b adds lg s :
  filled hs b adds = (lg, Ok s) ->
  length (hash_buckets_list s) = Z.to_nat b /\
  forall d, d ∈ hash_buckets_list s ->
    concat (PyDict.values d) ≡ₚ inserted adds /\
    forall m, m ∈ PyDict.values d -> m <> [] /\ m `sublist_of` inserted adds.
Proof.
  intros Hs.
  destruct (filled_Ok hs b adds (filled_Ok_inv _ _ _ _ _ Hs))
    as (s' & Hs' & Hinv & _).
  rewrite Hs in Hs'. injection Hs' as _ <-.
  destruct Hinv as (_ & Hbs & _ & Hok & _ & _ & _ & Hbk).
  split; [unfold buckets_ok in Hok; by rewrite Hok, Hbs|].
  intros d [i Hd]%list_elem_of_lookup. split.
  - apply Hbk. by eapply list_elem_of_lookup_2.
  - intros m (Hne & key & ->)%(filled_bucket_iff _ _ _ _ _ _ _ _ Hs Hd).
    split; [done|]. unfold band_bucket, inserted.
    apply fmap_sublist.
    rewrite <- (list_filter_filter_l _ (fun add => is_Some add.2)).
    + apply sublist_filter.
    + intros [id [x|]]; simpl; [eauto|done].
Qed.

(** X9 on [three_images]. *)
Lemma buckets_partition_the_insertions_witness :
  exists lg s,
    filled 2 2 three_images = (lg, Ok s) /\
    length (hash_buckets_list s) = Z.to_nat 2 /\
    forall d, d ∈ hash_buckets_list s ->
      concat (PyDict.values d) ≡ₚ inserted three_images /\
      forall m, m ∈ PyDict.values d ->
                m <> [] /\ m `sublist_of` inserted three_images.
Proof.
  eexists _, _. split; [vm_compute; reflexivity|].
  eapply (buckets_partition_the_insertions 2 2 three_images).
  vm_compute; reflexivity.
Defined.
(** ** The signature store *)

Lemma last_signature_snoc id done id' sig :
  last_signature id (done ++ [(id', sig)])
  = if decide (id' = id)
    then match sig with Some x => Some x | None => last_signature id done end
    else last_signature id done.
Proof.
  unfold last_signature. rewrite omap_app. simpl.
  case_decide; [|by rewrite app_nil_r].
  destruct sig as [x|]; [apply last_snoc|by rewrite app_nil_r].
Qed.

(** X10. The store of a filled processor maps an id to the packed form of
    the signature of the last insertion of that id that had one, and has
    no entry for an id never inserted with a signature: inserting an id
    again replaces its stored signature. *)
Theorem store_keeps_last_signature hs b adds lg s id :
  filled hs b adds = (lg, Ok s) ->
  PyDict.get id (signatures s) = np.packbits <$> last_signature id adds.
Proof.
  intros Hs. revert id.
  apply (filled_prefix_ind
           (fun done s => forall id,
              PyDict.get id (signatures s)
              = np.packbits <$> last_signature id done)
           hs b adds lg s); [| |done].
  - intros s0 H0 id. unfold __init__ in H0. case_decide; [done|].
    by injection H0 as <-.
  - intros done s1 id' sig l1 s2 Hok Hinv Hadd id.
    rewrite last_signature_snoc. destruct sig as [x|].
    + rewrite add_signature_ret in Hadd by done. injection Hadd as _ <-.
      simpl. case_decide as Hid.
      * subst. by rewrite get_set_eq.
      * by rewrite get_set_ne.
    + injection Hadd as _ <-. by case_decide.
Qed.

(** X10 on two insertions of the id A: the second signature is the one
    stored. *)
Lemma store_keeps_last_signature_witness :
  exists lg s,
    filled 2 2 [("A"%string, Some [false; false; false; false]);
                ("A"%string, Some [true; true; false; false])] = (lg, Ok s) /\
    PyDict.get "A"%string (signatures s)
    = np.packbits <$>
        last_signature "A"
          [("A"%string, Some [false; false; false; false]);
           ("A"%string, Some [true; true; false; false])].
Proof.
  eexists _, _. split; [vm_compute; reflexivity|].
  eapply (store_keeps_last_signature 2 2).
  vm_compute; reflexivity.
Defined.

(** ** The size of a stored signature *)

Lemma byte_of_bits_range b0 b1 b2 b3 b4 b5 b6 b7 :
  0 <= np.byte_of_bits [b0; b1; b2; b3; b4; b5; b6; b7] < 256.
Proof. destruct b0, b1, b2, b3, b4, b5, b6, b7; vm_compute; split; congruence. Qed.

Lemma packbits_length_bytes a :
  (length (np.packbits a) * 8 = length a + np.padding (length a))%nat /\
  Forall (fun w => 0 <= w < 256) (np.packbits a).
Proof.
  induction a as [|a Ha|b0 b1 b2 b3 b4 b5 b6 b7 rest [IHl IHb]] using bits_ind8.
  - done.
  - rewrite packbits_short, padding_short by done. split; [simpl; lia|].
    apply Forall_singleton.
    destruct a as [|c0 [|c1 [|c2 [|c3 [|c4 [|c5 [|c6 [|c7 r]]]]]]]];
      try (simpl in Ha; lia); apply byte_of_bits_range.
  - change (np.packbits (b0 :: b1 :: b2 :: b3 :: b4 :: b5 :: b6 :: b7 :: rest))
      with (np.byte_of_bits [b0; b1; b2; b3; b4; b5; b6; b7] :: np.packbits rest).
    change (length (b0 :: b1 :: b2 :: b3 :: b4 :: b5 :: b6 :: b7 :: rest))
      with (8 + length rest)%nat.
    rewrite padding_add8. split; [simpl; lia|].
    apply Forall_cons. split; [apply byte_of_bits_range|done].
Qed.

(** X11. An insertion stores the signature in ceil(length / 8) bytes,
    each between 0 and 255, whatever was stored for the id before. *)
Theorem stored_signature_size self file_path s :
  buckets_ok self ->
  exists self' p,
    add_signature self file_path (Some s) = ([], Ok self') /\
    PyDict.get file_path (signatures self') = Some p /\
    Z.of_nat (length p) = (Z.of_nat (length s) + 7) `div` 8 /\
    Forall (fun w => 0 <= w < 256) p.
Proof.
  intros Hok. rewrite add_signature_ret by done.
  eexists _, (np.packbits s). split; [done|]. simpl. split; [apply get_set_eq|].
  destruct (packbits_length_bytes s) as [Hlen Hbytes]. split; [|done].
  unfold np.padding in Hlen.
  pose proof (Nat.div_mod_eq (length s) 8) as Hdm.
  pose proof (Nat.mod_upper_bound (length s) 8 ltac:(lia)) as Hub.
  destruct (decide (length s mod 8 = 0)%nat) as [H0|H0].
  - rewrite H0 in Hlen. change ((8 - 0) mod 8)%nat with 0%nat in Hlen.
    apply (Z.div_unique _ 8 _ 7); lia.
  - rewrite (Nat.mod_small (8 - length s mod 8) 8) in Hlen by lia.
    apply (Z.div_unique _ 8 _ (Z.of_nat (length s mod 8) - 1)); lia.
Qed.

(** X11 on a 9-bit signature: two bytes. *)
Lemma stored_signature_size_witness :
  exists self' p,
    add_signature
      {| hash_size := 3; bands := 1; rows := 9;
         hash_buckets_list := [PyDict.empty]; signatures := PyDict.empty;
         labels := ∅; label_counter := 0; similarity_scores := [] |}
      "img" (Some (replicate 9 true)) = ([], Ok self') /\
    PyDict.get "img"%string (signatures self') = Some p /\
    Z.of_nat (length p) = (Z.of_nat (length (replicate 9 true)) + 7) `div` 8 /\
    Forall (fun w => 0 <= w < 256) p.
Proof.
  apply (stored_signature_size
           {| hash_size := 3; bands := 1; rows := 9;
              hash_buckets_list := [PyDict.empty]; signatures := PyDict.empty;
              labels := ∅; label_counter := 0; similarity_scores := [] |}).
  reflexivity.
Defined.
(** ** The top-level operation on a directory with images *)

(** The ids labelled by a run on a filled processor are the inserted ones. *)
Lemma assign_labels_domain hs b adds lg0 s thr lg st lbls id :
  filled hs b adds = (lg0, Ok s) ->
  assign_labels thr s = (lg, Ok (st, lbls)) ->
  is_Some (lbls !! id) <-> id ∈ inserted adds.
Proof.
  intros Hs Hst.
  destruct (filled_Ok hs b adds (filled_Ok_inv _ _ _ _ _ Hs))
    as (s' & Hs' & Hinv & _).
  rewrite Hs in Hs'. injection Hs' as _ <-.
  destruct Hinv as (_ & _ & _ & _ & HL & _ & Hkeys & Hbk).
  pose proof Hst as (s1 & H1 & Hst' & Hlbls)%assign_labels_Ok_inv. split.
  - rewrite Hlbls, Hst'. revert id. apply remaining_within.
    + intros id. apply walk_bands_steps, label_steps_extends in H1
        as ((_ & _ & _ & _ & ->) & _). apply Hkeys.
    + eapply walk_bands_within; [|..|exact H1].
      * intros d Hd id. by rewrite (Hbk d Hd).
      * intros id [v Hv']. by rewrite HL in Hv'.
  - intros Hid. eapply assign_labels_labelled; [done|]. by apply Hkeys.
Qed.

(** After [assign_labels] on a filled processor every id of every bucket
    is labelled. *)
Lemma assign_labels_buckets_labelled hs b adds lg0 s thr lg st lbls d m id :
  filled hs b adds = (lg0, Ok s) ->
  assign_labels thr s = (lg, Ok (st, lbls)) ->
  d ∈ hash_buckets_list st -> m ∈ PyDict.values d -> id ∈ m ->
  is_Some (labels st !! id).
Proof.
  intros Hs Hst Hd Hm Hid.
  pose proof (assign_labels_steps _ _ _ _ _ Hst) as Hsteps.
  apply label_steps_extends in Hsteps as ((_ & _ & _ & Hbl & _) & _).
  pose proof Hst as (_ & _ & _ & Hlbls)%assign_labels_Ok_inv.
  rewrite <- Hlbls. apply (assign_labels_domain _ _ _ _ _ _ _ _ _ _ Hs Hst).
  destruct (filled_Ok hs b adds (filled_Ok_inv _ _ _ _ _ Hs))
    as (s' & Hs' & Hinv & _).
  rewrite Hs in Hs'. injection Hs' as _ <-.
  destruct Hinv as (_ & _ & _ & _ & _ & _ & _ & Hbk).
  rewrite Hbl in Hd. rewrite <- (Hbk d Hd). apply elem_of_concat. eauto.
Qed.

Lemma inserted_file_adds cs hs file_list id :
  id ∈ inserted (file_adds cs hs file_list) <->
  id ∈ file_list /\ is_Some (cs hs id).
Proof.
  unfold inserted, file_adds. rewrite list_elem_of_fmap. split.
  - intros ([id' sig] & -> & [Hsome Hin]%list_elem_of_filter).
    apply list_elem_of_fmap in Hin as (f & [= -> ->] & Hf). done.
  - intros [Hin Hsome]. exists (id, cs hs id). split; [done|].
    apply list_elem_of_filter. split; [done|].
    apply list_elem_of_fmap. by exists id.
Qed.

Lemma passing_score_same_store thr s s' pair :
  same_store s s' -> passing_score thr s' pair = passing_score thr s pair.
Proof.
  intros Hst. unfold passing_score.
  by rewrite (calculate_similarity_same_store s s').
Qed.

Lemma filled_scores_nil hs b adds lg s :
  filled hs b adds = (lg, Ok s) -> similarity_scores s = [].
Proof.
  apply (filled_prefix_ind (fun _ s => similarity_scores s = [])).
  - intros s0. unfold __init__. case_decide; [done|]. by intros [= <-].
  - intros done s1 id [x|] l1 s2 Hok Hnil; [|by intros [= _ <-]].
    rewrite add_signature_ret by done. by intros [= _ <-].
Qed.

Lemma remaining_keeps_scores file_paths s :
  similarity_scores (fold_left label_remaining file_paths s)
  = similarity_scores s.
Proof.
  revert s. induction file_paths as [|fp l IH]; intros s; [done|].
  simpl. rewrite IH. unfold label_remaining. by destruct (labels s !! fp).
Qed.

Lemma except_ValueError_Ok {A} (m : M A) handler lg r :
  m = (lg, Ok r) -> except_ValueError m handler = (lg, Ok r).
Proof. by intros ->. Qed.

(** The run of [find_duplicates] on a directory with images, step by
    step. *)
Lemma find_duplicates_run
    (listdir : string -> option (list string))
    (calculate_signature : Z -> string -> option (list bool))
    input_dir thr hs b names :
  listdir input_dir = Some names ->
  image_paths input_dir names <> [] ->
  0 < hs -> b <> 0 ->
  (forall f x, calculate_signature hs f = Some x ->
               Z.of_nat (length x) = hs ^ 2) ->
  exists s lg1 st1 lg2 st2,
    filled hs b (file_adds calculate_signature hs (image_paths input_dir names))
    = ([], Ok s) /\
    assign_labels thr s = (lg1, Ok (st1, labels st1)) /\
    process_similarities thr true st1 = (lg2, Ok st2) /\
    labels st2 = labels st1 /\
    (exists lg,
       find_duplicates listdir calculate_signature input_dir thr hs b false
       = (lg, Ok (labels st1, []))) /\
    (exists lg,
       find_duplicates listdir calculate_signature input_dir thr hs b true
       = (lg, Ok (labels st2, similarity_scores st2))).
Proof.
  intros Hdir Hne Hhs Hb Hvalid.
  set (file_list := image_paths input_dir names) in *.
  set (adds := file_adds calculate_signature hs file_list).
  destruct (filled_Ok hs b adds Hb) as (s & Hs & Hinv & Hsv).
  assert (store_valid s) as Hsv'.
  { apply Hsv; [|lia]. intros id x (f & [= -> Hx] & _)%list_elem_of_fmap.
    by eapply Hvalid. }
  destruct (assign_labels_total thr s Hsv') as (lg1 & st1 & Hst1).
  pose proof (assign_labels_steps _ _ _ _ _ Hst1) as Hsteps.
  apply label_steps_extends in Hsteps as (Hsame & _).
  destruct (walk_bands_total thr true (hash_buckets_list st1) st1
              (store_valid_same_store _ _ Hsame Hsv')) as (lg2 & st2 & Hst2 & _).
  change (foldM (walk_band thr true) (hash_buckets_list st1) st1)
    with (process_similarities thr true st1) in Hst2.
  pose proof Hst2 as (_ & HL2 & _)%process_similarities_labelled;
    [|intros d m id; by apply (assign_labels_buckets_labelled
                                 _ _ _ _ _ _ _ _ _ _ _ _ Hs Hst1)].
  assert (process_images calculate_signature hs b file_list = ([], Ok s)) as Hpi
    by (by rewrite process_images_filled).
  assert (get_image_files listdir input_dir = ([], Ok file_list)) as Hfiles
    by (unfold get_image_files; by rewrite Hdir).
  exists s, lg1, st1, lg2, st2. do 4 (split; [done|]). split.
  - eexists. unfold find_duplicates. apply except_ValueError_Ok.
    eapply bind_intro; [exact Hfiles|]. cbv beta.
    rewrite decide_False by done.
    eapply bind_intro; [reflexivity|]. cbv beta.
    eapply bind_intro; [exact Hpi|]. cbv beta.
    eapply bind_intro; [exact Hst1|]. reflexivity.
  - eexists. unfold find_duplicates. apply except_ValueError_Ok.
    eapply bind_intro; [exact Hfiles|]. cbv beta.
    rewrite decide_False by done.
    eapply bind_intro; [reflexivity|]. cbv beta.
    eapply bind_intro; [exact Hpi|]. cbv beta.
    eapply bind_intro; [exact Hst1|]. cbv beta. simpl fst.
    eapply bind_intro.
    { unfold get_similarity_scores. eapply bind_intro; [exact Hst2|reflexivity]. }
    reflexivity.
Qed.

(** X12. On a directory with at least one image file, with
    [hash_size > 0], [bands] not 0 and an image processor whose
    signatures have [hash_size ^ 2] bits, [find_duplicates] returns
    without raising: the labels are defined exactly on the image paths
    whose signature could be computed, they are the same whether scores
    are asked for or not, and the scores are the empty list when not
    asked for, and otherwise the triples of the bucket neighbours that
    reach the threshold, in the order of the walk. *)
Theorem find_duplicates_labels_decoded_images
    (listdir : string -> option (list string))
    (calculate_signature : Z -> string -> option (list bool))
    input_dir thr hs b names :
  listdir input_dir = Some names ->
  image_paths input_dir names <> [] ->
  0 < hs -> b <> 0 ->
  (forall f x, calculate_signature hs f = Some x ->
               Z.of_nat (length x) = hs ^ 2) ->
  exists st lbls,
    process_images calculate_signature hs b (image_paths input_dir names)
    = ([], Ok st) /\
    (forall p, is_Some (lbls !! p) <->
               p ∈ image_paths input_dir names /\
               is_Some (calculate_signature hs p)) /\
    (exists lg,
       find_duplicates listdir calculate_signature input_dir thr hs b false
       = (lg, Ok (lbls, []))) /\
    (exists lg,
       find_duplicates listdir calculate_signature input_dir thr hs b true
       = (lg, Ok (lbls, omap (passing_score thr st) (candidate_pairs st)))).
Proof.
  intros Hdir Hne Hhs Hb Hvalid.
  destruct (find_duplicates_run listdir calculate_signature input_dir thr hs b
              names Hdir Hne Hhs Hb Hvalid)
    as (s & lg1 & st1 & lg2 & st2 & Hs & Hst1 & Hst2 & HL2 & Hf & Ht).
  pose proof (assign_labels_steps _ _ _ _ _ Hst1) as Hsteps.
  apply label_steps_extends in Hsteps as (Hsame & _).
  assert (similarity_scores st1 = []) as Hsc1.
  { pose proof Hst1 as (s1 & H1 & -> & _)%assign_labels_Ok_inv.
    unfold _assign_labels_remaining_images. rewrite remaining_keeps_scores.
    apply process_similarities_scores in H1. rewrite H1, app_nil_r.
    by eapply filled_scores_nil. }
  assert (similarity_scores st2
          = omap (passing_score thr s) (candidate_pairs s)) as Hsc2.
  { rewrite (process_similarities_scores _ _ _ _ _ Hst2), Hsc1. simpl.
    pose proof Hsame as (_ & _ & _ & Hbl & _).
    unfold candidate_pairs. rewrite Hbl.
    induction (hash_buckets_list s ≫= _) as [|pair l IH]; [done|].
    by rewrite !omap_cons_option, IH, (passing_score_same_store thr s st1). }
  exists s, (labels st1). split; [by rewrite process_images_filled|].
  split; [|split; [done|]].
  - intros p. rewrite <- inserted_file_adds.
    apply (assign_labels_domain _ _ _ _ _ _ _ _ _ _ Hs Hst1).
  - by rewrite <- HL2, <- Hsc2.
Qed.

Lemma find_duplicates_labels_decoded_images_witness :
  exists st lbls,
    process_images four_bit_signature 2 2
      (image_paths "data" ["a.PNG"; "notes.txt"; "b.jpg"; "c.jpeg"]) = ([], Ok st) /\
    (forall p, is_Some (lbls !! p) <->
               p ∈ image_paths "data" ["a.PNG"; "notes.txt"; "b.jpg"; "c.jpeg"] /\
               is_Some (four_bit_signature 2 p)) /\
    (exists lg,
       find_duplicates image_directory four_bit_signature "data" (4 # 5) 2 2 false
       = (lg, Ok (lbls, []))) /\
    (exists lg,
       find_duplicates image_directory four_bit_signature "data" (4 # 5) 2 2 true
       = (lg, Ok (lbls, omap (passing_score (4 # 5) st) (candidate_pairs st)))).
Proof.
  apply (find_duplicates_labels_decoded_images image_directory
           four_bit_signature "data" (4 # 5) 2 2 ["a.PNG"; "notes.txt"; "b.jpg"; "c.jpeg"]).
  - reflexivity.
  - vm_compute. discriminate.
  - lia.
  - lia.
  - intros f x. unfold four_bit_signature.
    repeat case_decide; intros [= <-]; reflexivity.
Defined.
(** ** The image files of a directory *)

Lemma string_app_inj_l (a p q : string) :
  (a +:+ p)%string = (a +:+ q)%string -> p = q.
Proof. induction a as [|c a IH]; simpl; [done|]. intros [= H]. auto. Qed.

Lemma list_ascii_of_string_app (a p : string) :
  list_ascii_of_string (a +:+ p) = list_ascii_of_string a ++ list_ascii_of_string p.
Proof. induction a as [|c a IH]; simpl; [done|]. by rewrite IH. Qed.

Lemma lower_app (a p : string) : lower (a +:+ p) = (lower a +:+ lower p)%string.
Proof. induction a as [|c a IH]; simpl; [done|]. by rewrite IH. Qed.

(** [os.path.join] keeps its last argument at the end of the path. *)
Lemma os_path_join_suffix (a p : string) :
  exists pre, os_path_join a p = (pre +:+ p)%string.
Proof.
  unfold os_path_join. destruct (String.prefix "/" p); [by exists ""%string|].
  case_decide; [by exists ""%string|].
  destruct (endswith a "/"); [by exists a|].
  exists (a +:+ "/")%string. clear. induction a as [|c a IH]; [done|].
  change (String c (a +:+ "/" +:+ p) = String c ((a +:+ "/") +:+ p))%string.
  by rewrite IH.
Qed.

Lemma os_path_join_inj (a p q : string) :
  String.prefix "/" p = false -> String.prefix "/" q = false ->
  os_path_join a p = os_path_join a q -> p = q.
Proof.
  unfold os_path_join. intros -> ->. case_decide; [done|].
  destruct (endswith a "/"); intros Heq; apply string_app_inj_l in Heq; [done|].
  by apply (string_app_inj_l "/") in Heq.
Qed.

Lemma is_image_file_join (a f : string) :
  is_image_file f -> is_image_file (os_path_join a f).
Proof.
  unfold is_image_file. rewrite !existsb_exists.
  intros (ext & Hext & Hend). exists ext. split; [done|].
  destruct (os_path_join_suffix a f) as [pre ->].
  unfold endswith in *. apply bool_decide_eq_true in Hend.
  apply bool_decide_eq_true. rewrite lower_app, list_ascii_of_string_app.
  by apply suffix_app_r.
Qed.

(** X13. For a directory whose listing has no repeated name and no name
    starting with a slash, [get_image_files] returns, without logging,
    pairwise distinct paths in the order of the listing; every path
    returned passes the extension test itself, and the path of a listed
    name is returned exactly when the name passes the test. *)
Theorem get_image_files_distinct_image_paths
    (listdir : string -> option (list string)) input_dir names :
  listdir input_dir = Some names ->
  NoDup names ->
  (forall f, f ∈ names -> String.prefix "/" f = false) ->
  exists paths,
    get_image_files listdir input_dir = ([], Ok paths) /\
    NoDup paths /\
    paths `sublist_of` (os_path_join input_dir <$> names) /\
    (forall p, p ∈ paths -> is_image_file p) /\
    (forall f, f ∈ names ->
               os_path_join input_dir f ∈ paths <-> is_image_file f).
Proof.
  intros Hdir Hnd Hrel. exists (image_paths input_dir names).
  split; [unfold get_image_files; by rewrite Hdir|].
  unfold image_paths. fold is_image_file. split; [|split; [|split]].
  - apply NoDup_fmap_2_strong; [|by apply NoDup_filter].
    intros f g [_ Hf]%list_elem_of_filter [_ Hg]%list_elem_of_filter.
    apply os_path_join_inj; auto.
  - apply fmap_sublist, sublist_filter.
  - intros p (f & -> & [Hf _]%list_elem_of_filter)%list_elem_of_fmap.
    by apply is_image_file_join.
  - intros f Hf. rewrite list_elem_of_fmap. split.
    + intros (g & Heq & [Hg Hin]%list_elem_of_filter).
      apply os_path_join_inj in Heq; auto. by subst.
    + intros Himg. exists f. split; [done|]. by apply list_elem_of_filter.
Qed.

Lemma get_image_files_distinct_image_paths_witness :
  exists paths,
    get_image_files image_directory "data" = ([], Ok paths) /\
    NoDup paths /\
    paths `sublist_of`
      (os_path_join "data" <$> ["a.PNG"; "notes.txt"; "b.jpg"; "c.jpeg"]) /\
    (forall p, p ∈ paths -> is_image_file p) /\
    (forall f, f ∈ ["a.PNG"; "notes.txt"; "b.jpg"; "c.jpeg"] ->
               os_path_join "data" f ∈ paths <-> is_image_file f).
Proof.
  apply (get_image_files_distinct_image_paths image_directory "data"
           ["a.PNG"; "notes.txt"; "b.jpg"; "c.jpeg"]).
  - reflexivity.
  - apply (bool_decide_unpack _). vm_compute. exact I.
  - intros f Hf. repeat (apply elem_of_cons in Hf as [->|Hf]; [reflexivity|]).
    by apply elem_of_nil in Hf.
Defined.

(** ** No bands *)

(** X14. When the directory has been listed and holds an image file,
    [find_duplicates] with [bands = 0] raises [ZeroDivisionError],
    whatever the hash size, the threshold and the image processor: the
    exception comes from the constructor in [process_images], before any
    signature is asked for, nothing is logged, and the handler for
    [ValueError] lets it through. *)
Theorem find_duplicates_zero_bands_raises
    (listdir : string -> option (list string))
    (calculate_signature : Z -> string -> option (list bool))
    input_dir thr hs gen_socres names :
  listdir input_dir = Some names ->
  image_paths input_dir names <> [] ->
  process_images calculate_signature hs 0 (image_paths input_dir names)
  = ([], Raise ZeroDivisionError) /\
  find_duplicates listdir calculate_signature input_dir thr hs 0 gen_socres
  = ([], Raise ZeroDivisionError).
Proof.
  intros Hdir Hne. split; [done|].
  unfold find_duplicates, get_image_files. rewrite Hdir.
  fold (image_paths input_dir names).
  destruct (image_paths input_dir names); done.
Qed.

Lemma find_duplicates_zero_bands_raises_witness :
  process_images four_bit_signature 2 0
    (image_paths "data" ["a.PNG"; "notes.txt"; "b.jpg"; "c.jpeg"])
  = ([], Raise ZeroDivisionError) /\
  find_duplicates image_directory four_bit_signature "data" (4 # 5) 2 0 true
  = ([], Raise ZeroDivisionError).
Proof.
  apply (find_duplicates_zero_bands_raises image_directory
           four_bit_signature "data" (4 # 5) 2 true
           ["a.PNG"; "notes.txt"; "b.jpg"; "c.jpeg"]).
  - reflexivity.
  - vm_compute. discriminate.
Defined.
(** ** A negative number of bands *)

(** X15. With a negative number of bands the constructor makes no bucket
    map, so nothing is compared, whatever the threshold and the
    signatures: a run over distinct ids returns without logging, the
    i-th inserted id gets the label i, and [get_similarity_scores] then
    gives no score. *)
Theorem negative_bands_label_by_position hs b thr adds :
  b < 0 -> NoDup (inserted adds) ->
  exists st lbls,
    labeling_run hs b thr adds = ([], Ok (st, lbls)) /\
    (forall i id, inserted adds !! i = Some id -> lbls !! id = Some (Z.of_nat i)) /\
    get_similarity_scores thr st = ([], Ok (st, [])).
Proof.
  intros Hb Hnd.
  destruct (filled_Ok hs b adds ltac:(lia)) as (s & Hs & Hinv & _).
  pose proof (filled_scores_nil _ _ _ _ _ Hs) as Hsc.
  destruct Hinv as (_ & Hbs & _ & Hbk & HL & Hc & _).
  assert (hash_buckets_list s = []) as Hnil.
  { apply nil_length_inv. rewrite Hbk, Hbs. lia. }
  pose proof (filled_keys _ _ _ _ _ Hnd Hs) as Hkeys.
  destruct (remaining_positions (inserted adds) s Hnd) as (_ & Hpos & _).
  { intros id _. by rewrite HL. }
  assert (assign_labels thr s
          = ([], Ok (_assign_labels_remaining_images s,
                     labels (_assign_labels_remaining_images s)))) as Hst.
  { unfold assign_labels, process_similarities. by rewrite Hnil. }
  pose proof (assign_labels_steps _ _ _ _ _ Hst) as Hsteps.
  apply label_steps_extends in Hsteps as ((_ & _ & _ & Hbl & _) & _).
  exists (_assign_labels_remaining_images s),
    (labels (_assign_labels_remaining_images s)).
  split; [|split].
  - unfold labeling_run. exact (bind_intro _ _ [] _ [] _ Hs Hst).
  - unfold _assign_labels_remaining_images. rewrite Hkeys.
    intros i id Hi. by rewrite (Hpos i id Hi), Hc.
  - unfold get_similarity_scores, process_similarities.
    rewrite Hbl, Hnil. simpl.
    unfold _assign_labels_remaining_images.
    by rewrite remaining_keeps_scores, Hsc.
Qed.

(** X15 on [three_images] with threshold 0 and -1 bands. *)
Lemma negative_bands_label_by_position_witness :
  exists st lbls,
    labeling_run 2 (-1) 0 three_images = ([], Ok (st, lbls)) /\
    (forall i id, inserted three_images !! i = Some id ->
                  lbls !! id = Some (Z.of_nat i)) /\
    get_similarity_scores 0 st = ([], Ok (st, [])).
Proof.
  apply (negative_bands_label_by_position 2 (-1) 0 three_images).
  - lia.
  - apply (bool_decide_unpack _). vm_compute. exact I.
Defined.
(** ** Two runs of the labeling *)

Lemma same_store_sym s s' : same_store s s' -> same_store s' s.
Proof. intros (? & ? & ? & ? & ?). by repeat split. Qed.

Lemma alike_Ok {A} (R : A -> A -> Prop) (m m' : M A) lg a :
  alike R m m' -> m = (lg, Ok a) -> exists a', m' = (lg, Ok a') /\ R a a'.
Proof.
  intros H ->. destruct m' as [lg' [a'|e]]; simpl in H; [|done].
  destruct H as [-> H]. eauto.
Qed.

Lemma alike_bind {A B} (R : A -> A -> Prop) (Q : B -> B -> Prop)
    (m m' : M A) (k k' : A -> M B) :
  alike R m m' -> (forall a a', R a a' -> alike Q (k a) (k' a')) ->
  alike Q (bind m k) (bind m' k').
Proof.
  intros Hm Hk. destruct m as [lg [a|e]], m' as [lg' [a'|e']]; simpl in *;
    try done.
  destruct Hm as [-> Ha]. specialize (Hk a a' Ha).
  destruct (k a) as [l1 [b|e]], (k' a') as [l1' [b'|e']]; simpl in *; try done;
    destruct Hk as [-> ?]; done.
Qed.

Lemma foldM_alike {S X} (R : S -> S -> Prop) (body body' : S -> X -> M S) l s s' :
  (forall x s s', x ∈ l -> R s s' -> alike R (body s x) (body' s' x)) ->
  R s s' -> alike R (foldM body l s) (foldM body' l s').
Proof.
  revert s s'. induction l as [|x l IH]; intros s s' Hbody Hs; [done|].
  rewrite !foldM_cons. eapply alike_bind.
  - apply Hbody; [apply list_elem_of_here|done].
  - intros a a' Ha. apply IH; [|done].
    intros ? ? ? ?. apply Hbody. by apply list_elem_of_further.
Qed.

(** The walks of two processors related by [R], when [R] keeps the bucket
    maps and the pair step respects it. *)
Section walks_alike.
Variable R : LSHProcessor -> LSHProcessor -> Prop.
Variables (thr : Q) (cs : bool).
Hypothesis R_buckets : forall s s', R s s' -> hash_buckets_list s' = hash_buckets_list s.
Hypothesis R_link_pair : forall s s' pair,
  R s s' -> alike R (link_pair thr cs s pair) (link_pair thr cs s' pair).

Lemma walk_bucket_alike s s' m :
  R s s' -> alike R (walk_bucket thr cs s m) (walk_bucket thr cs s' m).
Proof.
  intros Hs. unfold walk_bucket. case_decide; [|done].
  apply foldM_alike; [|done]. intros pair ? ? _. apply R_link_pair.
Qed.

Lemma walk_band_alike s s' d :
  R s s' -> alike R (walk_band thr cs s d) (walk_band thr cs s' d).
Proof.
  intros Hs. unfold walk_band. apply foldM_alike; [|done].
  intros m ? ? _. apply walk_bucket_alike.
Qed.

Lemma process_similarities_alike s s' :
  R s s' ->
  alike R (process_similarities thr cs s) (process_similarities thr cs s').
Proof.
  intros Hs. unfold process_similarities. rewrite (R_buckets s s' Hs).
  apply foldM_alike; [|done]. intros d ? ? _. apply walk_band_alike.
Qed.
End walks_alike.

(** A pair step ends as the scorer does. *)
Lemma link_pair_Raise thr cs s pair lg e :
  calculate_similarity s pair = (lg, Raise e) ->
  link_pair thr cs s pair = (lg, Raise e).
Proof. intros H. unfold link_pair. by rewrite H. Qed.

(** The pair step on two processors with the same store. *)
Lemma link_pair_alike_store thr cs s s' pair :
  same_store s s' ->
  alike same_store (link_pair thr cs s pair) (link_pair thr cs s' pair).
Proof.
  intros Hst. destruct pair as [a b].
  pose proof (calculate_similarity_same_store s s' (a, b) Hst) as Hc'.
  destruct (calculate_similarity s (a, b)) as [lg [r|e]] eqn:Hc.
  - destruct (link_pair_Ok thr cs s a b lg r Hc) as [t Ht].
    destruct (link_pair_Ok thr cs s' a b lg r Hc') as [t' Ht'].
    rewrite Ht, Ht'. simpl. split; [done|].
    apply link_pair_Ok_inv in Ht as (_ & _ & H1 & _).
    apply link_pair_Ok_inv in Ht' as (_ & _ & H2 & _).
    eapply same_store_trans; [exact (same_store_sym _ _ H1)|].
    exact (same_store_trans _ _ _ Hst H2).
  - rewrite (link_pair_Raise _ _ _ _ _ _ Hc), (link_pair_Raise _ _ _ _ _ _ Hc').
    by simpl.
Qed.

Lemma link_labels_shift (k : Z) L c a b :
  link_labels ((fun l => l + k) <$> L) (c + k) a b
  = (fun l => l + k) <$> link_labels L c a b.
Proof.
  unfold link_labels. rewrite lookup_fmap.
  destruct (L !! a) as [la|] eqn:Ha; simpl.
  - rewrite !lookup_fmap, Ha. simpl.
    destruct (L !! b) as [lb|] eqn:Hb; simpl; [done|].
    by rewrite fmap_insert.
  - assert (<[a:=c + k]> ((fun l => l + k) <$> L)
            = (fun l => l + k) <$> <[a:=c]> L) as -> by (by rewrite fmap_insert).
    rewrite !lookup_fmap, lookup_insert_eq. simpl.
    destruct (<[a:=c]> L !! b) as [lb|] eqn:Hb; simpl; [done|].
    by rewrite !fmap_insert.
Qed.

(** The pair step on two processors whose labels differ by [k]. *)
Lemma link_pair_alike_relabelled k thr cs s s' pair :
  relabelled k s s' ->
  alike (relabelled k) (link_pair thr cs s pair) (link_pair thr cs s' pair).
Proof.
  intros (Hst & HL & Hcnt). destruct pair as [a b].
  pose proof (calculate_similarity_same_store s s' (a, b) Hst) as Hc'.
  destruct (calculate_similarity s (a, b)) as [lg [r|e]] eqn:Hc.
  - destruct (link_pair_Ok thr cs s a b lg r Hc) as [t Ht].
    destruct (link_pair_Ok thr cs s' a b lg r Hc') as [t' Ht'].
    rewrite Ht, Ht'. simpl. split; [done|].
    apply link_pair_Ok_inv in Ht as (q & Hq & H1 & Hif).
    apply link_pair_Ok_inv in Ht' as (q' & Hq' & H2 & Hif').
    rewrite Hc in Hq. rewrite Hc' in Hq'. injection Hq as ->.
    injection Hq' as <-.
    split; [|destruct (Qle_bool thr q)].
    + eapply same_store_trans; [exact (same_store_sym _ _ H1)|].
      exact (same_store_trans _ _ _ Hst H2).
    + destruct Hif as [-> ->], Hif' as [-> ->].
      rewrite HL, Hcnt, link_labels_shift, lookup_fmap.
      split; [done|]. destruct (labels s !! a); simpl; lia.
    + by subst.
  - rewrite (link_pair_Raise _ _ _ _ _ _ Hc), (link_pair_Raise _ _ _ _ _ _ Hc').
    by simpl.
Qed.

Lemma label_remaining_relabelled k s s' fp :
  relabelled k s s' ->
  relabelled k (label_remaining s fp) (label_remaining s' fp).
Proof.
  intros (Hst & HL & Hcnt). unfold label_remaining.
  rewrite HL, lookup_fmap. destruct (labels s !! fp) as [l|]; simpl; [done|].
  split; [done|]. simpl. rewrite fmap_insert, Hcnt. split; [done|lia].
Qed.

Lemma remaining_relabelled k file_paths s s' :
  relabelled k s s' ->
  relabelled k (fold_left label_remaining file_paths s)
               (fold_left label_remaining file_paths s').
Proof.
  revert s s'. induction file_paths as [|fp l IH]; intros s s' H; [done|].
  simpl. by apply IH, label_remaining_relabelled.
Qed.

(** Labels moved by a constant group the same ids together. *)
Lemma same_grouping_shift (k : Z) (L : gmap string Z) :
  same_grouping L ((fun l => l + k) <$> L).
Proof.
  split.
  - intros id. by rewrite lookup_fmap, fmap_is_Some.
  - intros id id' [l Hl] [l' Hl']. rewrite !lookup_fmap, Hl, Hl'. simpl.
    split; intros [= H]; f_equal; lia.
Qed.

Lemma bind_ext {A B} (m : M A) (k k' : A -> M B) :
  (forall a, k a = k' a) -> bind m k = bind m k'.
Proof. intros H. destruct m as [lg [a|e]]; simpl; [|done]. by rewrite H. Qed.

(** A call without a signature leaves the processor as it is. *)
Lemma add_all_skips_None adds s :
  add_all adds s = add_all (filter (fun add => is_Some add.2) adds) s.
Proof.
  revert s. unfold add_all. induction adds as [|[id [x|]] adds IH]; intros s.
  - done.
  - rewrite filter_cons_True by (simpl; eauto). rewrite !foldM_cons.
    by apply bind_ext.
  - rewrite filter_cons_False by (simpl; by intros [? ?]).
    rewrite foldM_cons. simpl add_signature. rewrite bind_ret_l. apply IH.
Qed.

Lemma labeling_run_skips_None hs b thr adds adds' :
  filter (fun add => is_Some add.2) adds'
  = filter (fun add => is_Some add.2) adds ->
  labeling_run hs b thr adds' = labeling_run hs b thr adds.
Proof.
  intros H. unfold labeling_run, filled. f_equal. apply bind_ext. intros s.
  by rewrite (add_all_skips_None adds), (add_all_skips_None adds'), H.
Qed.

Lemma assign_labels_alike_relabelled k thr s s' :
  relabelled k s s' ->
  alike (fun r r' => relabelled k r.1 r'.1 /\ r'.2 = (fun l => l + k) <$> r.2)
        (assign_labels thr s) (assign_labels thr s').
Proof.
  intros Hrel. unfold assign_labels.
  eapply alike_bind.
  - apply (process_similarities_alike (relabelled k)); [| |done].
    + by intros ? ? ((_ & _ & _ & ? & _) & _).
    + intros ? ? ?. apply link_pair_alike_relabelled.
  - intros t t' Ht. simpl. split; [done|].
    pose proof Ht as ((_ & _ & _ & _ & Hsig) & _).
    unfold _assign_labels_remaining_images. rewrite Hsig.
    pose proof (remaining_relabelled k (PyDict.keys (signatures t)) t t' Ht)
      as Hrem.
    split; [done|]. by destruct Hrem as (_ & ? & _).
Qed.

(** C3. Two runs of the labeling over the same insertions group the
    same ids together. Let [s] be the processor that [hash_size], [bands]
    and the ordered [add_signature] calls [adds] give. (1) A run on [s]
    and a run on any processor that holds the same configuration, bucket
    maps and store and has no label yet, wherever its counter starts, end
    alike: they log the same records and both raise the same exception,
    or both return, and then the two mappings group the same ids
    together, the labels of the second being those of the first moved up
    by the start of its counter; with the counter at 0, as after the same
    calls, the mappings are equal. (2) A second run on the processor that
    a first run has returned logs the same records and returns the same
    mapping. (3) A whole run over calls that differ from [adds] only by
    calls without a signature ends as the run over [adds]. *)
Theorem labeling_grouping_determined hs b thr adds lg0 s :
  filled hs b adds = (lg0, Ok s) ->
  (forall s',
     same_store s s' -> labels s' = ∅ ->
     match assign_labels thr s, assign_labels thr s' with
     | (lg, Ok (_, lbls)), (lg', Ok (_, lbls')) =>
         lg' = lg /\ same_grouping lbls lbls' /\
         lbls' = (fun l => l + label_counter s') <$> lbls /\
         (label_counter s' = 0 -> lbls' = lbls)
     | (lg, Raise e), (lg', Raise e') => lg' = lg /\ e' = e
     | _, _ => False
     end) /\
  (forall lg st lbls,
     assign_labels thr s = (lg, Ok (st, lbls)) ->
     exists st', assign_labels thr st = (lg, Ok (st', lbls))) /\
  (forall adds',
     filter (fun add => is_Some add.2) adds'
     = filter (fun add => is_Some add.2) adds ->
     labeling_run hs b thr adds' = labeling_run hs b thr adds).
Proof.
  intros Hs.
  destruct (filled_Ok hs b adds (filled_Ok_inv _ _ _ _ _ Hs))
    as (s0 & Hs0 & Hinv & _).
  rewrite Hs in Hs0. injection Hs0 as _ <-.
  destruct Hinv as (_ & _ & _ & _ & HL & Hc & Hkeys & Hbk).
  split; [|split; [|intros adds'; apply labeling_run_skips_None]].
  - intros s' Hst HL'.
    assert (relabelled (label_counter s') s s') as Hrel.
    { split; [done|]. rewrite HL, HL', fmap_empty, Hc. split; [done|lia]. }
    apply (assign_labels_alike_relabelled _ thr) in Hrel.
    destruct (assign_labels thr s) as [lg [[st lbls]|e]],
             (assign_labels thr s') as [lg' [[st' lbls']|e']]; simpl in *;
      try done.
    destruct Hrel as (-> & _ & ->). split; [done|].
    split; [apply same_grouping_shift|]. split; [done|].
    intros ->. apply map_eq. intros id. rewrite lookup_fmap.
    destruct (lbls !! id) as [l|]; simpl; [f_equal; lia|done].
  - intros lg st lbls Hrun.
    pose proof (assign_labels_steps _ _ _ _ _ Hrun) as Hsteps.
    apply label_steps_extends in Hsteps as (Hsame & _).
    pose proof Hrun as (s1 & H1 & Hst & Hlbls)%assign_labels_Ok_inv.
    pose proof (process_similarities_alike same_store thr false
                  ltac:(by intros ? ? (_ & _ & _ & ? & _))
                  ltac:(intros; by apply link_pair_alike_store)
                  s st Hsame) as Hal.
    destruct (alike_Ok _ _ _ _ _ Hal H1) as (s2 & H2 & _).
    pose proof H2 as (Hsame2 & HL2 & _)%process_similarities_labelled;
      [|intros d m id; by apply (assign_labels_buckets_labelled
                                   _ _ _ _ _ _ _ _ _ _ _ _ Hs Hrun)].
    assert (_assign_labels_remaining_images s2 = s2) as Hnoop.
    { apply remaining_labelled_noop. intros id Hid. rewrite HL2, <- Hlbls.
      apply (assign_labels_domain _ _ _ _ _ _ _ _ _ _ Hs Hrun), Hkeys.
      destruct Hsame as (_ & _ & _ & _ & Hsig).
      destruct Hsame2 as (_ & _ & _ & _ & Hsig2).
      by rewrite <- Hsig, <- Hsig2. }
    exists s2. unfold assign_labels.
    rewrite <- (app_nil_r lg). eapply bind_intro; [exact H2|].
    unfold ret. by rewrite Hnoop, HL2, Hlbls.
Qed.

(** C3 on [three_images] with threshold 1/2. *)
Lemma labeling_grouping_determined_witness :
  exists s,
    filled 2 2 three_images = ([], Ok s) /\
    (forall s',
       same_store s s' -> labels s' = ∅ ->
       match assign_labels (1 # 2) s, assign_labels (1 # 2) s' with
       | (lg, Ok (_, lbls)), (lg', Ok (_, lbls')) =>
           lg' = lg /\ same_grouping lbls lbls' /\
           lbls' = (fun l => l + label_counter s') <$> lbls /\
           (label_counter s' = 0 -> lbls' = lbls)
       | (lg, Raise e), (lg', Raise e') => lg' = lg /\ e' = e
       | _, _ => False
       end) /\
    (forall lg st lbls,
       assign_labels (1 # 2) s = (lg, Ok (st, lbls)) ->
       exists st', assign_labels (1 # 2) st = (lg, Ok (st', lbls))) /\
    (forall adds',
       filter (fun add => is_Some add.2) adds'
       = filter (fun add => is_Some add.2) three_images ->
       labeling_run 2 2 (1 # 2) adds' = labeling_run 2 2 (1 # 2) three_images).
Proof.
  eexists. split; [vm_compute; reflexivity|].
  apply (labeling_grouping_determined 2 2 (1 # 2) three_images []).
  vm_compute; reflexivity.
Defined.
